(** * The fetch/execute core of the simulator (execute.cc) and vssrl.vv

    A shallow embedding of [riscv/execute.cc] (commit log, access-period
    tracker, raw-op reconstructor, [execute_insn], [processor_t::step])
    and of the semantic handler [riscv/insns/vssrl_vv.h], followed by the
    properties proved of them.

    Conventions.
    - C++ unsigned integers ([reg_t], [uint64_t], [uint32_t]) are [Z]
      values; every place where the code truncates is written out with
      [u32] or [u64].  The quota [n] and the local count [instret] of
      [step] are [nat]: [instret] never exceeds [n].
    - The build is the one with [RISCV_ENABLE_COMMITLOG] and
      [RISCV_ENABLE_SIFT] defined (the trace hooks are compiled in);
      [RISCV_ENABLE_HISTOGRAM] is a boolean of the configuration.
    - Output (the commit-log file, [stderr], the trace writer) is a list
      of events in program order.  The list also marks every call of a
      semantic handler ([EvHandler]), so that statements can count the
      instructions a run carried out.
    - The register-write log, a [std::unordered_map], is a finite map;
      the order in which a range-for walks it is the parameter
      [reg_walk], some listing of its entries.
    - A C++ exception is a result [CRaise] (of a service) or [Raise] (of
      the core) that carries the processor reached before the throw;
      [abort()] is the result [Abort].
    - What the sources at hand do not contain (the MMU, the semantic
      handlers, trap delivery, the debug subsystem, encoding.h, decode.h)
      is a parameter: the classes [Encoding], [ExtTypes] and
      [Collaborators].

    Layout: data model; commit log; tracker; reconstructor;
    [execute_insn]; [step]; contracts of the services; vssrl.vv; concrete
    machines; properties; runs on the concrete machines. *)

From Stdlib Require Import ZArith QArith Qround Lia Bool.
From stdpp Require Import base gmap list sorting strings.

Local Open Scope Z_scope.

(** ** Machine integers *)

Definition u32 (x : Z) : Z := x mod 2 ^ 32.
Definition u64 (x : Z) : Z := x mod 2 ^ 64.

(** [a[0..n)] of a C array held as a list; the code never reads past the
    capacity of the array, cells that were never written read as 0. *)
Definition array_get (a : list Z) (i : nat) : Z := nth i a 0.
Definition array_prefix (n : Z) (a : list Z) : list Z :=
  array_get a <$> seq 0 (Z.to_nat n).

(** ** Output events *)

Definition newline : string := String (Ascii.ascii_of_nat 10) EmptyString.

Inductive arg :=
| AInt (v : Z)
| AStr (s : string)
| AChr (c : string).

Record sift_record := {
  sr_addr : Z;
  sr_size : Z;
  sr_num_addresses : Z;
  sr_addresses : list Z;
  sr_is_branch : bool;
  sr_taken : bool;
  sr_is_predicate : Z;
  sr_executed : Z
}.

Inductive event :=
| EvPrintf (fmt : string) (args : list arg)   (* fprintf(log_file, ...) *)
| EvStderr (fmt : string) (args : list arg)   (* fprintf(stderr, ...) *)
| EvInstruction (r : sift_record)             (* log_writer->Instruction *)
| EvMagic (a b c : Z)                         (* log_writer->Magic *)
| EvDisasm (bits : Z)                         (* disasm(fetch.insn) *)
| EvHandler (pc bits : Z) (npc : option Z).   (* fetch.func was called *)

(** ** Exceptions *)

Record trap_t := {
  trap_is_mem : bool;   (* the object is a mem_trap_t *)
  trap_cause : Z;
  trap_tval : Z
}.

Inductive action_t :=
| ACTION_DEBUG_EXCEPTION
| ACTION_DEBUG_MODE
| ACTION_OTHER (code : Z).

Record matched_t := {
  m_action : action_t;
  m_address : Z
}.

Inductive exn :=
| E_trap (t : trap_t)
| E_matched (m : matched_t)
| E_trap_debug_mode
| E_wait_for_interrupt.

Inductive dcsr_cause :=
| DCSR_CAUSE_SWBP
| DCSR_CAUSE_HWBP
| DCSR_CAUSE_DEBUGINT
| DCSR_CAUSE_STEP
| DCSR_CAUSE_HALT
| DCSR_CAUSE_GROUP.

Inductive step_t := STEP_NONE | STEP_STEPPING | STEP_STEPPED.
Inductive halt_request_t := HR_NONE | HR_REGULAR | HR_GROUP.

(** [freg_t]: the two 64-bit halves [v[0]], [v[1]]. *)
Definition freg_t : Type := Z * Z.

(** ** Constants and macros of encoding.h and decode.h

    These headers are not part of the sources at hand: the instruction
    masks, the length decoder, the CSR names and the serialization
    sentinels are parameters of the development.  So is the order in
    which a range-for walks the [std::unordered_map] of the register
    writes: [reg_walk] lists the entries of the map, each once, in an
    order the standard library chooses. *)

Class Encoding := {
  MASK_VMV_V_X : Z;
  MATCH_VMV_V_X : Z;
  MASK_VSETVLI : Z;
  MATCH_VSETVLI : Z;
  MASK_VSETIVLI : Z;
  MATCH_VSETIVLI : Z;
  MASK_VSETVL : Z;
  MATCH_VSETVL : Z;
  insn_length : Z -> Z;
  csr_name : Z -> string;
  PC_SERIALIZE_BEFORE : Z;
  PC_SERIALIZE_AFTER : Z;
  invalid_pc : Z -> bool;
  RISCV_ENABLE_HISTOGRAM : bool;
  reg_walk : gmap Z freg_t -> list (Z * freg_t);
  reg_walk_entries : forall m, reg_walk m ≡ₚ map_to_list m
}.

(** The types the core only passes around: the MMU with its instruction
    cache, the rest of the architectural state, and references to
    semantic handlers. *)
Class ExtTypes := {
  mmu_t : Type;
  arch_t : Type;
  func_t : Type
}.

(** ** Data model *)

Record insn_t := { bits : Z }.

(** One entry of [log_mem_read] / [log_mem_write]: address, value, size. *)
Definition mem_access : Type := Z * Z * Z.

Record vectorUnit_t := {
  VLEN : Z;
  vsew : Z;
  vflmul : Q;
  vl : Z;
  vtype : Z;
  vreg_chunk : Z -> nat -> Z   (* the 64-bit words of a vector register *)
}.

Record period_t := {
  period : Z;
  is_vector : bool
}.

Record period_info_t := {
  pi_seed : period_t;
  pi_last_access : Z;
  pi_period_list : list period_t
}.

(** Modelled from the spec: the class [period_info_t] is declared in
    processor.h, which is not at hand.  Its constructor seeds the entry
    with the retired-instruction count and the classification of the
    access that creates it, with no interval recorded yet; the accessors
    read and write the last-access count and give the interval list. *)
Definition new_period_info (seed : period_t) : period_info_t :=
  {| pi_seed := seed; pi_last_access := period seed; pi_period_list := [] |}.

Definition get_last_access (e : period_info_t) : Z := pi_last_access e.

Definition set_last_access (t : Z) (e : period_info_t) : period_info_t :=
  {| pi_seed := pi_seed e; pi_last_access := t; pi_period_list := pi_period_list e |}.

Definition push_back_period (x : period_t) (e : period_info_t) : period_info_t :=
  {| pi_seed := pi_seed e; pi_last_access := pi_last_access e;
     pi_period_list := pi_period_list e ++ [x] |}.

Record state_t := {
  pc : Z;
  prv : Z;
  v : bool;
  minstret : Z;
  mcycle : Z;
  mhpmcounter : list Z;
  dcsr_halt : bool;
  serialized : bool;
  single_step : step_t;
  debug_mode : bool;
  log_reg_write : gmap Z freg_t;        (* unordered_map, walked as reg_walk *)
  log_mem_read : list mem_access;
  log_mem_write : list mem_access;
  log_addr_valid : Z;
  log_addr : list Z;                    (* uint64_t log_addr[] *)
  log_reg_addr : list Z;                (* reg_t log_reg_addr[] *)
  log_is_branch : bool;
  log_is_branch_taken : bool;
  last_inst_priv : Z;
  last_inst_xlen : Z;
  last_inst_flen : Z
}.

(** Field updates of [state_t]. *)

Definition set_pc (x : Z) (s : state_t) : state_t :=
  {|
     pc := x; prv := prv s; v := v s; minstret := minstret s;
     mcycle := mcycle s; mhpmcounter := mhpmcounter s;
     dcsr_halt := dcsr_halt s; serialized := serialized s;
     single_step := single_step s; debug_mode := debug_mode s;
     log_reg_write := log_reg_write s; log_mem_read := log_mem_read s;
     log_mem_write := log_mem_write s; log_addr_valid := log_addr_valid s;
     log_addr := log_addr s; log_reg_addr := log_reg_addr s;
     log_is_branch := log_is_branch s;
     log_is_branch_taken := log_is_branch_taken s;
     last_inst_priv := last_inst_priv s; last_inst_xlen := last_inst_xlen s;
     last_inst_flen := last_inst_flen s |}.

Definition set_minstret (x : Z) (s : state_t) : state_t :=
  {|
     pc := pc s; prv := prv s; v := v s; minstret := x; mcycle := mcycle s;
     mhpmcounter := mhpmcounter s; dcsr_halt := dcsr_halt s;
     serialized := serialized s; single_step := single_step s;
     debug_mode := debug_mode s; log_reg_write := log_reg_write s;
     log_mem_read := log_mem_read s; log_mem_write := log_mem_write s;
     log_addr_valid := log_addr_valid s; log_addr := log_addr s;
     log_reg_addr := log_reg_addr s; log_is_branch := log_is_branch s;
     log_is_branch_taken := log_is_branch_taken s;
     last_inst_priv := last_inst_priv s; last_inst_xlen := last_inst_xlen s;
     last_inst_flen := last_inst_flen s |}.

Definition set_mcycle (x : Z) (s : state_t) : state_t :=
  {|
     pc := pc s; prv := prv s; v := v s; minstret := minstret s; mcycle := x;
     mhpmcounter := mhpmcounter s; dcsr_halt := dcsr_halt s;
     serialized := serialized s; single_step := single_step s;
     debug_mode := debug_mode s; log_reg_write := log_reg_write s;
     log_mem_read := log_mem_read s; log_mem_write := log_mem_write s;
     log_addr_valid := log_addr_valid s; log_addr := log_addr s;
     log_reg_addr := log_reg_addr s; log_is_branch := log_is_branch s;
     log_is_branch_taken := log_is_branch_taken s;
     last_inst_priv := last_inst_priv s; last_inst_xlen := last_inst_xlen s;
     last_inst_flen := last_inst_flen s |}.

Definition set_mhpmcounter (x : list Z) (s : state_t) : state_t :=
  {|
     pc := pc s; prv := prv s; v := v s; minstret := minstret s;
     mcycle := mcycle s; mhpmcounter := x; dcsr_halt := dcsr_halt s;
     serialized := serialized s; single_step := single_step s;
     debug_mode := debug_mode s; log_reg_write := log_reg_write s;
     log_mem_read := log_mem_read s; log_mem_write := log_mem_write s;
     log_addr_valid := log_addr_valid s; log_addr := log_addr s;
     log_reg_addr := log_reg_addr s; log_is_branch := log_is_branch s;
     log_is_branch_taken := log_is_branch_taken s;
     last_inst_priv := last_inst_priv s; last_inst_xlen := last_inst_xlen s;
     last_inst_flen := last_inst_flen s |}.

Definition set_serialized (x : bool) (s : state_t) : state_t :=
  {|
     pc := pc s; prv := prv s; v := v s; minstret := minstret s;
     mcycle := mcycle s; mhpmcounter := mhpmcounter s;
     dcsr_halt := dcsr_halt s; serialized := x; single_step := single_step s;
     debug_mode := debug_mode s; log_reg_write := log_reg_write s;
     log_mem_read := log_mem_read s; log_mem_write := log_mem_write s;
     log_addr_valid := log_addr_valid s; log_addr := log_addr s;
     log_reg_addr := log_reg_addr s; log_is_branch := log_is_branch s;
     log_is_branch_taken := log_is_branch_taken s;
     last_inst_priv := last_inst_priv s; last_inst_xlen := last_inst_xlen s;
     last_inst_flen := last_inst_flen s |}.

Definition set_single_step (x : step_t) (s : state_t) : state_t :=
  {|
     pc := pc s; prv := prv s; v := v s; minstret := minstret s;
     mcycle := mcycle s; mhpmcounter := mhpmcounter s;
     dcsr_halt := dcsr_halt s; serialized := serialized s; single_step := x;
     debug_mode := debug_mode s; log_reg_write := log_reg_write s;
     log_mem_read := log_mem_read s; log_mem_write := log_mem_write s;
     log_addr_valid := log_addr_valid s; log_addr := log_addr s;
     log_reg_addr := log_reg_addr s; log_is_branch := log_is_branch s;
     log_is_branch_taken := log_is_branch_taken s;
     last_inst_priv := last_inst_priv s; last_inst_xlen := last_inst_xlen s;
     last_inst_flen := last_inst_flen s |}.

Definition set_debug_mode (x : bool) (s : state_t) : state_t :=
  {|
     pc := pc s; prv := prv s; v := v s; minstret := minstret s;
     mcycle := mcycle s; mhpmcounter := mhpmcounter s;
     dcsr_halt := dcsr_halt s; serialized := serialized s; single_step := single_step s;
     debug_mode := x; log_reg_write := log_reg_write s;
     log_mem_read := log_mem_read s; log_mem_write := log_mem_write s;
     log_addr_valid := log_addr_valid s; log_addr := log_addr s;
     log_reg_addr := log_reg_addr s; log_is_branch := log_is_branch s;
     log_is_branch_taken := log_is_branch_taken s;
     last_inst_priv := last_inst_priv s; last_inst_xlen := last_inst_xlen s;
     last_inst_flen := last_inst_flen s |}.

Definition set_log_reg_write (x : gmap Z freg_t) (s : state_t) : state_t :=
  {|
     pc := pc s; prv := prv s; v := v s; minstret := minstret s;
     mcycle := mcycle s; mhpmcounter := mhpmcounter s;
     dcsr_halt := dcsr_halt s; serialized := serialized s;
     single_step := single_step s; debug_mode := debug_mode s;
     log_reg_write := x; log_mem_read := log_mem_read s;
     log_mem_write := log_mem_write s; log_addr_valid := log_addr_valid s;
     log_addr := log_addr s; log_reg_addr := log_reg_addr s;
     log_is_branch := log_is_branch s;
     log_is_branch_taken := log_is_branch_taken s;
     last_inst_priv := last_inst_priv s; last_inst_xlen := last_inst_xlen s;
     last_inst_flen := last_inst_flen s |}.

Definition set_log_mem_read (x : list mem_access) (s : state_t) : state_t :=
  {|
     pc := pc s; prv := prv s; v := v s; minstret := minstret s;
     mcycle := mcycle s; mhpmcounter := mhpmcounter s;
     dcsr_halt := dcsr_halt s; serialized := serialized s;
     single_step := single_step s; debug_mode := debug_mode s;
     log_reg_write := log_reg_write s; log_mem_read := x;
     log_mem_write := log_mem_write s; log_addr_valid := log_addr_valid s;
     log_addr := log_addr s; log_reg_addr := log_reg_addr s;
     log_is_branch := log_is_branch s;
     log_is_branch_taken := log_is_branch_taken s;
     last_inst_priv := last_inst_priv s; last_inst_xlen := last_inst_xlen s;
     last_inst_flen := last_inst_flen s |}.

Definition set_log_mem_write (x : list mem_access) (s : state_t) : state_t :=
  {|
     pc := pc s; prv := prv s; v := v s; minstret := minstret s;
     mcycle := mcycle s; mhpmcounter := mhpmcounter s;
     dcsr_halt := dcsr_halt s; serialized := serialized s;
     single_step := single_step s; debug_mode := debug_mode s;
     log_reg_write := log_reg_write s; log_mem_read := log_mem_read s;
     log_mem_write := x; log_addr_valid := log_addr_valid s;
     log_addr := log_addr s; log_reg_addr := log_reg_addr s;
     log_is_branch := log_is_branch s;
     log_is_branch_taken := log_is_branch_taken s;
     last_inst_priv := last_inst_priv s; last_inst_xlen := last_inst_xlen s;
     last_inst_flen := last_inst_flen s |}.

Definition set_log_addr_valid (x : Z) (s : state_t) : state_t :=
  {|
     pc := pc s; prv := prv s; v := v s; minstret := minstret s;
     mcycle := mcycle s; mhpmcounter := mhpmcounter s;
     dcsr_halt := dcsr_halt s; serialized := serialized s;
     single_step := single_step s; debug_mode := debug_mode s;
     log_reg_write := log_reg_write s; log_mem_read := log_mem_read s;
     log_mem_write := log_mem_write s; log_addr_valid := x;
     log_addr := log_addr s; log_reg_addr := log_reg_addr s;
     log_is_branch := log_is_branch s;
     log_is_branch_taken := log_is_branch_taken s;
     last_inst_priv := last_inst_priv s; last_inst_xlen := last_inst_xlen s;
     last_inst_flen := last_inst_flen s |}.

Definition set_log_is_branch (x : bool) (s : state_t) : state_t :=
  {|
     pc := pc s; prv := prv s; v := v s; minstret := minstret s;
     mcycle := mcycle s; mhpmcounter := mhpmcounter s;
     dcsr_halt := dcsr_halt s; serialized := serialized s;
     single_step := single_step s; debug_mode := debug_mode s;
     log_reg_write := log_reg_write s; log_mem_read := log_mem_read s;
     log_mem_write := log_mem_write s; log_addr_valid := log_addr_valid s;
     log_addr := log_addr s; log_reg_addr := log_reg_addr s;
     log_is_branch := x; log_is_branch_taken := log_is_branch_taken s;
     last_inst_priv := last_inst_priv s; last_inst_xlen := last_inst_xlen s;
     last_inst_flen := last_inst_flen s |}.

Definition set_log_is_branch_taken (x : bool) (s : state_t) : state_t :=
  {|
     pc := pc s; prv := prv s; v := v s; minstret := minstret s;
     mcycle := mcycle s; mhpmcounter := mhpmcounter s;
     dcsr_halt := dcsr_halt s; serialized := serialized s;
     single_step := single_step s; debug_mode := debug_mode s;
     log_reg_write := log_reg_write s; log_mem_read := log_mem_read s;
     log_mem_write := log_mem_write s; log_addr_valid := log_addr_valid s;
     log_addr := log_addr s; log_reg_addr := log_reg_addr s;
     log_is_branch := log_is_branch s; log_is_branch_taken := x;
     last_inst_priv := last_inst_priv s; last_inst_xlen := last_inst_xlen s;
     last_inst_flen := last_inst_flen s |}.

Definition set_last_inst_priv (x : Z) (s : state_t) : state_t :=
  {|
     pc := pc s; prv := prv s; v := v s; minstret := minstret s;
     mcycle := mcycle s; mhpmcounter := mhpmcounter s;
     dcsr_halt := dcsr_halt s; serialized := serialized s;
     single_step := single_step s; debug_mode := debug_mode s;
     log_reg_write := log_reg_write s; log_mem_read := log_mem_read s;
     log_mem_write := log_mem_write s; log_addr_valid := log_addr_valid s;
     log_addr := log_addr s; log_reg_addr := log_reg_addr s;
     log_is_branch := log_is_branch s;
     log_is_branch_taken := log_is_branch_taken s; last_inst_priv := x;
     last_inst_xlen := last_inst_xlen s; last_inst_flen := last_inst_flen s |}.

Definition set_last_inst_xlen (x : Z) (s : state_t) : state_t :=
  {|
     pc := pc s; prv := prv s; v := v s; minstret := minstret s;
     mcycle := mcycle s; mhpmcounter := mhpmcounter s;
     dcsr_halt := dcsr_halt s; serialized := serialized s;
     single_step := single_step s; debug_mode := debug_mode s;
     log_reg_write := log_reg_write s; log_mem_read := log_mem_read s;
     log_mem_write := log_mem_write s; log_addr_valid := log_addr_valid s;
     log_addr := log_addr s; log_reg_addr := log_reg_addr s;
     log_is_branch := log_is_branch s;
     log_is_branch_taken := log_is_branch_taken s;
     last_inst_priv := last_inst_priv s; last_inst_xlen := x;
     last_inst_flen := last_inst_flen s |}.

Definition set_last_inst_flen (x : Z) (s : state_t) : state_t :=
  {|
     pc := pc s; prv := prv s; v := v s; minstret := minstret s;
     mcycle := mcycle s; mhpmcounter := mhpmcounter s;
     dcsr_halt := dcsr_halt s; serialized := serialized s;
     single_step := single_step s; debug_mode := debug_mode s;
     log_reg_write := log_reg_write s; log_mem_read := log_mem_read s;
     log_mem_write := log_mem_write s; log_addr_valid := log_addr_valid s;
     log_addr := log_addr s; log_reg_addr := log_reg_addr s;
     log_is_branch := log_is_branch s;
     log_is_branch_taken := log_is_branch_taken s;
     last_inst_priv := last_inst_priv s; last_inst_xlen := last_inst_xlen s;
     last_inst_flen := x |}.

Section Processor.
Context `{ExtTypes}.

Record insn_fetch_t := {
  func : func_t;
  insn : insn_t
}.

(** [sift_executed_insn] is a global of execute.cc; the model runs one
    processor and keeps the cell with it. *)
Record processor_t := {
  state : state_t;
  id : Z;
  xlen : Z;
  flen : Z;
  VU : vectorUnit_t;
  mmu : mmu_t;
  matched_trigger : option matched_t;   (* mmu->matched_trigger *)
  debug : bool;
  halt_request : halt_request_t;
  log_commits_enabled : bool;
  addr_history : gmap Z period_info_t;
  pc_histogram : gmap Z Z;
  sift_executed_insn : Z;
  arch : arch_t
}.


(** Field updates of [processor_t]. *)

Definition set_state (x : state_t) (p : processor_t) : processor_t :=
  {|
     state := x; id := id p; xlen := xlen p; flen := flen p; VU := VU p;
     mmu := mmu p; matched_trigger := matched_trigger p; debug := debug p;
     halt_request := halt_request p;
     log_commits_enabled := log_commits_enabled p;
     addr_history := addr_history p; pc_histogram := pc_histogram p;
     sift_executed_insn := sift_executed_insn p; arch := arch p |}.

Definition set_matched_trigger (x : option matched_t) (p : processor_t) : processor_t :=
  {|
     state := state p; id := id p; xlen := xlen p; flen := flen p;
     VU := VU p; mmu := mmu p; matched_trigger := x; debug := debug p;
     halt_request := halt_request p;
     log_commits_enabled := log_commits_enabled p;
     addr_history := addr_history p; pc_histogram := pc_histogram p;
     sift_executed_insn := sift_executed_insn p; arch := arch p |}.

Definition set_addr_history (x : gmap Z period_info_t) (p : processor_t) : processor_t :=
  {|
     state := state p; id := id p; xlen := xlen p; flen := flen p;
     VU := VU p; mmu := mmu p; matched_trigger := matched_trigger p;
     debug := debug p; halt_request := halt_request p;
     log_commits_enabled := log_commits_enabled p; addr_history := x;
     pc_histogram := pc_histogram p;
     sift_executed_insn := sift_executed_insn p; arch := arch p |}.

Definition set_pc_histogram (x : gmap Z Z) (p : processor_t) : processor_t :=
  {|
     state := state p; id := id p; xlen := xlen p; flen := flen p;
     VU := VU p; mmu := mmu p; matched_trigger := matched_trigger p;
     debug := debug p; halt_request := halt_request p;
     log_commits_enabled := log_commits_enabled p;
     addr_history := addr_history p; pc_histogram := x;
     sift_executed_insn := sift_executed_insn p; arch := arch p |}.

Definition set_sift_executed_insn (x : Z) (p : processor_t) : processor_t :=
  {|
     state := state p; id := id p; xlen := xlen p; flen := flen p;
     VU := VU p; mmu := mmu p; matched_trigger := matched_trigger p;
     debug := debug p; halt_request := halt_request p;
     log_commits_enabled := log_commits_enabled p;
     addr_history := addr_history p; pc_histogram := pc_histogram p;
     sift_executed_insn := x; arch := arch p |}.

Definition set_arch (x : arch_t) (p : processor_t) : processor_t :=
  {|
     state := state p; id := id p; xlen := xlen p; flen := flen p;
     VU := VU p; mmu := mmu p; matched_trigger := matched_trigger p;
     debug := debug p; halt_request := halt_request p;
     log_commits_enabled := log_commits_enabled p;
     addr_history := addr_history p; pc_histogram := pc_histogram p;
     sift_executed_insn := sift_executed_insn p; arch := x |}.

Definition upd_state (f : state_t -> state_t) (p : processor_t) : processor_t :=
  set_state (f (state p)) p.

End Processor.

(** ** The services the core calls into

    The decoder and MMU, the semantic handlers, trap delivery and the
    debug subsystem are not part of execute.cc.  A call that may throw
    returns [CRaise] together with the processor it leaves behind. *)

Inductive cres `{ExtTypes} (A : Type) :=
| COk (a : A) (p : processor_t)
| CRaise (e : exn) (p : processor_t).
Arguments COk {_ _} _ _.
Arguments CRaise {_ _} _ _.

Class Collaborators `{ExtTypes} := {
  icache_entry : Type;   (* icache_entry_t*, a cell of the MMU's cache *)
  call_func : func_t -> insn_t -> Z -> processor_t -> cres Z;
  take_pending_interrupt : processor_t -> cres unit;
  load_insn : processor_t -> Z -> cres insn_fetch_t;
  access_icache : processor_t -> Z -> cres icache_entry;
  ic_data : mmu_t -> icache_entry -> insn_fetch_t;
  ic_next : mmu_t -> icache_entry -> icache_entry;
  ic_tag : mmu_t -> icache_entry -> Z;
  take_trap : trap_t -> Z -> processor_t -> processor_t;
  enter_debug_mode : dcsr_cause -> processor_t -> processor_t;
  trap_breakpoint : bool -> Z -> trap_t
}.

(** How a piece of the core ends: with a value, with a C++ exception, or
    with [abort()]. *)
Inductive outcome (A : Type) :=
| Ok (a : A)
| Raise (e : exn)
| Abort.
Arguments Ok {_} _.
Arguments Raise {_} _.
Arguments Abort {_}.

Section Core.
Context `{Encoding} `{Collaborators}.

(** ** Commit log *)

Definition commit_log_reset (p : processor_t) : processor_t :=
  upd_state (fun s =>
    set_log_is_branch_taken false
      (set_log_is_branch false
        (set_log_addr_valid 0
          (set_log_mem_write []
            (set_log_mem_read []
              (set_log_reg_write ∅ s)))))) p.

Definition commit_log_stash_privilege (p : processor_t) : processor_t :=
  upd_state (fun s =>
    set_last_inst_flen (flen p)
      (set_last_inst_xlen (xlen p)
        (set_last_inst_priv (prv s) s))) p.

(** [sift_executed_insn] is a [uint32_t]; the argument is a [uint64_t]. *)
Definition record_executed_insn (insn_bits : Z) (p : processor_t) : processor_t :=
  set_sift_executed_insn (u32 insn_bits) p.

(** [commit_log_print_value(log_file, width, data)]: [data i] is the
    [i]-th 64-bit word behind the pointer (little-endian host).  [None]
    is [abort()]. *)
Definition commit_log_print_value (width : Z) (data : nat -> Z) : option (list event) :=
  if width =? 8 then Some [EvPrintf "0x%01hhx" [AInt (data 0%nat mod 2 ^ 8)]]
  else if width =? 16 then Some [EvPrintf "0x%04hx" [AInt (data 0%nat mod 2 ^ 16)]]
  else if width =? 32 then Some [EvPrintf "0x%08x" [AInt (data 0%nat mod 2 ^ 32)]]
  else if width =? 64 then Some [EvPrintf "0x%016lx" [AInt (data 0%nat)]]
  else if Z.land (width - 1) width =? 0 then
    (* max lengh of vector *)
    Some (EvPrintf "0x" [] ::
          ((fun idx => EvPrintf "%016lx" [AInt (data idx)])
             <$> rev (seq 0 (Z.to_nat (Z.quot width 64)))))
  else None.

(** The overload taking a [uint64_t] value prints the word itself. *)
Definition commit_log_print_word (width : Z) (val : Z) : option (list event) :=
  commit_log_print_value width (fun i => match i with O => val | _ => 0 end).

Definition freg_words (f : freg_t) (i : nat) : Z :=
  match i with O => f.1 | 1%nat => f.2 | _ => 0 end.

(** One iteration of [for (auto item : reg)]; the accumulator holds
    [show_vec] and what has been printed. *)
Definition commit_log_print_reg (p : processor_t) (xlen flen : Z)
    (acc : option (bool * list event)) (item : Z * freg_t)
    : option (bool * list event) :=
  match acc with
  | None => None
  | Some (show_vec, out) =>
    if item.1 =? 0 then acc
    else
      let rd := Z.shiftr item.1 4 in
      let kind :=
        match Z.land item.1 0xf with
        | 0 => Some (xlen, "x"%string, false, false)
        | 1 => Some (flen, "f"%string, false, false)
        | 2 => Some (VLEN (VU p), "v"%string, false, true)
        | 3 => Some (0, ""%string, true, false)
        | 4 => Some (xlen, "c"%string, false, false)
        | _ => None       (* assert("can't been here" && 0) *)
        end in
      match kind with
      | None => None
      | Some (size, prefix, is_vec, is_vreg) =>
        let small := if Qlt_le_dec (vflmul (VU p)) 1 then true else false in
        let header :=
          if negb show_vec && (is_vreg || is_vec) then
            [EvPrintf " e%ld %s%ld l%ld"
               [AInt (vsew (VU p));
                AStr (if small then "mf" else "m");
                AInt (if small then Qfloor (Qinv (vflmul (VU p)))
                      else Qfloor (vflmul (VU p)));
                AInt (vl (VU p))]]
          else [] in
        let show_vec := show_vec || (is_vreg || is_vec) in
        if is_vec then Some (show_vec, out ++ header)
        else
          let name :=
            if String.eqb prefix "c"
            then EvPrintf " c%d_%s " [AInt rd; AStr (csr_name rd)]
            else EvPrintf " %c%-2d " [AChr prefix; AInt rd] in
          let value :=
            if is_vreg then commit_log_print_value size (vreg_chunk (VU p) rd)
            else commit_log_print_value size (freg_words item.2) in
          match value with
          | None => None
          | Some val => Some (show_vec, out ++ header ++ [name] ++ val)
          end
      end
  end.

Definition commit_log_print_load (xlen : Z) (acc : option (list event))
    (item : mem_access) : option (list event) :=
  match acc, commit_log_print_word xlen item.1.1 with
  | Some out, Some a => Some (out ++ [EvPrintf " mem " []] ++ a)
  | _, _ => None
  end.

Definition commit_log_print_store (xlen : Z) (acc : option (list event))
    (item : mem_access) : option (list event) :=
  match acc, commit_log_print_word xlen item.1.1,
        commit_log_print_word (Z.shiftl item.2 3) item.1.2 with
  | Some out, Some a, Some d =>
      Some (out ++ [EvPrintf " mem " []] ++ a ++ [EvPrintf " " []] ++ d)
  | _, _, _ => None
  end.

(** [commit_log_print_insn]: the text written to the log file for one
    instruction, or [None] when the printing aborts the process. *)
Definition commit_log_print_insn (p : processor_t) (pc : Z) (insn : insn_t)
    : option (list event) :=
  let s := state p in
  let priv := last_inst_priv s in
  let xlen := last_inst_xlen s in
  let flen := last_inst_flen s in
  match commit_log_print_word xlen pc,
        commit_log_print_word (insn_length (bits insn) * 8) (bits insn) with
  | Some opc, Some oinsn =>
    let start :=
      (* print core id on all lines so it is easy to grep *)
      [EvPrintf "core%4d: " [AInt (id p)]; EvPrintf "%1d " [AInt priv]]
        ++ opc ++ [EvPrintf " (" []] ++ oinsn ++ [EvPrintf ")" []] in
    match foldl (commit_log_print_reg p xlen flen) (Some (false, start))
                (reg_walk (log_reg_write s)) with
    | None => None
    | Some (_, out) =>
      match foldl (commit_log_print_store xlen)
                  (foldl (commit_log_print_load xlen) (Some out) (log_mem_read s))
                  (log_mem_write s) with
      | None => None
      | Some out => Some (out ++ [EvPrintf newline []])
      end
    end
  | _, _ => None
  end.

Definition update_histogram (pc : Z) (p : processor_t) : processor_t :=
  if RISCV_ENABLE_HISTOGRAM
  then set_pc_histogram
         (<[pc := u64 (default 0 (pc_histogram p !! pc) + 1)]> (pc_histogram p)) p
  else p.

(** ** Access-period tracker: [log_print_mem_access] *)

Definition VEC_ARITH_MATCH : Z := 0x57.
Definition VEC_LOAD_MATCH : Z := 0x07.
Definition VEC_STORE_MATCH : Z := 0x27.

Definition is_vector_insn (insn_bit : Z) : bool :=
  (Z.land insn_bit 0x7f =? VEC_ARITH_MATCH)
  || (Z.land insn_bit 0x7f =? VEC_LOAD_MATCH)
  || (Z.land insn_bit 0x7f =? VEC_STORE_MATCH).

(** Body of [for (auto item : store)]. *)
Definition track_store (minstret : Z) (is_vector : bool)
    (h : gmap Z period_info_t) (item : mem_access) : gmap Z period_info_t :=
  let addr := item.1.1 in
  match h !! addr with
  | None =>
      <[addr := new_period_info {| period := minstret; is_vector := is_vector |}]> h
  | Some e => <[addr := set_last_access minstret e]> h
  end.

Definition period_message : string :=
  "set 0x004ad20, last_access = %ld, current_access = %ld, period = %ld" ++ newline.

(** Body of [for (auto item : load)]; the subtraction is on [reg_t]. *)
Definition track_load (minstret : Z) (is_vector : bool)
    (acc : gmap Z period_info_t * list event) (item : mem_access)
    : gmap Z period_info_t * list event :=
  let addr := item.1.1 in
  match acc.1 !! addr with
  | None =>
      (<[addr := new_period_info {| period := minstret; is_vector := is_vector |}]> acc.1,
       acc.2)
  | Some e =>
      let last_access := get_last_access e in
      let out :=
        if addr =? 0x0041ad20
        then acc.2 ++ [EvStderr period_message
                         [AInt last_access; AInt minstret; AInt (u64 (minstret - last_access))]]
        else acc.2 in
      let e := push_back_period
                 {| period := u64 (minstret - last_access); is_vector := is_vector |} e in
      (<[addr := set_last_access minstret e]> acc.1, out)
  end.

Definition log_print_mem_access (p : processor_t) (pc : Z) (insn : insn_t)
    : processor_t * list event :=
  let load := log_mem_read (state p) in
  let store := log_mem_write (state p) in
  let is_vector := is_vector_insn (bits insn) in
  let minstret := minstret (state p) in
  let h := foldl (track_store minstret is_vector) (addr_history p) store in
  let r := foldl (track_load minstret is_vector) (h, []) load in
  (set_addr_history r.1 p, r.2).

(** The tracker run over a stream of executed instructions: each element
    gives the pc, the instruction and the state (with its access logs and
    retired count) that the instruction leaves. *)
Fixpoint track_stream (stream : list (Z * insn_t * state_t)) (p : processor_t)
    : processor_t :=
  match stream with
  | [] => p
  | x :: rest =>
      track_stream rest (log_print_mem_access (set_state x.2 p) x.1.1 x.1.2).1
  end.

(** A processor whose last instruction, at retired count [count], read
    [loads] and wrote [stores]. *)
Definition with_access (count : Z) (loads stores : list mem_access)
    (p : processor_t) : processor_t :=
  upd_state (fun s =>
    set_log_mem_write stores (set_log_mem_read loads (set_minstret count s))) p.

(** An entry carries the vector flag when the access that created it or
    one of its intervals is classified as vector-sourced. *)
Definition vector_flagged (e : period_info_t) : bool :=
  is_vector (pi_seed e) || existsb is_vector (pi_period_list e).

Definition no_vector_flag (h : gmap Z period_info_t) : Prop :=
  ∀ a e, h !! a = Some e → vector_flagged e = false.

(** ** Raw-op reconstructor: [log_print_sift_trace] *)

(** [char x = (w >> pos) & 0x01f; x++; w = (w & ~(0x1f << pos)) | (x << pos);]
    The complement is an [int] that the [&] converts to [uint32_t]. *)
Definition field (pos w : Z) : Z := Z.land (Z.shiftr w pos) 0x01f.

Definition inc_field (pos w : Z) : Z :=
  let origin := field pos w in
  let origin := origin + 1 in
  u32 (Z.lor (Z.land w (u32 (Z.lnot (Z.shiftl 0x1f pos)))) (Z.shiftl origin pos)).

Definition inc_vd : Z -> Z := inc_field 7.
Definition inc_vs1 : Z -> Z := inc_field 15.
Definition inc_vs2 : Z -> Z := inc_field 20.

Definition opcode_is (w op : Z) : bool := Z.land w 0x7f =? op.
Definition funct3_is (w f : Z) : bool := Z.land (Z.shiftr w 12) 0x7 =? f.
Definition funct6_is (w f : Z) : bool := Z.land (Z.shiftr w 26) 0x3f =? f.

(** What one iteration of the micro-op loop does to the held word after
    the call of [Instruction] (lines 274-329).  The flags are computed
    once, from the word whose vd has just been incremented. *)
Definition advance_raw_word (num_addresses w : Z) : Z :=
  (* One increment vd *)
  let w := inc_vd w in
  let is_opivx := opcode_is w 0x57 && funct3_is w 0x4 in
  let is_opfvf := opcode_is w 0x57 && funct3_is w 0x5 in
  let is_opmvx := opcode_is w 0x57 && funct3_is w 0x6 in
  let is_opfvv_vfunary0 := opcode_is w 0x57 && funct3_is w 0x1 && funct6_is w 0x12 in
  let is_opfvv_vfunary1 := opcode_is w 0x57 && funct3_is w 0x1 && funct6_is w 0x13 in
  let is_opmvv_vxunary1 := opcode_is w 0x57 && funct3_is w 0x2 && funct6_is w 0x13 in
  let is_opmvv_vmunary1 := opcode_is w 0x57 && funct3_is w 0x2 && funct6_is w 0x14 in
  let is_vlx_indexed := opcode_is w 0x07 && (Z.land (Z.shiftr w 26) 0x1 =? 1) in
  let is_vsx_indexed := opcode_is w 0x27 && (Z.land (Z.shiftr w 26) 0x1 =? 1) in
  let is_opivi := opcode_is w 0x57 && funct3_is w 0x3 in
  (* One increment vs1 *)
  let w :=
    if (num_addresses =? 0)   (* not memory instruction *)
       && negb is_opfvv_vfunary0 && negb is_opfvv_vfunary1
       && negb is_opmvv_vxunary1 && negb is_opmvv_vmunary1
       && negb is_opivx && negb is_opfvf && negb is_opmvx && negb is_opivi
    then inc_vs1 w else w in
  if (num_addresses =? 0)     (* arithmetic instruction *)
     || is_vlx_indexed || is_vsx_indexed
  then
    if negb (Z.land (Z.land (Z.b2z is_opfvv_vfunary0) (Z.shiftr w 18)) 1 =? 0)
                                                    (* Widening Convertion *)
       || (Z.land MASK_VMV_V_X w =? MATCH_VMV_V_X)   (* VMV_V_X *)
    then w                     (* Do nothing *)
    else inc_vs2 w             (* One increment vs2 *)
  else w.

(** [vreg_array]: vector-kind keys of the register-write log, then the
    logged destinations not yet present, sorted. *)
Definition push_unique (acc : list Z) (r : Z) : list Z :=
  if bool_decide (r ∈ acc) then acc else acc ++ [r].

Definition logged_vregs (s : state_t) : list Z :=
  (fun i : Z * freg_t => Z.shiftr i.1 4)
    <$> filter (fun i : Z * freg_t => Z.land i.1 0xf = 2) (reg_walk (log_reg_write s)).

Definition vreg_array (s : state_t) : list Z :=
  merge_sort Z.le
    (foldl push_unique (logged_vregs s)
           (array_prefix (log_addr_valid s) (log_reg_addr s))).

(** The addresses gathered into [uop_addresses] for one destination
    (the local array holds 1024 cells). *)
Definition uop_addresses (s : state_t) (vreg : Z) : list Z :=
  array_get (log_addr s)
    <$> filter (fun i => vreg = array_get (log_reg_addr s) i)
               (seq 0 (Z.to_nat (log_addr_valid s))).

Definition instruction_record (p : processor_t) (pc : Z) (insn : insn_t)
    (addresses : list Z) : event :=
  EvInstruction
    {| sr_addr := pc;
       sr_size := insn_length (bits insn);
       sr_num_addresses := Z.of_nat (length addresses);
       sr_addresses := addresses;
       sr_is_branch := log_is_branch (state p);
       sr_taken := log_is_branch_taken (state p);
       sr_is_predicate := 0;
       sr_executed := 1 |}.

(** [for (vreg_idx = 0; vreg_idx < vreg_array.size(); vreg_idx++)]:
    the records written and the held word at the end. *)
Fixpoint sift_uops (p : processor_t) (pc : Z) (insn : insn_t)
    (vregs : list Z) (w : Z) : list event * Z :=
  match vregs with
  | [] => ([], w)
  | vreg :: rest =>
      let record := instruction_record p pc insn (uop_addresses (state p) vreg) in
      let r := sift_uops p pc insn rest (advance_raw_word (log_addr_valid (state p)) w) in
      (record :: r.1, r.2)
  end.

(** The held word once the first [k] records have been written. *)
Definition held_word_after (k : nat) (p : processor_t) (pc : Z) (insn : insn_t) : Z :=
  (sift_uops p pc insn (take k (vreg_array (state p))) (sift_executed_insn p)).2.

Definition sift_scalar (p : processor_t) (pc : Z) (insn : insn_t) : list event :=
  let w := sift_executed_insn p in
  [instruction_record p pc insn (array_prefix (log_addr_valid (state p)) (log_addr (state p)))]
  ++ (if w =? 0x00100013 then [EvMagic 1 0 0] else [])   (* SIM_ROI_START *)
  ++ (if w =? 0x00200013 then [EvMagic 2 0 0] else [])   (* SIM_ROI_END *)
  ++ (if (Z.land w MASK_VSETVLI =? MATCH_VSETVLI)
         || (Z.land w MASK_VSETIVLI =? MATCH_VSETIVLI)
         || (Z.land w MASK_VSETVL =? MATCH_VSETVL)
      then [EvMagic 5 (vl (VU p)) (vtype (VU p))]         (* SIM_CMD_USER *)
      else []).

Definition log_print_sift_trace (p : processor_t) (pc : Z) (insn : insn_t)
    : processor_t * list event :=
  let vregs := vreg_array (state p) in
  let r :=
    match vregs with
    | [] => (sift_scalar p pc insn, sift_executed_insn p)
    | _ => sift_uops p pc insn vregs (sift_executed_insn p)
    end in
  (upd_state (fun s =>
     set_log_is_branch_taken false (set_log_is_branch false (set_log_addr_valid 0 s)))
     (set_sift_executed_insn r.2 p),
   r.1).

(** ** [execute_insn] *)

(** The result of running a piece of the core: how it ended, the
    processor it leaves and what it wrote. *)
Record run (A : Type) := mk_run {
  r_outcome : outcome A;
  r_proc : processor_t;
  r_events : list event
}.
Arguments mk_run {_} _ _ _.
Arguments r_outcome {_} _.
Arguments r_proc {_} _.
Arguments r_events {_} _.

(** [commit_log_print_insn] followed by [log_print_sift_trace], then the
    outcome [o]. *)
Definition print_and_trace {A} (o : outcome A) (p : processor_t) (pc : Z)
    (insn : insn_t) (before : list event) : run A :=
  match commit_log_print_insn p pc insn with
  | None => mk_run Abort p before
  | Some line =>
      let t := log_print_sift_trace p pc insn in
      mk_run o t.1 (before ++ line ++ t.2)
  end.

(** The scan of the register-write log in the [mem_trap_t] handler. *)
Definition vector_write_logged (s : state_t) : bool :=
  existsb (fun item : Z * freg_t => Z.land item.1 3 =? 3) (reg_walk (log_reg_write s)).

(** [EvHandler] marks the call of the semantic handler and the next pc it
    returned ([None] when it threw). *)
Definition execute_insn (p : processor_t) (pc : Z) (fetch : insn_fetch_t) : run Z :=
  let p := commit_log_reset p in
  let p := commit_log_stash_privilege p in
  let b := bits (insn fetch) in
  match call_func (func fetch) (insn fetch) pc p with
  | COk npc p =>
      let called := [EvHandler pc b (Some npc)] in
      if npc =? PC_SERIALIZE_BEFORE then mk_run (Ok npc) (update_histogram pc p) called
      else
        let p := record_executed_insn b p in
        match (if log_commits_enabled p then commit_log_print_insn p pc (insn fetch)
               else Some []) with
        | None => mk_run Abort p called
        | Some line =>
            let m := log_print_mem_access p pc (insn fetch) in
            let t := log_print_sift_trace m.1 pc (insn fetch) in
            mk_run (Ok npc) (update_histogram pc t.1) (called ++ line ++ m.2 ++ t.2)
        end
  | CRaise e p =>
      let called := [EvHandler pc b None] in
      match e with
      | E_wait_for_interrupt =>
          let p := record_executed_insn b p in
          if log_commits_enabled p
          then print_and_trace (Raise e) p pc (insn fetch) called
          else mk_run (Raise e) p called
      | E_trap t =>
          if trap_is_mem t then
            (* handle segfault in midlle of vector load/store *)
            if log_commits_enabled p && vector_write_logged (state p)
            then print_and_trace (Raise e) (record_executed_insn b p) pc (insn fetch) called
            else mk_run (Raise e) p called
          else mk_run (Raise e) p called
      | _ => mk_run (Raise e) p called
      end
  end.

(** ** [processor_t::step] *)

Definition slow_path (p : processor_t) : bool :=
  debug p
  || negb (match single_step (state p) with STEP_NONE => true | _ => false end)
  || debug_mode (state p).

(** Modelled from the spec: [bump] of a counter CSR (csrs.h is not at
    hand) adds the amount to the 64-bit counter. *)
Definition bump (howmuch : Z) (counter : Z) : Z := u64 (counter + howmuch).

(** [state.minstret->bump(instret); state.mcycle->bump(instret);] *)
Definition retire (instret : nat) (p : processor_t) : processor_t :=
  upd_state (fun s =>
    set_mcycle (bump (Z.of_nat instret) (mcycle s))
      (set_minstret (bump (Z.of_nat instret) (minstret s)) s)) p.

(** The macro [advance_pc()]: go on with the next instruction, [break],
    or [abort()]. *)
Inductive advance :=
| AdvNext (instret : nat) (pc : Z) (p : processor_t)
| AdvBreak (instret : nat) (pc : Z) (p : processor_t)
| AdvAbort.

Definition advance_pc (npc : Z) (instret : nat) (p : processor_t) : advance :=
  if invalid_pc npc then
    if npc =? PC_SERIALIZE_BEFORE
    then AdvBreak instret (pc (state p)) (upd_state (set_serialized true) p)
    else if npc =? PC_SERIALIZE_AFTER
    then AdvBreak (S instret) (pc (state p)) p
    else AdvAbort
  else AdvNext (S instret) npc (upd_state (set_pc npc) p).

(** How the [try] block of one batch ends, with the locals [instret] and
    [pc] at that point. *)
Inductive status :=
| Completed
| Thrown (e : exn)
| Aborted.

Record batch := mk_batch {
  b_status : status;
  b_instret : nat;
  b_pc : Z;
  b_proc : processor_t;
  b_events : list event
}.

Definition emit_before (out : list event) (b : batch) : batch :=
  mk_batch (b_status b) (b_instret b) (b_pc b) (b_proc b) (out ++ b_events b).

(** [execute_insn] followed by [advance_pc()], shared by both loops. *)
Definition is_stepped (s : state_t) : bool :=
  match single_step s with STEP_STEPPED => true | _ => false end.

Definition is_stepping (s : state_t) : bool :=
  match single_step s with STEP_STEPPING => true | _ => false end.

(** Main simulation loop, slow path: [while (instret < n)].  [remaining]
    is [n - instret]. *)
Fixpoint slow_loop (remaining instret : nat) (pc : Z) (p : processor_t) : batch :=
  match remaining with
  | O => mk_batch Completed instret pc p []
  | S remaining =>
      let fire := negb (serialized (state p)) && is_stepped (state p) in
      let p := if fire then upd_state (set_single_step STEP_NONE) p else p in
      if fire && negb (debug_mode (state p)) then
        (* enter_debug_mode changed state.pc, so we can't just continue. *)
        mk_batch Completed instret pc (enter_debug_mode DCSR_CAUSE_STEP p) []
      else
        let p := if is_stepping (state p)
                 then upd_state (set_single_step STEP_STEPPED) p else p in
        match load_insn p pc with
        | CRaise e p => mk_batch (Thrown e) instret pc p []
        | COk fetch p =>
            let shown := if debug p && negb (serialized (state p))
                         then [EvDisasm (bits (insn fetch))] else [] in
            let r := execute_insn p pc fetch in
            emit_before (shown ++ r_events r)
              match r_outcome r with
              | Raise e => mk_batch (Thrown e) instret pc (r_proc r) []
              | Abort => mk_batch Aborted instret pc (r_proc r) []
              | Ok npc =>
                  match advance_pc npc instret (r_proc r) with
                  | AdvNext instret pc p => slow_loop remaining instret pc p
                  | AdvBreak instret pc p => mk_batch Completed instret pc p []
                  | AdvAbort => mk_batch Aborted instret npc (r_proc r) []
                  end
              end
        end
  end.

(** Main simulation loop, fast path: [while (instret < n)] around the
    [for] over the chained cache entries.  [ic_entry] is [None] at the
    head of the [while] (the cache has to be accessed) and the current
    entry inside the [for]; [remaining] is [n - instret], so that
    [instret + 1 == n] reads [remaining = 1]. *)
Fixpoint fast_loop (remaining : nat) (ic_entry : option icache_entry)
    (instret : nat) (pc : Z) (p : processor_t) : batch :=
  match remaining with
  | O => mk_batch Completed instret pc p []
  | S remaining =>
      match (match ic_entry with
             | Some e => COk e p
             | None => access_icache p pc
             end) with
      | CRaise e p => mk_batch (Thrown e) instret pc p []
      | COk entry p =>
          let fetch := ic_data (mmu p) entry in
          let r := execute_insn p pc fetch in
          emit_before (r_events r)
            match r_outcome r with
            | Raise e => mk_batch (Thrown e) instret pc (r_proc r) []
            | Abort => mk_batch Aborted instret pc (r_proc r) []
            | Ok npc =>
                let p := r_proc r in
                let entry := ic_next (mmu p) entry in
                if negb (ic_tag (mmu p) entry =? npc)
                   || match remaining with O => true | S _ => false end
                then
                  match advance_pc npc instret p with
                  | AdvNext instret pc p => fast_loop remaining None instret pc p
                  | AdvBreak instret pc p => mk_batch Completed instret pc p []
                  | AdvAbort => mk_batch Aborted instret npc p []
                  end
                else
                  fast_loop remaining (Some entry) (S instret) npc
                            (upd_state (set_pc npc) p)
            end
      end
  end.

(** The [try] block of one batch. *)
Definition batch_try (n : nat) (p : processor_t) : batch :=
  let instret := O in
  let pc := pc (state p) in
  match take_pending_interrupt p with
  | CRaise e p => mk_batch (Thrown e) instret pc p []
  | COk _ p =>
      if slow_path p then slow_loop n instret pc p
      else fast_loop n None instret pc p
  end.

(** What the handlers after the [try] block leave: the loop goes on to
    the counter updates with new [n] and [instret], or the [break] of
    [advance_pc()] inside the trigger handler leaves [while (n > 0)], or
    an exception thrown inside a handler leaves [step], or the process
    aborts. *)
Inductive handled :=
| GoOn (n instret : nat) (p : processor_t)
| LeaveLoop (p : processor_t)
| Escape (e : exn) (p : processor_t)
| Dead.

(** [switch (t.action)] of the trigger handler. *)
Definition trigger_action (t : matched_t) (n instret : nat) (pc : Z)
    (p : processor_t) : handled :=
  match m_action t with
  | ACTION_DEBUG_MODE => GoOn n instret (enter_debug_mode DCSR_CAUSE_HWBP p)
  | ACTION_DEBUG_EXCEPTION =>
      GoOn n instret (take_trap (trap_breakpoint (v (state p)) (m_address t)) pc p)
  | ACTION_OTHER _ => Dead
  end.

Definition handle (n : nat) (b : batch) : handled * list event :=
  let instret := b_instret b in
  let pc := b_pc b in
  let p := b_proc b in
  match b_status b with
  | Completed => (GoOn n instret p, [])
  | Aborted => (Dead, [])
  | Thrown (E_trap t) =>
      let p := take_trap t pc p in
      let n := instret in
      if is_stepped (state p)
      then (GoOn n instret
              (enter_debug_mode DCSR_CAUSE_STEP (upd_state (set_single_step STEP_NONE) p)), [])
      else (GoOn n instret p, [])
  | Thrown (E_matched t) =>
      match matched_trigger p with
      | Some _ =>
          (* This exception came from the MMU: the instruction is started
             again. *)
          match load_insn p pc with
          | CRaise e p => (Escape e p, [])
          | COk fetch p =>
              let r := execute_insn p pc fetch in
              match r_outcome r with
              | Raise e => (Escape e (r_proc r), r_events r)
              | Abort => (Dead, r_events r)
              | Ok npc =>
                  match advance_pc npc instret (r_proc r) with
                  | AdvNext instret pc p =>
                      (trigger_action t n instret pc (set_matched_trigger None p),
                       r_events r)
                  | AdvBreak _ _ p => (LeaveLoop p, r_events r)
                  | AdvAbort => (Dead, r_events r)
                  end
              end
          end
      | None => (trigger_action t n instret pc p, [])
      end
  | Thrown E_trap_debug_mode => (GoOn n instret (enter_debug_mode DCSR_CAUSE_SWBP p), [])
  | Thrown E_wait_for_interrupt =>
      (* Return to the outer simulation loop *)
      (GoOn (S instret) (S instret) p, [])
  end.

(** How [step] ends. *)
Inductive ending :=
| Returned (p : processor_t)
| Uncaught (e : exn) (p : processor_t)
| ProcessAborted
| OutOfFuel.

Definition emit_first (out : list event) (r : ending * list event) : ending * list event :=
  (r.1, out ++ r.2).

(** [while (n > 0)]: [fuel] bounds the number of batches. *)
Fixpoint step_loop (fuel : nat) (n : nat) (p : processor_t) : ending * list event :=
  match n with
  | O => (Returned p, [])
  | S _ =>
      match fuel with
      | O => (OutOfFuel, [])
      | S fuel =>
          let b := batch_try n p in
          let h := handle n b in
          emit_first (b_events b ++ h.2)
            match h.1 with
            | GoOn n instret p => step_loop fuel (n - instret) (retire instret p)
            | LeaveLoop p => (Returned p, [])
            | Escape e p => (Uncaught e p, [])
            | Dead => (ProcessAborted, [])
            end
      end
  end.

(** The halt conditions checked on entry of [step]. *)
Definition check_halt (p : processor_t) : processor_t :=
  if negb (debug_mode (state p)) then
    match halt_request p with
    | HR_REGULAR => enter_debug_mode DCSR_CAUSE_DEBUGINT p
    | HR_GROUP => enter_debug_mode DCSR_CAUSE_GROUP p
    | HR_NONE =>
        (* !!!The halt bit in DCSR is deprecated. *)
        if dcsr_halt (state p) then enter_debug_mode DCSR_CAUSE_HALT p else p
    end
  else p.

Definition step (fuel : nat) (n : nat) (p : processor_t) : ending * list event :=
  step_loop fuel n (check_halt p).

End Core.

Arguments mk_run {_ _} _ _ _.
Arguments r_outcome {_ _} _.
Arguments r_proc {_ _} _.
Arguments r_events {_ _} _.

(** ** Accounting and the contracts of the services

    What the statements about [step] count and assume. *)

Section Contracts.
Context `{Encoding} `{Collaborators}.

(** The instructions a trace shows as carried out: the calls of a
    semantic handler that returned something other than
    [PC_SERIALIZE_BEFORE] (execute_insn commits nothing for that one). *)
Definition carried_out (e : event) : bool :=
  match e with
  | EvHandler _ _ (Some npc) => negb (npc =? PC_SERIALIZE_BEFORE)
  | _ => false
  end.

Definition retired_in (out : list event) : nat := length (filter carried_out out).

Definition cres_proc {A} (r : cres A) : processor_t :=
  match r with
  | COk _ p => p
  | CRaise _ p => p
  end.

Definition same_counters (p q : processor_t) : Prop :=
  minstret (state q) = minstret (state p) ∧ mcycle (state q) = mcycle (state p).

Definition same_control (p q : processor_t) : Prop :=
  serialized (state q) = serialized (state p)
  ∧ single_step (state q) = single_step (state p)
  ∧ debug_mode (state q) = debug_mode (state p).

(** No service writes minstret or mcycle. *)
Record counters_kept : Prop := {
  kept_call : ∀ f i pc p, same_counters p (cres_proc (call_func f i pc p));
  kept_interrupt : ∀ p, same_counters p (cres_proc (take_pending_interrupt p));
  kept_load : ∀ p pc, same_counters p (cres_proc (load_insn p pc));
  kept_icache : ∀ p pc, same_counters p (cres_proc (access_icache p pc));
  kept_trap : ∀ t pc p, same_counters p (take_trap t pc p);
  kept_debug : ∀ c p, same_counters p (enter_debug_mode c p)
}.

(** No cache entry is tagged with the sentinel. *)
Definition tags_valid : Prop := ∀ m e, ic_tag m e ≠ PC_SERIALIZE_BEFORE.

(** Nothing throws: no interrupt is pending, fetches succeed and no
    handler raises a trap, a trigger match, a debug-mode entry or a wait
    for interrupt. *)
Record quiet : Prop := {
  quiet_call : ∀ f i pc p, ∃ npc q, call_func f i pc p = COk npc q;
  quiet_interrupt : ∀ p, ∃ q, take_pending_interrupt p = COk tt q;
  quiet_load : ∀ p pc, ∃ f q, load_insn p pc = COk f q;
  quiet_icache : ∀ p pc, ∃ e q, access_icache p pc = COk e q
}.

(** The next-pc protocol of the handlers: an invalid pc is one of the two
    sentinels, and a handler does not ask again for serialization once the
    processor is serialized.  Fetching and the interrupt check leave the
    control flags alone, and [enter_debug_mode] enters debug mode. *)
Record handler_contract : Prop := {
  sentinel_invalid : invalid_pc PC_SERIALIZE_BEFORE = true;
  next_pc_known : ∀ f i pc p npc q,
    call_func f i pc p = COk npc q → invalid_pc npc = true →
    npc = PC_SERIALIZE_BEFORE ∨ npc = PC_SERIALIZE_AFTER;
  serialize_once : ∀ f i pc p npc q,
    call_func f i pc p = COk npc q → serialized (state p) = true →
    npc ≠ PC_SERIALIZE_BEFORE;
  control_interrupt : ∀ p, same_control p (cres_proc (take_pending_interrupt p));
  control_load : ∀ p pc, same_control p (cres_proc (load_insn p pc));
  control_icache : ∀ p pc, same_control p (cres_proc (access_icache p pc));
  debug_entered : ∀ c p, debug_mode (state (enter_debug_mode c p)) = true
}.

(** Widths that [commit_log_print_value] prints. *)
Definition printable_width (width : Z) : bool :=
  (width =? 8) || (width =? 16) || (width =? 32) || (width =? 64)
  || (Z.land (width - 1) width =? 0).

Definition printable_config (p : processor_t) : Prop :=
  printable_width (xlen p) = true
  ∧ printable_width (flen p) = true
  ∧ printable_width (VLEN (VU p)) = true.

(** The tags of the register-write log are the five kinds, and the sizes
    of the logged stores are printable. *)
Definition well_tagged (s : state_t) : Prop :=
  ∀ k val, log_reg_write s !! k = Some val → 0 <= Z.land k 0xf <= 4.

Definition printable_stores (s : state_t) : Prop :=
  Forall (fun item : mem_access => printable_width (Z.shiftl item.2 3) = true)
         (log_mem_write s).

(** What the services leave is printable: they keep the widths of the
    configuration, and a handler leaves a well-formed log and does not
    touch the stashed widths. *)
Record printing_contract : Prop := {
  insn_width : ∀ b, printable_width (insn_length b * 8) = true;
  config_call : ∀ f i pc p npc q,
    call_func f i pc p = COk npc q → printable_config p →
    printable_config q
    ∧ last_inst_xlen (state q) = last_inst_xlen (state p)
    ∧ last_inst_flen (state q) = last_inst_flen (state p)
    ∧ well_tagged (state q)
    ∧ printable_stores (state q);
  config_interrupt : ∀ p, printable_config p →
    printable_config (cres_proc (take_pending_interrupt p));
  config_load : ∀ p pc, printable_config p → printable_config (cres_proc (load_insn p pc));
  config_icache : ∀ p pc, printable_config p →
    printable_config (cres_proc (access_icache p pc));
  config_debug : ∀ c p, printable_config p → printable_config (enter_debug_mode c p)
}.

(** How many batches in a row can retire nothing: one that ends on the
    single-step debug entry, then one that ends on a request for
    serialization. *)
Definition slack (p : processor_t) : nat :=
  if serialized (state p) then 0
  else if is_stepped (state p) && negb (debug_mode (state p)) then 2
  else 1.

(** The tag written by vector instructions that log no single register
    ([case 3] of the switch in [commit_log_print_insn]). *)
Definition has_vector_generic (s : state_t) : bool :=
  existsb (fun item : Z * freg_t => Z.land item.1 0xf =? 3) (map_to_list (log_reg_write s)).

(** A list of output events that shows no carried-out instruction. *)
Definition silent (out : list event) : Prop :=
  Forall (fun e => carried_out e = false) out.

(** What the loop and the contracts read of a processor; the trace
    hooks leave all of it alone. *)
Definition loop_view (p : processor_t) :=
  (pc (state p), minstret (state p), mcycle (state p),
   serialized (state p), single_step (state p), debug_mode (state p),
   (xlen p, flen p, VLEN (VU p), debug p, mmu p, log_commits_enabled p)).

(** The bookkeeping of a batch started with [instret] and allowed [bound]
    more instructions: the counters are those of [p], the local count is
    the number of instructions the trace shows carried out, and a throw
    leaves it below the bound. *)
Definition accounted (instret bound : nat) (p : processor_t) (b : batch) : Prop :=
  same_counters p (b_proc b)
  ∧ (b_status b ≠ Aborted → b_instret b = (instret + retired_in (b_events b))%nat)
  ∧ (b_instret b ≤ instret + bound)%nat
  ∧ (∀ e, b_status b = Thrown e → (b_instret b < instret + bound)%nat).

(** A batch that ran to its end, and made progress. *)
Definition settled (instret remaining : nat) (p : processor_t) (b : batch) : Prop :=
  b_status b = Completed
  ∧ printable_config (b_proc b)
  ∧ (instret ≤ b_instret b)%nat
  ∧ (b_instret b = instret → remaining ≠ 0%nat → (slack (b_proc b) < slack p)%nat).





End Contracts.

(** ** Observations on events, logs and batches

    What the further properties read off a trace or a table. *)

(** The events of the commit-log file; the terminator of a line; the
    text of a line other than its terminator; the vector configuration
    printed before the first vector register of a line. *)
Definition is_log_text (e : event) : bool :=
  match e with
  | EvPrintf _ _ => true
  | _ => false
  end.

Definition is_newline (e : event) : bool :=
  match e with
  | EvPrintf fmt [] => String.eqb fmt newline
  | _ => false
  end.

Definition line_text (e : event) : Prop := is_log_text e = true ∧ is_newline e = false.

Definition is_vector_header (e : event) : bool :=
  match e with
  | EvPrintf fmt _ => String.eqb fmt " e%ld %s%ld l%ld"
  | _ => false
  end.

Definition header_count (out : list event) : nat := length (filter is_vector_header out).

(** The line terminators that an event writes to the log file: those of
    its format and those of the strings and characters it prints (a
    number is printed without). *)
Fixpoint newlines_in (s : string) : nat :=
  match s with
  | EmptyString => 0%nat
  | String c rest =>
      ((if Ascii.eqb c (Ascii.ascii_of_nat 10) then 1 else 0) + newlines_in rest)%nat
  end.

Definition newlines_of (a : arg) : nat :=
  match a with
  | AInt _ => 0%nat
  | AStr s => newlines_in s
  | AChr c => newlines_in c
  end.

Definition newlines_written (e : event) : nat :=
  match e with
  | EvPrintf fmt args =>
      (newlines_in fmt + foldr (λ a n, (newlines_of a + n)%nat) 0%nat args)%nat
  | _ => 0%nat
  end.

Definition newlines_total (out : list event) : nat :=
  foldr (λ e n, (newlines_written e + n)%nat) 0%nat out.

(** Text of the log file that stays on the line. *)
Definition inline_text (e : event) : Prop :=
  is_log_text e = true ∧ newlines_written e = 0%nat.

(** An entry of the register-write log that is tagged as a vector register
    ([case 2]) or as a vector write without register ([case 3]). *)
Definition vector_kind (item : Z * freg_t) : bool :=
  (Z.land item.1 0xf =? 2) || (Z.land item.1 0xf =? 3).

(** The addresses of an access log, and the reads of one address in it. *)
Definition accessed (l : list mem_access) : list Z := (λ item : mem_access, item.1.1) <$> l.

Definition reads_of (a : Z) (l : list mem_access) : nat :=
  length (filter (λ item : mem_access, item.1.1 = a) l).

(** What one write, and one read, make of the entry of their address
    (the two branches of the loops of [log_print_mem_access]). *)
Definition entry_after_store (m : Z) (isv : bool) (o : option period_info_t) : period_info_t :=
  match o with
  | None => new_period_info {| period := m; is_vector := isv |}
  | Some e => set_last_access m e
  end.

Definition entry_after_load (m : Z) (isv : bool) (o : option period_info_t) : period_info_t :=
  match o with
  | None => new_period_info {| period := m; is_vector := isv |}
  | Some e =>
      set_last_access m
        (push_back_period {| period := u64 (m - get_last_access e); is_vector := isv |} e)
  end.

(** The intervals that [c] reads of one instruction add to an entry last
    accessed at [last]: the distance to that access (none when the
    instruction also writes the address, its writes being tracked first),
    then zeros. *)
Definition intervals_added (m : Z) (isv : bool) (last : Z) (stored : bool) (c : nat)
    : list period_t :=
  match c with
  | O => []
  | S c' =>
      {| period := if stored then 0 else u64 (m - last); is_vector := isv |}
      :: replicate c' {| period := 0; is_vector := isv |}
  end.

(** The addresses carried by a trace record. *)
Definition record_addresses (e : event) : list Z :=
  match e with
  | EvInstruction r => sr_addresses r
  | _ => []
  end.

Definition is_instruction (e : event) : bool :=
  match e with
  | EvInstruction _ => true
  | _ => false
  end.

(** A vector load or store that takes an index register: opcode 0x07 or
    0x27 with bit 26 set, as [is_vlx_indexed] and [is_vsx_indexed] test. *)
Definition is_indexed_access (w : Z) : bool :=
  (opcode_is w 0x07 || opcode_is w 0x27) && (Z.land (Z.shiftr w 26) 0x1 =? 1).

Definition is_handler (e : event) : bool :=
  match e with
  | EvHandler _ _ _ => true
  | _ => false
  end.

(** Walking the handler calls of a trace from a pc: each call is made at
    the pc that the call before it returned (a call that threw leaves the
    pc where it is).  The result is the pc reached at the end, or [None]
    when some call is made elsewhere. *)
Fixpoint follow (here : Z) (out : list event) : option Z :=
  match out with
  | [] => Some here
  | EvHandler at_pc _ next :: rest =>
      if at_pc =? here then follow (default here next) rest else None
  | _ :: rest => follow here rest
  end.

Section Observations.
Context `{Encoding} `{Collaborators}.

(** An entry of the register-write log that [commit_log_print_insn]
    prints without aborting. *)
Definition printable_reg (p : processor_t) (xlen flen : Z) (item : Z * freg_t) : bool :=
  (item.1 =? 0)
  || match Z.land item.1 0xf with
     | 0 | 4 => printable_width xlen
     | 1 => printable_width flen
     | 2 => printable_width (VLEN (VU p))
     | 3 => true
     | _ => false
     end.

(** Everything of a processor but the logs and tables of the trace hooks
    (the commit-log stash and logs, the Address History Table, the pc
    histogram and the held instruction word). *)
Definition arch_view (p : processor_t) :=
  (pc (state p), prv (state p), v (state p), minstret (state p), mcycle (state p),
   mhpmcounter (state p), dcsr_halt (state p), serialized (state p),
   single_step (state p), debug_mode (state p),
   (id p, xlen p, flen p, VU p, mmu p, matched_trigger p, debug p, halt_request p,
    log_commits_enabled p, arch p)).

(** The reads of [a] logged over a stream of executed instructions. *)
Definition reads_in_stream (a : Z) (stream : list (Z * insn_t * state_t)) : nat :=
  foldr (λ (x : Z * insn_t * state_t) total, (reads_of a (log_mem_read x.2) + total)%nat)
        0%nat stream.

(** The local count of a batch started with [instret] and allowed [bound]
    more instructions stays within the allowance, strictly when the batch
    ends on a throw. *)
Definition within (instret bound : nat) (b : batch) : Prop :=
  (instret ≤ b_instret b ≤ instret + bound)%nat
  ∧ (∀ e, b_status b = Thrown e → (b_instret b < instret + bound)%nat).

(** The processor a call of [step] leaves, when it returns or lets an
    exception escape. *)
Definition ending_proc (r : ending) : option processor_t :=
  match r with
  | Returned q => Some q
  | Uncaught _ q => Some q
  | _ => None
  end.

(** The instruction cache agrees with the fetch of the slow path: an
    access gives what [load_insn] gives, an entry tagged with a pc holds
    the instruction at this pc and fetching it anew changes nothing, and
    tags are valid pcs.  Fetching leaves what [slow_path] reads alone, and
    so does an instruction that returns a valid next pc (those that change
    it end with a serialization sentinel). *)
Record fetch_coherent : Prop := {
  miss_agrees : ∀ p pc,
    match load_insn p pc with
    | COk f q => ∃ e, access_icache p pc = COk e q ∧ ic_data (mmu q) e = f
    | CRaise x q => access_icache p pc = CRaise x q
    end;
  hit_agrees : ∀ p e, load_insn p (ic_tag (mmu p) e) = COk (ic_data (mmu p) e) p;
  tags_are_pcs : ∀ m e, invalid_pc (ic_tag m e) = false;
  fetch_keeps_path : ∀ p pc, slow_path (cres_proc (load_insn p pc)) = slow_path p;
  call_keeps_path : ∀ f i pc p npc q,
    call_func f i pc p = COk npc q → invalid_pc npc = false → slow_path q = slow_path p
}.

(** Where a batch that started at [start] stops: at the pc its handler
    calls lead to or, after a serialization sentinel, at [state.pc]. *)
Definition stops_in_order (start : Z) (b : batch) : Prop :=
  ∃ last,
    follow start (b_events b) = Some last
    ∧ (b_pc b = last
       ∨ (invalid_pc last = true ∧ b_status b = Completed
          ∧ b_pc b = pc (state (b_proc b))))
    ∧ (∀ e, b_status b = Thrown e → b_pc b = last).

End Observations.

(** ** The semantic handler of vssrl.vv (insns/vssrl_vv.h)

    The rounding-mode type, [get_vround_mode], the element loop
    [VI_VV_ULOOP] and [INT_ROUNDING] are macros and declarations of
    decode.h and processor.h, taken as parameters.  The loop receives the
    element operation: from [sew] and the unsigned elements [vs1] and
    [vs2] it gives the value stored in [vd]. *)

Section Vssrl.
Context `{ExtTypes}.
Variable VRM : Type.
Variable get_vround_mode : processor_t -> VRM.
Variable INT_ROUNDING : Z -> VRM -> Z -> Z.
Variable VI_VV_ULOOP : (Z -> Z -> Z -> Z) -> insn_t -> processor_t -> cres unit.

(** The body given to the loop.  [val] is a [uint128_t]; [vd] has [sew]
    bits. *)
Definition vssrl_element (xrm : VRM) (sew vs1 vs2 : Z) : Z :=
  let sh := Z.land vs1 (sew - 1) in
  let val := vs2 in
  let val := INT_ROUNDING val xrm sh mod 2 ^ 128 in
  Z.shiftr val sh mod 2 ^ sew.

(** [P.get_state()->mhpmcounter[10]->bump(1)]; the array has more than
    ten cells. *)
Definition bump_mhpmcounter10 (p : processor_t) : processor_t :=
  upd_state (fun s => set_mhpmcounter (alter (bump 1) 10%nat (mhpmcounter s)) s) p.

Definition vssrl_vv (insn : insn_t) (p : processor_t) : cres unit :=
  let xrm := get_vround_mode p in
  match VI_VV_ULOOP (vssrl_element xrm) insn p with
  | COk _ p => COk tt (bump_mhpmcounter10 p)
  | CRaise e p => CRaise e p
  end.

End Vssrl.

(** ** Concrete instances used to run the model

    The masks are those of the RISC-V opcode tables; the sentinels are 3
    and 5 and a pc is invalid when its lowest bit is set. *)

Definition riscv_encoding : Encoding := {|
  MASK_VMV_V_X := 0xfff0707f;
  MATCH_VMV_V_X := 0x5e004057;
  MASK_VSETVLI := 0x8000707f;
  MATCH_VSETVLI := 0x7057;
  MASK_VSETIVLI := 0xc000707f;
  MATCH_VSETIVLI := 0xc0007057;
  MASK_VSETVL := 0xfe00707f;
  MATCH_VSETVL := 0x80007057;
  insn_length := fun b => if Z.land b 3 =? 3 then 4 else 2;
  csr_name := fun _ => "csr"%string;
  PC_SERIALIZE_BEFORE := 3;
  PC_SERIALIZE_AFTER := 5;
  invalid_pc := fun pc => Z.land pc 1 =? 1;
  RISCV_ENABLE_HISTOGRAM := false;
  reg_walk := map_to_list;
  reg_walk_entries := fun m => Permutation_refl (map_to_list m)
|}.

(** A machine whose MMU is a table from pc to what the instruction there
    does.  Cache entry [e] stands for the pc [4 * e]. *)
Inductive script :=
| DoNext                       (* returns pc + 4 *)
| DoSerialize                  (* PC_SERIALIZE_BEFORE unless serialized *)
| DoThrow (e : exn)
| DoVectorFault (t : trap_t).  (* logs a vector-generic write, then throws *)

Definition script_types : ExtTypes := {|
  mmu_t := Z -> script;
  arch_t := unit;
  func_t := script
|}.

Section Scripted.
#[local] Existing Instance script_types.

Definition nop : insn_t := {| bits := 0x00000013 |}.

Definition script_fetch (m : Z -> script) (pc : Z) : insn_fetch_t :=
  {| func := m pc; insn := nop |}.

Definition script_call (f : script) (i : insn_t) (pc : Z) (p : processor_t) : cres Z :=
  match f with
  | DoNext => COk (pc + 4) p
  | DoSerialize =>
      if serialized (state p) then COk (pc + 4) (upd_state (set_serialized false) p)
      else COk 3 p
  | DoThrow e => CRaise e p
  | DoVectorFault t =>
      CRaise (E_trap t) (upd_state (set_log_reg_write (<[3 := (0, 0)]> ∅)) p)
  end.

Definition script_debug_entry (c : dcsr_cause) (p : processor_t) : processor_t :=
  upd_state (fun s => set_debug_mode true (set_pc 0x800 s)) p.

Definition script_machine : Collaborators := {|
  icache_entry := Z;
  call_func := script_call;
  take_pending_interrupt := fun p => COk tt p;
  load_insn := fun p pc => COk (script_fetch (mmu p) pc) p;
  access_icache := fun p pc => COk (pc / 4) p;
  ic_data := fun m e => script_fetch m (4 * e);
  ic_next := fun _ e => e + 1;
  ic_tag := fun _ e => 4 * e;
  take_trap := fun t pc p => upd_state (set_pc 0x100) p;
  enter_debug_mode := script_debug_entry;
  trap_breakpoint := fun v a => {| trap_is_mem := true; trap_cause := 3; trap_tval := a |}
|}.

Definition state0 : state_t :=
  {| pc := 0x1000; prv := 3; v := false; minstret := 0; mcycle := 0;
     mhpmcounter := repeat 0 29; dcsr_halt := false; serialized := false;
     single_step := STEP_NONE; debug_mode := false;
     log_reg_write := ∅; log_mem_read := []; log_mem_write := [];
     log_addr_valid := 0; log_addr := []; log_reg_addr := [];
     log_is_branch := false; log_is_branch_taken := false;
     last_inst_priv := 3; last_inst_xlen := 64; last_inst_flen := 64 |}.

Definition vu0 : vectorUnit_t :=
  {| VLEN := 128; vsew := 8; vflmul := 1; vl := 4; vtype := 0;
     vreg_chunk := fun _ _ => 0 |}.

Definition processor0 (program : Z -> script) : processor_t :=
  {| state := state0; id := 0; xlen := 64; flen := 64; VU := vu0; mmu := program;
     matched_trigger := None; debug := false; halt_request := HR_NONE;
     log_commits_enabled := true; addr_history := ∅; pc_histogram := ∅;
     sift_executed_insn := 0; arch := tt |}.

(** Programs: one that traps at its third instruction, one that waits for
    an interrupt there, and one whose first instruction is a vector
    access that faults after a first write. *)
Definition load_fault : trap_t := {| trap_is_mem := true; trap_cause := 13; trap_tval := 0x2000 |}.

Definition program_with (at_pc : Z) (what : script) (pc : Z) : script :=
  if pc =? at_pc then what else DoNext.

Definition trapping_program : Z -> script :=
  program_with 0x1008 (DoThrow (E_trap load_fault)).

Definition waiting_program : Z -> script :=
  program_with 0x1008 (DoThrow E_wait_for_interrupt).

Definition faulting_vector_program : Z -> script :=
  program_with 0x1000 (DoVectorFault load_fault).

(** vlseg3e8.v v29, (a0) with four elements: the twelve logged accesses go
    to v29, v30 and v31 in turn. *)
Definition segment_load_bits : Z := 0x42050e87.

Definition segment_load_example : processor_t :=
  set_sift_executed_insn segment_load_bits
    (upd_state (fun s =>
       set_log_addr_valid 12
         (set_log_reg_write
            (<[29 * 16 + 2 := (0, 0)]> (<[30 * 16 + 2 := (0, 0)]> (<[31 * 16 + 2 := (0, 0)]> ∅)))
            {| pc := pc s; prv := prv s; v := v s; minstret := minstret s;
               mcycle := mcycle s; mhpmcounter := mhpmcounter s;
               dcsr_halt := dcsr_halt s; serialized := serialized s;
               single_step := single_step s; debug_mode := debug_mode s;
               log_reg_write := log_reg_write s; log_mem_read := log_mem_read s;
               log_mem_write := log_mem_write s; log_addr_valid := log_addr_valid s;
               log_addr := [100; 200; 300; 101; 201; 301; 102; 202; 302; 103; 203; 303];
               log_reg_addr := [29; 30; 31; 29; 30; 31; 29; 30; 31; 29; 30; 31];
               log_is_branch := log_is_branch s;
               log_is_branch_taken := log_is_branch_taken s;
               last_inst_priv := last_inst_priv s; last_inst_xlen := last_inst_xlen s;
               last_inst_flen := last_inst_flen s |}))
       (processor0 (fun _ => DoNext))).

(** flw f0, 0(a0): a scalar floating-point load of four bytes at 0x2000;
    the write log holds f0 only. *)
Definition flw_bits : Z := 0x00052007.

Definition flw_example : processor_t :=
  upd_state (fun s =>
    set_log_reg_write (<[0 * 16 + 1 := (0x3f800000, 0)]> ∅)
      (set_log_mem_read [(0x2000, 0x3f800000, 4)] s))
    (processor0 (fun _ => DoNext)).

End Scripted.

(** A machine in which nothing throws: the handler reference says whether
    the instruction asks for serialization. *)
Definition plain_types : ExtTypes := {|
  mmu_t := Z -> bool;
  arch_t := unit;
  func_t := bool
|}.

Section Plain.
#[local] Existing Instance plain_types.

Definition plain_fetch (m : Z -> bool) (pc : Z) : insn_fetch_t :=
  {| func := m pc; insn := {| bits := 0x00000013 |} |}.

(** The handler leaves an empty log behind and returns an even pc. *)
Definition plain_call (f : bool) (i : insn_t) (pc : Z) (p : processor_t) : cres Z :=
  let p := upd_state (fun s => set_log_mem_write [] (set_log_reg_write ∅ s)) p in
  if f && negb (serialized (state p)) then COk 3 p
  else COk (Z.land (pc + 4) (Z.lnot 1)) (upd_state (set_serialized false) p).

Definition plain_debug_entry (c : dcsr_cause) (p : processor_t) : processor_t :=
  upd_state (fun s => set_debug_mode true (set_pc 0x800 s)) p.

Definition plain_machine : Collaborators := {|
  icache_entry := Z;
  call_func := plain_call;
  take_pending_interrupt := fun p => COk tt p;
  load_insn := fun p pc => COk (plain_fetch (mmu p) pc) p;
  access_icache := fun p pc => COk (pc / 4) p;
  ic_data := fun m e => plain_fetch m (4 * e);
  ic_next := fun _ e => e + 1;
  ic_tag := fun _ e => 4 * e;
  take_trap := fun t pc p => upd_state (set_pc 0x100) p;
  enter_debug_mode := plain_debug_entry;
  trap_breakpoint := fun v a => {| trap_is_mem := true; trap_cause := 3; trap_tval := a |}
|}.

(** A processor whose second instruction is a serializing one. *)
Definition plain_processor : processor_t :=
  {| state :=
       {| pc := 0x1000; prv := 3; v := false; minstret := 5; mcycle := 9;
          mhpmcounter := repeat 0 29; dcsr_halt := false; serialized := false;
          single_step := STEP_NONE; debug_mode := false;
          log_reg_write := ∅; log_mem_read := []; log_mem_write := [];
          log_addr_valid := 0; log_addr := []; log_reg_addr := [];
          log_is_branch := false; log_is_branch_taken := false;
          last_inst_priv := 3; last_inst_xlen := 64; last_inst_flen := 64 |};
     id := 0; xlen := 64; flen := 64;
     VU := {| VLEN := 128; vsew := 8; vflmul := 1; vl := 4; vtype := 0;
              vreg_chunk := fun _ _ => 0 |};
     mmu := fun pc => pc =? 0x1004;
     matched_trigger := None; debug := false; halt_request := HR_NONE;
     log_commits_enabled := true; addr_history := ∅; pc_histogram := ∅;
     sift_executed_insn := 0; arch := tt |}.

End Plain.

(** A vector unit of one 8-bit element per register for vssrl.vv: the
    architectural state holds element 0 of vs1, vs2 and vd; the rounding
    adds half of the last bit shifted out. *)
Definition vector_types : ExtTypes := {|
  mmu_t := unit;
  arch_t := Z * Z * Z;
  func_t := unit
|}.

Section ToyVector.
#[local] Existing Instance vector_types.

Definition toy_rounding (val : Z) (xrm : unit) (sh : Z) : Z :=
  val + Z.shiftr (Z.shiftl 1 sh) 1.

Definition toy_loop (f : Z -> Z -> Z -> Z) (i : insn_t) (p : processor_t) : cres unit :=
  COk tt (set_arch ((arch p).1.1, (arch p).1.2, f 8 (arch p).1.1 (arch p).1.2) p).

(** vs1 = 10 (a shift by 2 once masked to 8 bits), vs2 = 0xff. *)
Definition toy_vector_processor : processor_t :=
  {| state :=
       {| pc := 0x1000; prv := 3; v := false; minstret := 0; mcycle := 0;
          mhpmcounter := repeat 7 29; dcsr_halt := false; serialized := false;
          single_step := STEP_NONE; debug_mode := false;
          log_reg_write := ∅; log_mem_read := []; log_mem_write := [];
          log_addr_valid := 0; log_addr := []; log_reg_addr := [];
          log_is_branch := false; log_is_branch_taken := false;
          last_inst_priv := 3; last_inst_xlen := 64; last_inst_flen := 64 |};
     id := 0; xlen := 64; flen := 64;
     VU := {| VLEN := 128; vsew := 8; vflmul := 1; vl := 1; vtype := 0;
              vreg_chunk := fun _ _ => 0 |};
     mmu := tt; matched_trigger := None; debug := false; halt_request := HR_NONE;
     log_commits_enabled := false; addr_history := ∅; pc_histogram := ∅;
     sift_executed_insn := 0; arch := (10, 0xff, 0) |}.

End ToyVector.

(** Two instructions of the scripted machine seen by the tracker: a first
    one, at retired count 10, read 0x2000; the one being tracked, at
    count 25, reads 0x2000 twice and writes 0x3000. *)
Section Examples.
#[local] Existing Instance script_types.

Definition twice_read : processor_t :=
  with_access 25 [(0x2000, 7, 8); (0x2000, 7, 8)] [(0x3000, 1, 4)]
    (log_print_mem_access (with_access 10 [(0x2000, 7, 8)] [] (processor0 (fun _ => DoNext)))
       0x1000 {| bits := 0x00053503 |}).1.

(** The trapping program run with commit logging disabled. *)
Definition quiet_log_processor : processor_t :=
  {| state := state0; id := 0; xlen := 64; flen := 64; VU := vu0; mmu := trapping_program;
     matched_trigger := None; debug := false; halt_request := HR_NONE;
     log_commits_enabled := false; addr_history := ∅; pc_histogram := ∅;
     sift_executed_insn := 0; arch := tt |}.

End Examples.

(** A machine whose fetch ignores the lowest bit of the pc, so that the
    cache and [load_insn] agree at every pc.  Cache entry [e] stands for
    the pc [2 * e]. *)
Section Aligned.
#[local] Existing Instance plain_types.

Definition aligned_machine : Collaborators := {|
  icache_entry := Z;
  call_func := plain_call;
  take_pending_interrupt := fun p => COk tt p;
  load_insn := fun p pc => COk (plain_fetch (mmu p) (2 * (pc / 2))) p;
  access_icache := fun p pc => COk (pc / 2) p;
  ic_data := fun m e => plain_fetch m (2 * e);
  ic_next := fun _ e => e + 2;
  ic_tag := fun _ e => 2 * e;
  take_trap := fun t pc p => upd_state (set_pc 0x100) p;
  enter_debug_mode := plain_debug_entry;
  trap_breakpoint := fun v a => {| trap_is_mem := true; trap_cause := 3; trap_tval := a |}
|}.

End Aligned.

(** A machine whose every instruction matches a trigger in the MMU the
    first time it runs and, started again with the match recorded,
    completes and asks for serialization after it. *)
Definition trigger_types : ExtTypes := {|
  mmu_t := unit;
  arch_t := unit;
  func_t := unit
|}.

Section Triggered.
#[local] Existing Instance trigger_types.

Definition watchpoint : matched_t := {| m_action := ACTION_DEBUG_MODE; m_address := 0x2000 |}.

Definition trigger_call (f : unit) (i : insn_t) (pc : Z) (p : processor_t) : cres Z :=
  match matched_trigger p with
  | None => CRaise (E_matched watchpoint) (set_matched_trigger (Some watchpoint) p)
  | Some _ => COk 5 p
  end.

Definition trigger_machine : Collaborators := {|
  icache_entry := unit;
  call_func := trigger_call;
  take_pending_interrupt := fun p => COk tt p;
  load_insn := fun p pc => COk {| func := tt; insn := {| bits := 0x00000013 |} |} p;
  access_icache := fun p pc => COk tt p;
  ic_data := fun _ _ => {| func := tt; insn := {| bits := 0x00000013 |} |};
  ic_next := fun _ e => e;
  ic_tag := fun _ _ => 0;
  take_trap := fun t pc p => upd_state (set_pc 0x100) p;
  enter_debug_mode := fun c p => upd_state (set_debug_mode true) p;
  trap_breakpoint := fun v a => {| trap_is_mem := false; trap_cause := 3; trap_tval := a |}
|}.

Definition trigger_processor : processor_t :=
  {| state := state0; id := 0; xlen := 64; flen := 64; VU := vu0; mmu := tt;
     matched_trigger := None; debug := false; halt_request := HR_NONE;
     log_commits_enabled := false; addr_history := ∅; pc_histogram := ∅;
     sift_executed_insn := 0; arch := tt |}.

End Triggered.

(** A machine for single stepping.  The MMU maps a pc to what the
    instruction there does, or to nothing where the fetch faults; the
    handlers follow the serialization protocol; the debug subsystem
    records the cause of each entry into debug mode. *)
Definition stepper_types : ExtTypes := {|
  mmu_t := Z -> option script;
  arch_t := list dcsr_cause;
  func_t := script
|}.

Section Stepper.
#[local] Existing Instance stepper_types.

Definition fetch_fault : trap_t := {| trap_is_mem := false; trap_cause := 12; trap_tval := 0 |}.

Definition stepper_call (f : script) (i : insn_t) (pc : Z) (p : processor_t) : cres Z :=
  match f with
  | DoNext => COk (pc + 4) (upd_state (set_serialized false) p)
  | DoSerialize =>
      if serialized (state p) then COk (pc + 4) (upd_state (set_serialized false) p)
      else COk 3 p
  | DoThrow e => CRaise e p
  | DoVectorFault t =>
      CRaise (E_trap t) (upd_state (set_log_reg_write (<[3 := (0, 0)]> ∅)) p)
  end.

Definition stepper_load (p : processor_t) (pc : Z) : cres insn_fetch_t :=
  match mmu p pc with
  | Some f => COk {| func := f; insn := {| bits := 0x00000013 |} |} p
  | None => CRaise (E_trap fetch_fault) p
  end.

Definition stepper_debug_entry (c : dcsr_cause) (p : processor_t) : processor_t :=
  set_arch (arch p ++ [c]) (upd_state (fun s => set_debug_mode true (set_pc 0x800 s)) p).

Definition stepper_machine : Collaborators := {|
  icache_entry := Z;
  call_func := stepper_call;
  take_pending_interrupt := fun p => COk tt p;
  load_insn := stepper_load;
  access_icache := fun p pc =>
    match mmu p pc with
    | Some _ => COk (pc / 4) p
    | None => CRaise (E_trap fetch_fault) p
    end;
  ic_data := fun m e =>
    {| func := default DoNext (m (4 * e)); insn := {| bits := 0x00000013 |} |};
  ic_next := fun _ e => e + 1;
  ic_tag := fun _ e => 4 * e;
  take_trap := fun t pc p => upd_state (set_pc 0x100) p;
  enter_debug_mode := stepper_debug_entry;
  trap_breakpoint := fun v a => {| trap_is_mem := false; trap_cause := 3; trap_tval := a |}
|}.






End Stepper.

(** * Properties *)

(** ** Bit fields of the held instruction word *)

Lemma testbit_31 (j : Z) : 0 <= j -> Z.testbit 31 j = (j <? 5).
Proof.
  intros Hj. change 31 with (Z.ones 5).
  destruct (Z.ltb_spec j 5).
  - apply Z.ones_spec_low. lia.
  - apply Z.ones_spec_high. lia.
Qed.

Lemma testbit_u32 (x i : Z) : i < 32 -> Z.testbit (u32 x) i = Z.testbit x i.
Proof. intros Hi. unfold u32. apply Z.mod_pow2_bits_low. lia. Qed.

Lemma testbit_field (pos w j : Z) :
  0 <= pos -> 0 <= j ->
  Z.testbit (field pos w) j = Z.testbit w (pos + j) && (j <? 5).
Proof.
  intros Hp Hj. unfold field.
  rewrite Z.land_spec, Z.shiftr_spec, testbit_31 by lia.
  f_equal. f_equal. lia.
Qed.

(** Bits below the field are kept by an increment. *)
Lemma inc_field_below (pos w i : Z) :
  0 <= i < pos -> pos <= 32 ->
  Z.testbit (inc_field pos w) i = Z.testbit w i.
Proof.
  intros Hi Hp. unfold inc_field.
  rewrite testbit_u32, Z.lor_spec, Z.land_spec, testbit_u32 by lia.
  rewrite Z.lnot_spec by lia.
  rewrite !Z.shiftl_spec_low by lia.
  simpl. rewrite andb_true_r, orb_false_r. reflexivity.
Qed.

(** The five bits of the field hold the low five bits of the sum. *)
Lemma inc_field_inside (pos w j : Z) :
  0 <= pos -> 0 <= j < 5 -> pos + j < 32 ->
  Z.testbit (inc_field pos w) (pos + j) = Z.testbit (field pos w + 1) j.
Proof.
  intros Hp Hj Hlt. unfold inc_field.
  rewrite testbit_u32, Z.lor_spec, Z.land_spec, testbit_u32 by lia.
  rewrite Z.lnot_spec by lia.
  rewrite !Z.shiftl_spec by lia.
  replace (pos + j - pos) with j by lia.
  rewrite testbit_31 by lia.
  replace (j <? 5) with true by (symmetry; apply Z.ltb_lt; lia).
  simpl. rewrite andb_false_r. reflexivity.
Qed.

Lemma field_inc_field (pos w : Z) :
  0 <= pos -> pos + 5 <= 32 ->
  field pos (inc_field pos w) = (field pos w + 1) mod 32.
Proof.
  intros Hp Hlt. apply Z.bits_inj'. intros j Hj.
  rewrite testbit_field by lia.
  change 32 with (2 ^ 5).
  destruct (Z.ltb_spec j 5).
  - rewrite Z.mod_pow2_bits_low by lia.
    rewrite inc_field_inside by lia. apply andb_true_r.
  - rewrite Z.mod_pow2_bits_high by lia. apply andb_false_r.
Qed.

Lemma field_inc_field_above (pos pos' w : Z) :
  0 <= pos' -> pos' + 5 <= pos -> pos <= 32 ->
  field pos' (inc_field pos w) = field pos' w.
Proof.
  intros Hp Hlt Hle. apply Z.bits_inj'. intros j Hj.
  rewrite !testbit_field by lia.
  destruct (Z.ltb_spec j 5).
  - rewrite inc_field_below by lia. reflexivity.
  - rewrite !andb_false_r. reflexivity.
Qed.

Lemma field_vd_advance `{Encoding} (n w : Z) :
  field 7 (advance_raw_word n w) = (field 7 w + 1) mod 32.
Proof.
  unfold advance_raw_word.
  repeat match goal with
  | |- context [if ?c then _ else _] => destruct c
  end; unfold inc_vs2, inc_vs1, inc_vd;
  rewrite ?(field_inc_field_above 20 7), ?(field_inc_field_above 15 7) by lia;
  apply field_inc_field; lia.
Qed.

(** ** The destination list of the raw-op reconstructor *)

Lemma elem_of_foldl_push_unique (l acc : list Z) (x : Z) :
  x ∈ foldl push_unique acc l ↔ x ∈ acc ∨ x ∈ l.
Proof.
  revert acc. induction l as [|r l IH]; intros acc; simpl.
  - rewrite elem_of_nil. tauto.
  - rewrite IH. unfold push_unique. rewrite elem_of_cons.
    case_bool_decide as Hr.
    + split; [tauto|]. intros [?|[->|?]]; tauto.
    + rewrite elem_of_app, list_elem_of_singleton. tauto.
Qed.

Lemma NoDup_foldl_push_unique (l acc : list Z) :
  NoDup acc → NoDup (foldl push_unique acc l).
Proof.
  revert acc. induction l as [|r l IH]; intros acc Hacc; simpl; [done|].
  apply IH. unfold push_unique. case_bool_decide as Hr; [done|].
  apply NoDup_app. split_and!; [done| |apply NoDup_singleton].
  intros x Hx ->%list_elem_of_singleton. done.
Qed.

Lemma key_of_index_kind (k1 k2 : Z) :
  Z.shiftr k1 4 = Z.shiftr k2 4 → Z.land k1 0xf = Z.land k2 0xf → k1 = k2.
Proof.
  rewrite !Z.shiftr_div_pow2 by lia.
  change 0xf with (Z.ones 4). rewrite !Z.land_ones by lia.
  change (2 ^ 4) with 16. intros Hd Hm.
  rewrite (Z.div_mod k1 16), (Z.div_mod k2 16) by lia. congruence.
Qed.

(** The walk of the register-write log: its entries, each once. *)
Lemma elem_of_reg_walk `{Encoding} (m : gmap Z freg_t) (k : Z) (val : freg_t) :
  (k, val) ∈ reg_walk m ↔ m !! k = Some val.
Proof. rewrite reg_walk_entries. apply elem_of_map_to_list. Qed.

Lemma NoDup_reg_walk `{Encoding} (m : gmap Z freg_t) : NoDup (reg_walk m).
Proof. rewrite reg_walk_entries. apply NoDup_map_to_list. Qed.

Lemma existsb_Permutation {A} (f : A → bool) (l l' : list A) :
  l ≡ₚ l' → existsb f l = existsb f l'.
Proof.
  induction 1 as [|x l l' _ IH|x y l|l l' l'' _ IH1 _ IH2]; simpl.
  - reflexivity.
  - by rewrite IH.
  - by rewrite !orb_assoc, (orb_comm (f y)).
  - by rewrite IH1.
Qed.

Lemma existsb_reg_walk `{Encoding} (f : Z * freg_t → bool) (m : gmap Z freg_t) :
  existsb f (reg_walk m) = existsb f (map_to_list m).
Proof. apply existsb_Permutation, reg_walk_entries. Qed.

Lemma NoDup_logged_vregs `{Encoding} (s : state_t) : NoDup (logged_vregs s).
Proof.
  unfold logged_vregs. apply NoDup_fmap_2_strong.
  - intros [k1 v1] [k2 v2] [H1 I1]%list_elem_of_filter [H2 I2]%list_elem_of_filter Heq.
    simpl in *. assert (k1 = k2) as <- by (apply key_of_index_kind; congruence).
    apply elem_of_reg_walk in I1, I2. congruence.
  - apply NoDup_filter, NoDup_reg_walk.
Qed.

Lemma sorted_three (l : list Z) (r1 r2 r3 : Z) :
  r1 < r2 → r2 < r3 → NoDup l →
  (∀ x, x ∈ l ↔ x ∈ [r1; r2; r3]) →
  merge_sort Z.le l = [r1; r2; r3].
Proof.
  intros H12 H23 Hnd Hel.
  apply (Sorted_unique_strong Z.le).
  - intros x y _ _ ? ?. lia.
  - apply Sorted_merge_sort. intros x y. lia.
  - repeat constructor; lia.
  - rewrite merge_sort_Permutation. apply NoDup_Permutation; [done| |done].
    rewrite !NoDup_cons, !not_elem_of_cons.
    split_and!; try lia; try apply not_elem_of_nil. apply NoDup_nil_2.
Qed.

Section RawOpFacts.
Context `{Encoding} `{ExtTypes}.

Lemma elem_of_array_prefix (n : Z) (a : list Z) (x : Z) :
  x ∈ array_prefix n a ↔ ∃ i, (i < Z.to_nat n)%nat ∧ x = array_get a i.
Proof.
  unfold array_prefix. rewrite list_elem_of_fmap.
  split; intros (i & Hi & Hx).
  - exists i. apply elem_of_seq in Hx. split; [lia|done].
  - exists i. split; [done|]. apply elem_of_seq. lia.
Qed.

Lemma uop_addresses_nonempty (s : state_t) (r : Z) :
  uop_addresses s r ≠ [] →
  ∃ i, (i < Z.to_nat (log_addr_valid s))%nat ∧ r = array_get (log_reg_addr s) i.
Proof.
  unfold uop_addresses. intros Hne.
  destruct (filter _ _) as [|i l] eqn:Hf; [done|].
  assert (i ∈ filter (λ i, r = array_get (log_reg_addr s) i)
                     (seq 0 (Z.to_nat (log_addr_valid s)))) as Hi
    by (rewrite Hf; left).
  apply list_elem_of_filter in Hi as [Hr Hi]. apply elem_of_seq in Hi.
  exists i. split; [lia|done].
Qed.

Lemma vreg_array_three (s : state_t) (r1 r2 r3 : Z) :
  r1 < r2 → r2 < r3 →
  (∀ i, (i < Z.to_nat (log_addr_valid s))%nat →
        array_get (log_reg_addr s) i ∈ [r1; r2; r3]) →
  (∀ r, r ∈ [r1; r2; r3] → length (uop_addresses s r) = 4%nat) →
  (∀ r, r ∈ logged_vregs s → r ∈ [r1; r2; r3]) →
  vreg_array s = [r1; r2; r3].
Proof.
  intros H12 H23 Hwr Hfour Hlog. unfold vreg_array.
  apply sorted_three; [done|done| |].
  - apply NoDup_foldl_push_unique, NoDup_logged_vregs.
  - intros x. rewrite elem_of_foldl_push_unique, elem_of_array_prefix. split.
    + intros [Hx|(i & Hi & ->)]; [by apply Hlog|by apply Hwr].
    + intros Hx. right. apply uop_addresses_nonempty.
      specialize (Hfour x Hx). intros Hnil. rewrite Hnil in Hfour. done.
Qed.

Lemma sift_uops_snoc (p : processor_t) (pc : Z) (insn : insn_t) (l : list Z) (r w : Z) :
  (sift_uops p pc insn (l ++ [r]) w).2
  = advance_raw_word (log_addr_valid (state p)) (sift_uops p pc insn l w).2.
Proof. revert w. induction l as [|x l IH]; intros w; simpl; [done|apply IH]. Qed.

(** C6.  For an instruction whose logged destinations are exactly three
    vector registers [r1 < r2 < r3], each with four logged addresses, and
    whose vector-kind register writes name only these, the reconstructor
    writes exactly three records, for [r1], [r2] and [r3] in this order,
    each with the four addresses of its destination in log order; after
    each record the vd field of the held word is the field before it plus
    one modulo 32. *)
Theorem segmented_load_records (p : processor_t) (pc : Z) (insn : insn_t) (r1 r2 r3 : Z) :
  r1 < r2 → r2 < r3 →
  (∀ i, (i < Z.to_nat (log_addr_valid (state p)))%nat →
        array_get (log_reg_addr (state p)) i ∈ [r1; r2; r3]) →
  (∀ r, r ∈ [r1; r2; r3] → length (uop_addresses (state p) r) = 4%nat) →
  (∀ r, r ∈ logged_vregs (state p) → r ∈ [r1; r2; r3]) →
  (log_print_sift_trace p pc insn).2
  = [instruction_record p pc insn (uop_addresses (state p) r1);
     instruction_record p pc insn (uop_addresses (state p) r2);
     instruction_record p pc insn (uop_addresses (state p) r3)]
  ∧ (∀ k, (k < 3)%nat →
       field 7 (held_word_after (S k) p pc insn)
       = (field 7 (held_word_after k p pc insn) + 1) mod 32)
  ∧ held_word_after 0 p pc insn = sift_executed_insn p
  ∧ sift_executed_insn (log_print_sift_trace p pc insn).1 = held_word_after 3 p pc insn.
Proof.
  intros H12 H23 Hwr Hfour Hlog.
  pose proof (vreg_array_three (state p) r1 r2 r3 H12 H23 Hwr Hfour Hlog) as Hv.
  unfold log_print_sift_trace, held_word_after. rewrite Hv.
  split_and!; [done| |done|done].
  intros k Hk.
  destruct k as [|[|[|k]]]; [| | |lia]; simpl; apply field_vd_advance.
Qed.

End RawOpFacts.

(** ** The access-period tracker *)

Section TrackerFacts.
Context `{ExtTypes}.

Lemma is_vector_insn_spec (b : Z) :
  is_vector_insn b = true
  ↔ Z.land b 0x7f = 0x57 ∨ Z.land b 0x7f = 0x07 ∨ Z.land b 0x7f = 0x27.
Proof.
  unfold is_vector_insn, VEC_ARITH_MATCH, VEC_LOAD_MATCH, VEC_STORE_MATCH.
  rewrite !orb_true_iff, !Z.eqb_eq. tauto.
Qed.

Lemma track_store_no_flag (minstret : Z) (h : gmap Z period_info_t) (item : mem_access) :
  no_vector_flag h → no_vector_flag (track_store minstret false h item).
Proof.
  intros Hh a e. unfold track_store.
  destruct (h !! item.1.1) as [e0|] eqn:He0;
    (destruct (decide (item.1.1 = a)) as [->|Hne];
     [rewrite lookup_insert_eq|rewrite lookup_insert_ne by done; apply Hh]).
  - intros [= <-]. apply (Hh _ _ He0).
  - intros [= <-]. reflexivity.
Qed.

Lemma track_load_no_flag (minstret : Z) (acc : gmap Z period_info_t * list event)
    (item : mem_access) :
  no_vector_flag acc.1 → no_vector_flag (track_load minstret false acc item).1.
Proof.
  intros Hh a e. unfold track_load.
  destruct (acc.1 !! item.1.1) as [e0|] eqn:He0; simpl;
    (destruct (decide (item.1.1 = a)) as [->|Hne];
     [rewrite lookup_insert_eq|rewrite lookup_insert_ne by done; apply Hh]).
  - intros [= <-]. specialize (Hh _ _ He0). unfold vector_flagged in *. simpl.
    apply orb_false_iff in Hh as [Hs Hl]. rewrite Hs, existsb_app, Hl. reflexivity.
  - intros [= <-]. reflexivity.
Qed.

Lemma log_print_mem_access_no_flag (p : processor_t) (pc : Z) (i : insn_t) :
  is_vector_insn (bits i) = false →
  no_vector_flag (addr_history p) →
  no_vector_flag (addr_history (log_print_mem_access p pc i).1).
Proof.
  intros Hi Hp. unfold log_print_mem_access. rewrite Hi. simpl.
  generalize (log_mem_read (state p)) as loads.
  assert (no_vector_flag
            (foldl (track_store (minstret (state p)) false) (addr_history p)
                   (log_mem_write (state p)))) as Hs.
  { revert Hp. generalize (addr_history p).
    induction (log_mem_write (state p)) as [|x l IH]; intros h Hh; simpl; [done|].
    apply IH, track_store_no_flag, Hh. }
  revert Hs.
  generalize (foldl (track_store (minstret (state p)) false) (addr_history p)
                    (log_mem_write (state p))) as h.
  intros h Hh loads.
  change h with (h, @nil event).1 in Hh. revert Hh.
  generalize (h, @nil event) as acc.
  induction loads as [|x l IH]; intros acc Hacc; simpl; [done|].
  apply IH, track_load_no_flag, Hacc.
Qed.

(** C8.  The tracker classifies an instruction as vector-sourced exactly
    when the low seven bits of its encoding are 0x57, 0x07 or 0x27; over a
    stream in which no instruction has one of these opcodes, a table
    without vector flag stays without vector flag. *)
Theorem scalar_opcodes_keep_flags_clear :
  (∀ b, is_vector_insn b = true
        ↔ Z.land b 0x7f = 0x57 ∨ Z.land b 0x7f = 0x07 ∨ Z.land b 0x7f = 0x27)
  ∧ (∀ (stream : list (Z * insn_t * state_t)) (p : processor_t),
       no_vector_flag (addr_history p) →
       Forall (λ x, is_vector_insn (bits x.1.2) = false) stream →
       no_vector_flag (addr_history (track_stream stream p))).
Proof.
  split; [apply is_vector_insn_spec|].
  induction stream as [|x rest IH]; intros p Hp Hall; cbn [track_stream]; [done|].
  apply Forall_cons in Hall as [Hx Hrest].
  apply IH; [|done]. apply log_print_mem_access_no_flag; done.
Qed.

End TrackerFacts.

(** ** Output of the commit log *)

Section EventFacts.
Context `{Encoding} `{Collaborators}.

Lemma retired_in_app (a b : list event) :
  retired_in (a ++ b) = (retired_in a + retired_in b)%nat.
Proof. unfold retired_in. rewrite filter_app, length_app. reflexivity. Qed.

Lemma retired_in_silent (out : list event) : silent out → retired_in out = 0%nat.
Proof.
  unfold retired_in. induction 1 as [|e l He _ IH]; [done|].
  rewrite filter_cons. destruct (decide (carried_out e)) as [Hd|Hd]; [|done].
  rewrite He in Hd. done.
Qed.

Lemma silent_app (a b : list event) : silent a → silent b → silent (a ++ b).
Proof. apply Forall_app_2. Qed.

Lemma print_value_silent (width : Z) (data : nat → Z) (l : list event) :
  commit_log_print_value width data = Some l → silent l.
Proof.
  unfold commit_log_print_value.
  repeat case_match; intros [= <-]; try (repeat constructor; done).
  constructor; [done|]. apply Forall_fmap, Forall_true. done.
Qed.

Lemma print_value_some (width : Z) (data : nat → Z) :
  printable_width width = true → is_Some (commit_log_print_value width data).
Proof.
  unfold printable_width, commit_log_print_value. intros Hw.
  repeat case_match; try (eexists; reflexivity).
  simpl in Hw. discriminate.
Qed.

End EventFacts.

Ltac silent_tac :=
  repeat first
    [ assumption
    | apply Forall_nil_2
    | apply silent_app
    | apply Forall_cons_2; [reflexivity|]
    | (eapply print_value_silent; eassumption)
    | match goal with |- silent (if ?c then _ else _) => destruct c end
    | progress unfold silent ].

Section CommitLogFacts.
Context `{Encoding} `{Collaborators}.

Lemma print_reg_silent (p : processor_t) (xl fl : Z) (acc : option (bool * list event))
    (item : Z * freg_t) (b : bool) (out : list event) :
  (∀ b0 out0, acc = Some (b0, out0) → silent out0) →
  commit_log_print_reg p xl fl acc item = Some (b, out) → silent out.
Proof.
  intros Hacc. unfold commit_log_print_reg.
  destruct acc as [[sv o]|]; [|done].
  specialize (Hacc _ _ eq_refl).
  repeat case_match; intros [= <- <-]; subst; silent_tac.
Qed.

Lemma print_regs_silent (p : processor_t) (xl fl : Z) (l : list (Z * freg_t))
    (acc : option (bool * list event)) (b : bool) (out : list event) :
  (∀ b0 out0, acc = Some (b0, out0) → silent out0) →
  foldl (commit_log_print_reg p xl fl) acc l = Some (b, out) → silent out.
Proof.
  revert acc. induction l as [|x l IH]; intros acc Hacc; simpl.
  - intros ->. eapply Hacc. reflexivity.
  - apply IH. intros b0 out0. apply print_reg_silent. exact Hacc.
Qed.

Lemma print_load_silent (xl : Z) (acc : option (list event)) (item : mem_access)
    (out : list event) :
  (∀ out0, acc = Some out0 → silent out0) →
  commit_log_print_load xl acc item = Some out → silent out.
Proof.
  intros Hacc. unfold commit_log_print_load, commit_log_print_word.
  destruct acc as [o|]; [|done]. specialize (Hacc _ eq_refl).
  case_match; intros [= <-].
  silent_tac.
Qed.

Lemma print_store_silent (xl : Z) (acc : option (list event)) (item : mem_access)
    (out : list event) :
  (∀ out0, acc = Some out0 → silent out0) →
  commit_log_print_store xl acc item = Some out → silent out.
Proof.
  intros Hacc. unfold commit_log_print_store, commit_log_print_word.
  destruct acc as [o|]; [|done]. specialize (Hacc _ eq_refl).
  repeat case_match; intros [= <-].
  silent_tac.
Qed.

Lemma foldl_option_silent {A} (f : option (list event) → A → option (list event))
    (l : list A) (acc : option (list event)) (out : list event) :
  (∀ acc0 x out0,
     (∀ o, acc0 = Some o → silent o) → f acc0 x = Some out0 → silent out0) →
  (∀ o, acc = Some o → silent o) →
  foldl f acc l = Some out → silent out.
Proof.
  intros Hf. revert acc. induction l as [|x l IH]; intros acc Hacc; simpl.
  - intros ->. eapply Hacc. reflexivity.
  - apply IH. intros o. apply Hf. exact Hacc.
Qed.

Lemma commit_log_print_insn_silent (p : processor_t) (pc : Z) (i : insn_t)
    (line : list event) :
  commit_log_print_insn p pc i = Some line → silent line.
Proof.
  unfold commit_log_print_insn, commit_log_print_word.
  destruct (commit_log_print_value (last_inst_xlen (state p)) _) as [opc|] eqn:Hpc; [|done].
  destruct (commit_log_print_value (insn_length (bits i) * 8) _) as [oi|] eqn:Hi; [|done].
  destruct (foldl (commit_log_print_reg _ _ _) _ _) as [[b out]|] eqn:Hregs; [|done].
  destruct (foldl (commit_log_print_store _) _ _) as [out'|] eqn:Hst; [|done].
  intros [= <-].
  apply silent_app; [|silent_tac].
  eapply foldl_option_silent; [ |  |exact Hst].
  { intros ? ? ?. apply print_store_silent. }
  intros o Ho. eapply foldl_option_silent; [ | |exact Ho].
  { intros ? ? ?. apply print_load_silent. }
  intros o' [= <-].
  eapply print_regs_silent; [|exact Hregs].
  intros b0 out0 [= <- <-].
  silent_tac.
Qed.

Lemma commit_log_print_insn_nonempty (p : processor_t) (pc : Z) (i : insn_t)
    (line : list event) :
  commit_log_print_insn p pc i = Some line → line ≠ [].
Proof.
  unfold commit_log_print_insn. repeat case_match; try done.
  intros [= <-]. intros Heq. apply app_eq_nil in Heq as [_ Heq]. discriminate.
Qed.

End CommitLogFacts.

(** ** The commit log prints well-formed logs; the hooks are silent *)

Section HookFacts.
Context `{Encoding} `{Collaborators}.

Lemma print_reg_some (p : processor_t) (xl fl : Z) (acc : option (bool * list event))
    (item : Z * freg_t) :
  printable_width xl = true → printable_width fl = true →
  printable_width (VLEN (VU p)) = true →
  0 <= Z.land item.1 0xf <= 4 →
  is_Some acc → is_Some (commit_log_print_reg p xl fl acc item).
Proof.
  intros Hx Hf Hv Hk [[sv o] ->]. unfold commit_log_print_reg.
  destruct (item.1 =? 0); [eexists; reflexivity|].
  destruct (Z.land item.1 0xf) as [|k|k]; [| |lia].
  - destruct (print_value_some xl (freg_words item.2) Hx) as [l Hl].
    simpl. rewrite Hl. eexists; reflexivity.
  - assert (k = 1 ∨ k = 2 ∨ k = 3 ∨ k = 4)%positive as Hcases by lia.
    destruct Hcases as [-> | [-> | [-> | ->]]]; simpl.
    + destruct (print_value_some fl (freg_words item.2) Hf) as [l ->].
      eexists; reflexivity.
    + destruct (print_value_some (VLEN (VU p)) (vreg_chunk (VU p) (Z.shiftr item.1 4)) Hv)
        as [l ->].
      eexists; reflexivity.
    + eexists; reflexivity.
    + destruct (print_value_some xl (freg_words item.2) Hx) as [l ->].
      eexists; reflexivity.
Qed.

Lemma commit_log_print_insn_some (p : processor_t) (pc : Z) (i : insn_t) :
  printable_width (last_inst_xlen (state p)) = true →
  printable_width (last_inst_flen (state p)) = true →
  printable_width (VLEN (VU p)) = true →
  printable_width (insn_length (bits i) * 8) = true →
  well_tagged (state p) → printable_stores (state p) →
  is_Some (commit_log_print_insn p pc i).
Proof.
  intros Hx Hf Hv Hi Htag Hst. unfold commit_log_print_insn, commit_log_print_word.
  destruct (print_value_some (last_inst_xlen (state p))
              (λ i, match i with O => pc | _ => 0 end) Hx) as [opc ->].
  destruct (print_value_some (insn_length (bits i) * 8)
              (λ j, match j with O => bits i | _ => 0 end) Hi) as [oi ->].
  match goal with
  | |- context [foldl (commit_log_print_reg ?a ?b ?c) ?acc ?l] =>
      assert (is_Some (foldl (commit_log_print_reg a b c) acc l)) as [[b0 out] ->]
  end.
  { assert (∀ item, item ∈ reg_walk (log_reg_write (state p)) →
                    0 <= Z.land item.1 0xf <= 4) as Hall.
    { intros [k val] Hin%elem_of_reg_walk. eapply Htag. exact Hin. }
    revert Hall. generalize (reg_walk (log_reg_write (state p))). intros l.
    match goal with |- _ → is_Some (foldl _ ?acc _) =>
      assert (is_Some acc) as Hacc by (eexists; reflexivity); revert Hacc; generalize acc
    end.
    induction l as [|x l IH]; intros acc Hacc Hall; simpl; [done|].
    apply IH.
    - apply print_reg_some; try done. apply Hall. left.
    - intros item Hitem. apply Hall. right. done. }
  match goal with
  | |- context [foldl (commit_log_print_load ?a) ?acc ?l] =>
      assert (is_Some (foldl (commit_log_print_load a) acc l)) as [out1 ->]
  end.
  { generalize (log_mem_read (state p)). intros l.
    match goal with |- is_Some (foldl _ ?acc _) =>
      assert (is_Some acc) as Hacc by (eexists; reflexivity); revert Hacc; generalize acc
    end.
    induction l as [|x l IH]; intros acc Hacc; simpl; [done|].
    apply IH. destruct Hacc as [o ->]. unfold commit_log_print_load, commit_log_print_word.
    destruct (print_value_some (last_inst_xlen (state p))
                (λ i, match i with O => x.1.1 | _ => 0 end) Hx) as [a ->].
    eexists; reflexivity. }
  match goal with
  | |- context [foldl (commit_log_print_store ?a) ?acc ?l] =>
      assert (is_Some (foldl (commit_log_print_store a) acc l)) as [out2 ->]
  end.
  { revert Hst. unfold printable_stores. generalize (log_mem_write (state p)). intros l.
    match goal with |- _ → is_Some (foldl _ ?acc _) =>
      assert (is_Some acc) as Hacc by (eexists; reflexivity); revert Hacc; generalize acc
    end.
    induction l as [|x l IH]; intros acc Hacc Hall; simpl; [done|].
    apply Forall_cons in Hall as [Hx0 Hall].
    apply IH; [|done]. destruct Hacc as [o ->].
    unfold commit_log_print_store, commit_log_print_word.
    destruct (print_value_some (last_inst_xlen (state p))
                (λ i, match i with O => x.1.1 | _ => 0 end) Hx) as [a ->].
    destruct (print_value_some (Z.shiftl x.2 3)
                (λ i, match i with O => x.1.2 | _ => 0 end) Hx0) as [d ->].
    eexists; reflexivity. }
  eexists; reflexivity.
Qed.

(** *** The trace hooks write no handler event and keep what the loop
    reads *)

Lemma track_load_silent (m : Z) (isv : bool) (acc : gmap Z period_info_t * list event)
    (item : mem_access) :
  silent acc.2 → silent (track_load m isv acc item).2.
Proof.
  intros Hacc. unfold track_load.
  destruct (acc.1 !! item.1.1); simpl; [|done].
  destruct (item.1.1 =? 0x0041ad20); [|done]. silent_tac.
Qed.

Lemma log_print_mem_access_silent (p : processor_t) (pc : Z) (i : insn_t) :
  silent (log_print_mem_access p pc i).2.
Proof.
  unfold log_print_mem_access. simpl.
  match goal with |- silent (foldl _ ?acc ?l).2 =>
    assert (silent acc.2) as Hacc by apply Forall_nil_2; revert Hacc;
    generalize acc; generalize l
  end.
  induction l as [|x l IH]; intros acc Hacc; simpl; [done|].
  apply IH, track_load_silent, Hacc.
Qed.

Lemma sift_uops_silent (p : processor_t) (pc : Z) (i : insn_t) (l : list Z) (w : Z) :
  silent (sift_uops p pc i l w).1.
Proof.
  revert w. induction l as [|x l IH]; intros w; simpl; [apply Forall_nil_2|].
  apply Forall_cons_2; [reflexivity|apply IH].
Qed.

Lemma log_print_sift_trace_silent (p : processor_t) (pc : Z) (i : insn_t) :
  silent (log_print_sift_trace p pc i).2.
Proof.
  unfold log_print_sift_trace. simpl.
  destruct (vreg_array (state p)); [|apply sift_uops_silent].
  unfold sift_scalar. simpl. silent_tac.
Qed.

Lemma log_print_sift_trace_record (p : processor_t) (pc : Z) (i : insn_t) :
  ∃ rec rest, (log_print_sift_trace p pc i).2 = EvInstruction rec :: rest.
Proof.
  unfold log_print_sift_trace. simpl.
  destruct (vreg_array (state p)); simpl; eexists _, _; reflexivity.
Qed.

End HookFacts.

(** ** [execute_insn] *)

Section ExecuteFacts.
Context `{Encoding} `{Collaborators}.

Lemma view_reset (p : processor_t) :
  loop_view (commit_log_stash_privilege (commit_log_reset p)) = loop_view p.
Proof. reflexivity. Qed.

Lemma view_record (b : Z) (p : processor_t) :
  loop_view (record_executed_insn b p) = loop_view p.
Proof. reflexivity. Qed.

Lemma view_tracker (p : processor_t) (pc : Z) (i : insn_t) :
  loop_view (log_print_mem_access p pc i).1 = loop_view p.
Proof. reflexivity. Qed.

Lemma view_sift (p : processor_t) (pc : Z) (i : insn_t) :
  loop_view (log_print_sift_trace p pc i).1 = loop_view p.
Proof. reflexivity. Qed.

Lemma view_histogram (pc : Z) (p : processor_t) :
  loop_view (update_histogram pc p) = loop_view p.
Proof. unfold update_histogram. destruct RISCV_ENABLE_HISTOGRAM; reflexivity. Qed.

Lemma view_counters (p q : processor_t) : loop_view q = loop_view p → same_counters p q.
Proof. intros [= ? ? ? ? ? ? ? ? ? ? ? ?]. split; done. Qed.

Lemma view_control (p q : processor_t) : loop_view q = loop_view p → same_control p q.
Proof. intros [= ? ? ? ? ? ? ? ? ? ? ? ?]. split_and!; done. Qed.

Lemma view_config (p q : processor_t) :
  loop_view q = loop_view p → printable_config p → printable_config q.
Proof.
  intros [= ? ? ? ? ? ? Hx Hf Hv ? ? ?]. unfold printable_config.
  rewrite Hx, Hf, Hv. done.
Qed.

Lemma print_and_trace_spec {A} (o : outcome A) (p : processor_t) (pc : Z) (i : insn_t)
    (before : list event) :
  let r := print_and_trace o p pc i before in
  loop_view (r_proc r) = loop_view p
  ∧ (r_outcome r = o ∨ r_outcome r = Abort)
  ∧ (silent before → silent (r_events r))
  ∧ (∀ line, commit_log_print_insn p pc i = Some line →
       r = mk_run o (log_print_sift_trace p pc i).1
                  (before ++ line ++ (log_print_sift_trace p pc i).2)).
Proof.
  unfold print_and_trace.
  destruct (commit_log_print_insn p pc i) as [line|] eqn:Hline; simpl.
  - split_and!; [apply view_sift|by left| |intros ? [= <-]; done].
    intros Hb. repeat apply silent_app; [done| |apply log_print_sift_trace_silent].
    eapply commit_log_print_insn_silent. exact Hline.
  - split_and!; [done|by right|done|done].
Qed.

Lemma retired_in_handler (pc b npc : Z) :
  retired_in [EvHandler pc b (Some npc)]
  = if npc =? PC_SERIALIZE_BEFORE then 0%nat else 1%nat.
Proof.
  unfold retired_in. rewrite filter_cons. cbn [carried_out].
  destruct (npc =? PC_SERIALIZE_BEFORE); reflexivity.
Qed.

(** [execute_insn] when the handler returns. *)
Lemma execute_insn_returns (p : processor_t) (pc npc : Z) (fetch : insn_fetch_t)
    (q : processor_t) :
  call_func (func fetch) (insn fetch) pc (commit_log_stash_privilege (commit_log_reset p))
  = COk npc q →
  let r := execute_insn p pc fetch in
  loop_view (r_proc r) = loop_view q
  ∧ (r_outcome r = Ok npc ∨ r_outcome r = Abort)
  ∧ (r_outcome r = Ok npc →
     retired_in (r_events r) = if npc =? PC_SERIALIZE_BEFORE then 0%nat else 1%nat)
  ∧ ((log_commits_enabled q = true →
      is_Some (commit_log_print_insn (record_executed_insn (bits (insn fetch)) q)
                                     pc (insn fetch))) →
     r_outcome r = Ok npc).
Proof.
  intros Hcall. unfold execute_insn. rewrite Hcall.
  destruct (npc =? PC_SERIALIZE_BEFORE) eqn:Hsb; cbn [r_proc r_outcome r_events].
  { split_and!; [apply view_histogram|by left| |done].
    intros _. rewrite retired_in_handler, Hsb. reflexivity. }
  assert (∀ line,
    silent line →
    retired_in ([EvHandler pc (bits (insn fetch)) (Some npc)] ++ line) = 1%nat) as Hcount.
  { intros line Hline. rewrite retired_in_app, retired_in_handler, Hsb.
    rewrite retired_in_silent; done. }
  change (log_commits_enabled (record_executed_insn (bits (insn fetch)) q))
    with (log_commits_enabled q).
  destruct (log_commits_enabled q) eqn:Hen.
  - destruct (commit_log_print_insn _ pc (insn fetch)) as [line|] eqn:Hline;
      cbn [r_proc r_outcome r_events].
    + split_and!; [by rewrite view_histogram|by left| |done].
      intros _. apply Hcount. repeat apply silent_app.
      * eapply commit_log_print_insn_silent. exact Hline.
      * apply log_print_mem_access_silent.
      * apply log_print_sift_trace_silent.
    + split_and!; [done|by right|done|].
      intros Hsome. destruct (Hsome eq_refl) as [? [=]].
  - cbn [r_proc r_outcome r_events].
    split_and!; [by rewrite view_histogram|by left| |done].
    intros _. apply Hcount. repeat apply silent_app; [apply Forall_nil_2| |].
    + apply log_print_mem_access_silent.
    + apply log_print_sift_trace_silent.
Qed.

(** [execute_insn] when the handler throws. *)
Lemma execute_insn_throws (p : processor_t) (pc : Z) (fetch : insn_fetch_t)
    (e : exn) (q : processor_t) :
  call_func (func fetch) (insn fetch) pc (commit_log_stash_privilege (commit_log_reset p))
  = CRaise e q →
  let r := execute_insn p pc fetch in
  loop_view (r_proc r) = loop_view q
  ∧ (r_outcome r = Raise e ∨ r_outcome r = Abort)
  ∧ retired_in (r_events r) = 0%nat.
Proof.
  intros Hcall. unfold execute_insn. rewrite Hcall.
  assert (silent [EvHandler pc (bits (insn fetch)) None]) as Hs
    by (apply Forall_cons_2; [reflexivity|apply Forall_nil_2]).
  destruct e as [t| | |]; simpl.
  - destruct (trap_is_mem t); [|split_and!; [done|by left|by apply retired_in_silent]].
    destruct (log_commits_enabled q && vector_write_logged (state q));
      [|split_and!; [done|by left|by apply retired_in_silent]].
    destruct (print_and_trace_spec (A:=Z) (Raise (E_trap t))
                (record_executed_insn (bits (insn fetch)) q) pc (insn fetch)
                [EvHandler pc (bits (insn fetch)) None]) as (Hv & Ho & Hsil & _).
    split_and!; [done|done|]. apply retired_in_silent, Hsil, Hs.
  - split_and!; [done|by left|by apply retired_in_silent].
  - split_and!; [done|by left|by apply retired_in_silent].
  - destruct (log_commits_enabled q);
      [|split_and!; [done|by left|by apply retired_in_silent]].
    destruct (print_and_trace_spec (A:=Z) (Raise E_wait_for_interrupt)
                (record_executed_insn (bits (insn fetch)) q) pc (insn fetch)
                [EvHandler pc (bits (insn fetch)) None]) as (Hv & Ho & Hsil & _).
    split_and!; [done|done|]. apply retired_in_silent, Hsil, Hs.
Qed.

End ExecuteFacts.

(** ** Faults inside an instruction *)

Section FaultFacts.
Context `{Encoding} `{Collaborators}.

Lemma low_two_bits_of_kind (k : Z) :
  0 <= Z.land k 0xf <= 4 → (Z.land k 3 =? 3) = (Z.land k 0xf =? 3).
Proof.
  intros Hk.
  assert (Z.land k 3 = Z.land (Z.land k 0xf) 3) as ->
    by (rewrite <- Z.land_assoc; reflexivity).
  assert (Z.land k 0xf = 0 ∨ Z.land k 0xf = 1 ∨ Z.land k 0xf = 2
          ∨ Z.land k 0xf = 3 ∨ Z.land k 0xf = 4) as Hc by lia.
  destruct Hc as [-> | [-> | [-> | [-> | ->]]]]; reflexivity.
Qed.

Lemma vector_write_logged_spec (s : state_t) :
  well_tagged s → vector_write_logged s = has_vector_generic s.
Proof.
  intros Htag. unfold vector_write_logged, has_vector_generic.
  rewrite existsb_reg_walk.
  assert (∀ item : Z * freg_t, item ∈ map_to_list (log_reg_write s) →
            0 <= Z.land item.1 0xf <= 4) as Hall.
  { intros [k val] Hin%elem_of_map_to_list. eapply Htag. exact Hin. }
  revert Hall. generalize (map_to_list (log_reg_write s)). intros l.
  induction l as [|x l IH]; intros Hall; simpl; [done|].
  rewrite low_two_bits_of_kind by (apply Hall; left).
  rewrite IH; [done|]. intros item Hitem. apply Hall. right. done.
Qed.

(** C4.  When the handler throws a memory fault, commit logging is
    enabled and the register-write log is well tagged (its tags are the
    five kinds): the commit-log line and the trace records of the
    instruction are written, before the fault is thrown again, if and
    only if some entry of the log has the vector-generic tag; without such
    an entry nothing is written.  In both cases [execute_insn] ends with
    the same fault. *)
Theorem mem_fault_tracing (p : processor_t) (pc : Z) (fetch : insn_fetch_t)
    (t : trap_t) (q : processor_t) (line : list event) :
  call_func (func fetch) (insn fetch) pc (commit_log_stash_privilege (commit_log_reset p))
  = CRaise (E_trap t) q →
  trap_is_mem t = true →
  log_commits_enabled q = true →
  well_tagged (state q) →
  commit_log_print_insn (record_executed_insn (bits (insn fetch)) q) pc (insn fetch)
  = Some line →
  let r := execute_insn p pc fetch in
  let called := [EvHandler pc (bits (insn fetch)) None] in
  let traced :=
    log_print_sift_trace (record_executed_insn (bits (insn fetch)) q) pc (insn fetch) in
  r_outcome r = Raise (E_trap t)
  ∧ (has_vector_generic (state q) = true →
     r_events r = called ++ line ++ traced.2
     ∧ line ≠ []
     ∧ (∃ rec rest, traced.2 = EvInstruction rec :: rest)
     ∧ r_proc r = traced.1)
  ∧ (has_vector_generic (state q) = false →
     r_events r = called ∧ r_proc r = q).
Proof.
  intros Hcall Hmem Hen Htag Hline r called traced.
  subst r. unfold execute_insn. rewrite Hcall, Hmem, Hen.
  rewrite (vector_write_logged_spec _ Htag).
  destruct (has_vector_generic (state q)); cbn [andb].
  - unfold print_and_trace. rewrite Hline. cbn [r_outcome r_events r_proc].
    split_and!; [done| |done].
    intros _. split_and!; [done| |apply log_print_sift_trace_record|done].
    eapply commit_log_print_insn_nonempty. exact Hline.
  - cbn [r_outcome r_events r_proc]. split_and!; done.
Qed.

Theorem wfi_commit_line (p : processor_t) (pc : Z) (fetch : insn_fetch_t)
    (q : processor_t) :
  call_func (func fetch) (insn fetch) pc (commit_log_stash_privilege (commit_log_reset p))
  = CRaise E_wait_for_interrupt q →
  let r := execute_insn p pc fetch in
  let called := [EvHandler pc (bits (insn fetch)) None] in
  let q' := record_executed_insn (bits (insn fetch)) q in
  (log_commits_enabled q = false →
   r = mk_run (Raise E_wait_for_interrupt) q' called)
  ∧ (log_commits_enabled q = true →
     ∀ line, commit_log_print_insn q' pc (insn fetch) = Some line →
       r = mk_run (Raise E_wait_for_interrupt) (log_print_sift_trace q' pc (insn fetch)).1
             (called ++ line ++ (log_print_sift_trace q' pc (insn fetch)).2)
       ∧ line ≠ []).
Proof.
  intros Hcall r called q'. subst r. unfold execute_insn. rewrite Hcall.
  change (log_commits_enabled (record_executed_insn (bits (insn fetch)) q))
    with (log_commits_enabled q).
  split; intros Hen; rewrite Hen; [done|].
  intros line Hline. unfold print_and_trace. fold q'. rewrite Hline.
  split; [done|]. eapply commit_log_print_insn_nonempty. exact Hline.
Qed.

End FaultFacts.

(** ** Bookkeeping of the two loops *)

Section LoopFacts.
Context `{Encoding} `{Collaborators}.

Lemma same_counters_refl (p : processor_t) : same_counters p p.
Proof. split; reflexivity. Qed.

Lemma same_counters_trans (p q r : processor_t) :
  same_counters p q → same_counters q r → same_counters p r.
Proof. intros [? ?] [? ?]. split; congruence. Qed.

Lemma execute_insn_summary (p : processor_t) (pc : Z) (fetch : insn_fetch_t) :
  counters_kept →
  let r := execute_insn p pc fetch in
  same_counters p (r_proc r)
  ∧ match r_outcome r with
    | Ok npc =>
        retired_in (r_events r) = if npc =? PC_SERIALIZE_BEFORE then 0%nat else 1%nat
    | Raise _ => retired_in (r_events r) = 0%nat
    | Abort => True
    end.
Proof.
  intros Hkept r.
  pose proof (kept_call Hkept (func fetch) (insn fetch) pc
                (commit_log_stash_privilege (commit_log_reset p))) as Hc.
  destruct (call_func (func fetch) (insn fetch) pc
              (commit_log_stash_privilege (commit_log_reset p))) as [npc q|e q] eqn:Hcall;
    simpl in Hc.
  - destruct (execute_insn_returns p pc npc fetch q Hcall) as (Hv & Ho & Hn & _).
    fold r in Hv, Ho, Hn. split.
    + eapply same_counters_trans; [|apply view_counters; exact Hv].
      eapply same_counters_trans; [|exact Hc]. apply view_counters. reflexivity.
    + destruct Ho as [Ho|Ho]; rewrite Ho; [|done]. apply Hn, Ho.
  - destruct (execute_insn_throws p pc fetch e q Hcall) as (Hv & Ho & Hn).
    fold r in Hv, Ho, Hn. split.
    + eapply same_counters_trans; [|apply view_counters; exact Hv].
      eapply same_counters_trans; [|exact Hc]. apply view_counters. reflexivity.
    + destruct Ho as [Ho|Ho]; rewrite Ho; done.
Qed.

(** The three ways [advance_pc()] ends. *)
Lemma advance_pc_cases (npc : Z) (instret : nat) (p : processor_t) :
  invalid_pc PC_SERIALIZE_BEFORE = true →
  (invalid_pc npc = false ∧ npc ≠ PC_SERIALIZE_BEFORE
   ∧ advance_pc npc instret p = AdvNext (S instret) npc (upd_state (set_pc npc) p))
  ∨ (npc = PC_SERIALIZE_BEFORE
     ∧ advance_pc npc instret p
       = AdvBreak instret (pc (state p)) (upd_state (set_serialized true) p))
  ∨ (npc = PC_SERIALIZE_AFTER ∧ npc ≠ PC_SERIALIZE_BEFORE
     ∧ advance_pc npc instret p = AdvBreak (S instret) (pc (state p)) p)
  ∨ (invalid_pc npc = true ∧ npc ≠ PC_SERIALIZE_BEFORE ∧ npc ≠ PC_SERIALIZE_AFTER
     ∧ advance_pc npc instret p = AdvAbort).
Proof.
  intros Hsb. unfold advance_pc.
  destruct (invalid_pc npc) eqn:Hinv.
  - destruct (Z.eqb_spec npc PC_SERIALIZE_BEFORE) as [->|Hne1]; [right; left; done|].
    destruct (Z.eqb_spec npc PC_SERIALIZE_AFTER) as [->|Hne2].
    + right; right; left. done.
    + right; right; right. done.
  - left. split_and!; [done| |done]. intros ->. congruence.
Qed.

Lemma retired_in_nil : retired_in [] = 0%nat.
Proof. reflexivity. Qed.

Lemma accounted_emit (out : list event) (k : nat) (instret bound : nat)
    (p p' : processor_t) (b : batch) :
  same_counters p p' →
  retired_in out = k →
  accounted (instret + k) bound p' b →
  accounted instret (k + bound) p (emit_before out b).
Proof.
  intros Hp Hk (Hc & Hi & Hle & Hlt). unfold accounted, emit_before. simpl.
  split_and!.
  - eapply same_counters_trans; done.
  - intros Hs. rewrite retired_in_app, (Hi Hs). lia.
  - lia.
  - intros e He. specialize (Hlt e He). lia.
Qed.

Lemma slow_loop_accounted (remaining instret : nat) (pc : Z) (p : processor_t) :
  counters_kept → invalid_pc PC_SERIALIZE_BEFORE = true →
  accounted instret remaining p (slow_loop remaining instret pc p).
Proof.
  intros Hkept Hsb. revert instret pc p.
  induction remaining as [|rem IH]; intros instret pc p; cbn [slow_loop].
  { unfold accounted. simpl. rewrite ?retired_in_nil.
    split_and!; [apply same_counters_refl|lia|lia|done]. }
  set (fire := negb (serialized (state p)) && is_stepped (state p)).
  set (p1 := if fire then upd_state (set_single_step STEP_NONE) p else p).
  assert (same_counters p p1) as Hp1 by (subst p1; destruct fire; split; reflexivity).
  destruct (fire && negb (debug_mode (state p1))).
  { unfold accounted. simpl. rewrite ?retired_in_nil. split_and!; [|lia|lia|done].
    eapply same_counters_trans; [exact Hp1|apply (kept_debug Hkept)]. }
  set (p2 := if is_stepping (state p1)
             then upd_state (set_single_step STEP_STEPPED) p1 else p1).
  assert (same_counters p p2) as Hp2.
  { eapply same_counters_trans; [exact Hp1|].
    subst p2; destruct (is_stepping (state p1)); split; reflexivity. }
  pose proof (kept_load Hkept p2 pc) as Hl.
  destruct (load_insn p2 pc) as [fetch p3|e p3]; simpl in Hl.
  2:{ unfold accounted. simpl. rewrite ?retired_in_nil. split_and!; [|lia|lia|lia].
      eapply same_counters_trans; done. }
  destruct (execute_insn_summary p3 pc fetch Hkept) as [Hc Hn].
  set (shown := if debug p3 && negb (serialized (state p3))
                then [EvDisasm (bits (insn fetch))] else []).
  assert (retired_in shown = 0%nat) as Hshown
    by (subst shown; destruct (debug p3 && negb (serialized (state p3))); reflexivity).
  assert (same_counters p (r_proc (execute_insn p3 pc fetch))) as Hp3.
  { eapply same_counters_trans; [|exact Hc]. eapply same_counters_trans; done. }
  destruct (r_outcome (execute_insn p3 pc fetch)) as [npc|e|] eqn:Ho.
  - destruct (advance_pc_cases npc instret (r_proc (execute_insn p3 pc fetch)) Hsb)
      as [(Hinv & Hne & ->)|[(-> & ->)|[(-> & Hne & ->)|(Hinv & Hne1 & Hne2 & ->)]]].
    + replace (S rem) with (1 + rem)%nat by lia.
      eapply accounted_emit; [exact Hp3| |].
      * rewrite retired_in_app, Hshown, Hn.
        destruct (Z.eqb_spec npc PC_SERIALIZE_BEFORE); [done|reflexivity].
      * replace (instret + 1)%nat with (S instret) by lia.
        destruct (IH (S instret) npc
                    (upd_state (set_pc npc) (r_proc (execute_insn p3 pc fetch))))
          as (Ha & Hb & Hc' & Hd).
        split_and!; [|done|done|done].
        eapply same_counters_trans; [|exact Ha]. split; reflexivity.
    + replace (S rem) with (0 + S rem)%nat by lia.
      eapply accounted_emit; [exact Hp3| |].
      * rewrite retired_in_app, Hshown, Hn, Z.eqb_refl. reflexivity.
      * unfold accounted. simpl. rewrite ?retired_in_nil.
        split_and!; [split; reflexivity|lia|lia|done].
    + replace (S rem) with (1 + rem)%nat by lia.
      eapply accounted_emit; [exact Hp3| |].
      * rewrite retired_in_app, Hshown, Hn.
        destruct (Z.eqb_spec PC_SERIALIZE_AFTER PC_SERIALIZE_BEFORE); [done|reflexivity].
      * unfold accounted. simpl. rewrite ?retired_in_nil.
        split_and!; [apply same_counters_refl|lia|lia|done].
    + unfold accounted, emit_before. simpl. split_and!; [done|done|lia|done].
  - replace (S rem) with (0 + S rem)%nat by lia.
    eapply accounted_emit; [exact Hp3| |].
    + rewrite retired_in_app, Hshown, Hn. reflexivity.
    + unfold accounted. simpl. rewrite ?retired_in_nil.
      split_and!; [apply same_counters_refl|lia|lia|lia].
  - unfold accounted, emit_before. simpl. split_and!; [done|done|lia|done].
Qed.

Lemma fast_loop_accounted (remaining : nat) (ic : option icache_entry)
    (instret : nat) (pc : Z) (p : processor_t) :
  counters_kept → invalid_pc PC_SERIALIZE_BEFORE = true → tags_valid →
  accounted instret remaining p (fast_loop remaining ic instret pc p).
Proof.
  intros Hkept Hsb Htags. revert ic instret pc p.
  induction remaining as [|rem IH]; intros ic instret pc p; cbn [fast_loop].
  { unfold accounted. simpl. rewrite ?retired_in_nil.
    split_and!; [apply same_counters_refl|lia|lia|done]. }
  assert (same_counters p
            (cres_proc (match ic with Some e => COk e p | None => access_icache p pc end)))
    as Hl by (destruct ic; [apply same_counters_refl|apply (kept_icache Hkept)]).
  destruct (match ic with Some e => COk e p | None => access_icache p pc end)
    as [entry p1|e p1]; simpl in Hl.
  2:{ unfold accounted. simpl. rewrite ?retired_in_nil. split_and!; [done|lia|lia|lia]. }
  destruct (execute_insn_summary p1 pc (ic_data (mmu p1) entry) Hkept) as [Hc Hn].
  set (r := execute_insn p1 pc (ic_data (mmu p1) entry)) in *.
  assert (same_counters p (r_proc r)) as Hp3 by (eapply same_counters_trans; done).
  destruct (r_outcome r) as [npc|e|] eqn:Ho.
  - destruct (negb (ic_tag (mmu (r_proc r)) (ic_next (mmu (r_proc r)) entry) =? npc)
              || match rem with O => true | S _ => false end) eqn:Hleave.
    + destruct (advance_pc_cases npc instret (r_proc r) Hsb)
        as [(Hinv & Hne & ->)|[(-> & ->)|[(-> & Hne & ->)|(Hinv & Hne1 & Hne2 & ->)]]].
      * replace (S rem) with (1 + rem)%nat by lia.
        eapply accounted_emit; [exact Hp3| |].
        -- rewrite Hn. destruct (Z.eqb_spec npc PC_SERIALIZE_BEFORE); [done|reflexivity].
        -- replace (instret + 1)%nat with (S instret) by lia.
           destruct (IH None (S instret) npc (upd_state (set_pc npc) (r_proc r)))
             as (Ha & Hb & Hc' & Hd).
           split_and!; [|done|done|done].
           eapply same_counters_trans; [|exact Ha]. split; reflexivity.
      * replace (S rem) with (0 + S rem)%nat by lia.
        eapply accounted_emit; [exact Hp3| |].
        -- rewrite Hn, Z.eqb_refl. reflexivity.
        -- unfold accounted. simpl. rewrite ?retired_in_nil.
           split_and!; [split; reflexivity|lia|lia|done].
      * replace (S rem) with (1 + rem)%nat by lia.
        eapply accounted_emit; [exact Hp3| |].
        -- rewrite Hn.
           destruct (Z.eqb_spec PC_SERIALIZE_AFTER PC_SERIALIZE_BEFORE); [done|reflexivity].
        -- unfold accounted. simpl. rewrite ?retired_in_nil.
           split_and!; [apply same_counters_refl|lia|lia|done].
      * unfold accounted, emit_before. simpl. split_and!; [done|done|lia|done].
    + apply orb_false_iff in Hleave as [Htag Hrem].
      apply negb_false_iff, Z.eqb_eq in Htag.
      assert (npc ≠ PC_SERIALIZE_BEFORE) as Hne by (rewrite <- Htag; apply Htags).
      replace (S rem) with (1 + rem)%nat by lia.
      eapply accounted_emit; [exact Hp3| |].
      * rewrite Hn. destruct (Z.eqb_spec npc PC_SERIALIZE_BEFORE); [done|reflexivity].
      * replace (instret + 1)%nat with (S instret) by lia.
        destruct (IH (Some (ic_next (mmu (r_proc r)) entry)) (S instret) npc
                    (upd_state (set_pc npc) (r_proc r)))
          as (Ha & Hb & Hc' & Hd).
        split_and!; [|done|done|done].
        eapply same_counters_trans; [|exact Ha]. split; reflexivity.
  - replace (S rem) with (0 + S rem)%nat by lia.
    eapply accounted_emit; [exact Hp3| |].
    + rewrite Hn. reflexivity.
    + unfold accounted. simpl. rewrite ?retired_in_nil.
      split_and!; [apply same_counters_refl|lia|lia|lia].
  - unfold accounted, emit_before. simpl. split_and!; [done|done|lia|done].
Qed.

Lemma batch_try_accounted (n : nat) (p : processor_t) :
  counters_kept → invalid_pc PC_SERIALIZE_BEFORE = true → tags_valid →
  (0 < n)%nat →
  accounted 0 n p (batch_try n p).
Proof.
  intros Hkept Hsb Htags Hn. unfold batch_try.
  pose proof (kept_interrupt Hkept p) as Hi.
  destruct (take_pending_interrupt p) as [[] p1|e p1]; simpl in Hi.
  - destruct (slow_path p1).
    + destruct (slow_loop_accounted n 0 (pc (state p)) p1 Hkept Hsb) as (Ha & Hb & Hc & Hd).
      split_and!; [|done|done|done]. eapply same_counters_trans; done.
    + destruct (fast_loop_accounted n None 0 (pc (state p)) p1 Hkept Hsb Htags)
        as (Ha & Hb & Hc & Hd).
      split_and!; [|done|done|done]. eapply same_counters_trans; done.
  - unfold accounted. simpl. rewrite ?retired_in_nil. split_and!; [done|lia|lia|lia].
Qed.

End LoopFacts.

(** ** Traps and waits in [step] *)

Section StepFacts.
Context `{Encoding} `{Collaborators}.

Lemma check_halt_counters (p : processor_t) :
  counters_kept → same_counters p (check_halt p).
Proof.
  intros Hkept. unfold check_halt.
  repeat case_match; try apply same_counters_refl; apply (kept_debug Hkept).
Qed.

Lemma retire_counters (k : nat) (p q : processor_t) :
  same_counters p q →
  minstret (state (retire k q)) = u64 (minstret (state p) + Z.of_nat k)
  ∧ mcycle (state (retire k q)) = u64 (mcycle (state p) + Z.of_nat k).
Proof. intros [Hm Hc]. simpl. unfold bump. rewrite Hm, Hc. done. Qed.

Lemma step_loop_zero (fuel : nat) (p : processor_t) :
  step_loop fuel 0 p = (Returned p, []).
Proof. destruct fuel; reflexivity. Qed.

(** C2.  If a batch of [step], entered with a quota of [n], throws a trap
    after the trace shows [k] instructions carried out, then [k < n], the
    trap is delivered by [take_trap] with the pc at which the batch
    stopped (and a pending single step is resolved into a debug-mode
    entry), no further instruction runs in the call, and the batch leaves
    minstret and mcycle [k] greater than it found them: the trapping
    instruction is not counted.  For the first batch of a call this is a
    statement about [step(n)] itself. *)
Theorem trap_credits_completed (n : nat) (p : processor_t) (t : trap_t) (k fuel : nat) :
  counters_kept → invalid_pc PC_SERIALIZE_BEFORE = true → tags_valid →
  (0 < n)%nat →
  let b := batch_try n p in
  b_status b = Thrown (E_trap t) →
  retired_in (b_events b) = k →
  let delivered := take_trap t (b_pc b) (b_proc b) in
  let q := if is_stepped (state delivered)
           then enter_debug_mode DCSR_CAUSE_STEP
                  (upd_state (set_single_step STEP_NONE) delivered)
           else delivered in
  (k < n)%nat
  ∧ step_loop (S fuel) n p = (Returned (retire k q), b_events b)
  ∧ minstret (state (retire k q)) = u64 (minstret (state p) + Z.of_nat k)
  ∧ mcycle (state (retire k q)) = u64 (mcycle (state p) + Z.of_nat k)
  ∧ (∀ p0, check_halt p0 = p →
       step (S fuel) n p0 = (Returned (retire k q), b_events b)
       ∧ same_counters p0 p).
Proof.
  intros Hkept Hsb Htags Hn b Hst Hk delivered q.
  destruct (batch_try_accounted n p Hkept Hsb Htags Hn) as (Hc & Hi & _ & Hlt).
  fold b in Hc, Hi, Hlt.
  assert (b_instret b = k) as Hik by (rewrite Hi, Hk; [lia|rewrite Hst; done]).
  assert (step_loop (S fuel) n p = (Returned (retire k q), b_events b)) as Hrun.
  { destruct n as [|n']; [lia|]. cbn [step_loop]. fold b.
    unfold handle. rewrite Hst. fold delivered.
    destruct (is_stepped (state delivered)); cbn [fst snd]; subst q;
      rewrite Hik, Nat.sub_diag; unfold emit_first; simpl; rewrite !app_nil_r.
    all: rewrite step_loop_zero; simpl; rewrite app_nil_r; done. }
  assert (same_counters p q) as Hpq.
  { eapply same_counters_trans; [exact Hc|].
    eapply same_counters_trans; [apply (kept_trap Hkept t (b_pc b))|]. fold delivered.
    subst q. destruct (is_stepped (state delivered)); [|apply same_counters_refl].
    eapply same_counters_trans; [|apply (kept_debug Hkept)]. split; reflexivity. }
  split_and!.
  - specialize (Hlt _ Hst). lia.
  - exact Hrun.
  - apply retire_counters, Hpq.
  - apply retire_counters, Hpq.
  - intros p0 <-. split; [exact Hrun|apply check_halt_counters, Hkept].
Qed.

(** C9.  When the handler throws a wait for interrupt and commit logging
    is enabled, [execute_insn] writes the commit-log line of the
    instruction (and its trace records) and then throws the same signal.
    In [step], a batch that ends on this signal after [k] instructions
    were carried out is credited [k + 1]: it leaves minstret and mcycle
    [k + 1] greater than it found them, and the call returns without
    running another instruction. *)
Theorem wait_for_interrupt_credit :
  counters_kept → invalid_pc PC_SERIALIZE_BEFORE = true → tags_valid →
  (∀ (p : processor_t) (pc : Z) (fetch : insn_fetch_t) (q : processor_t) (line : list event),
     call_func (func fetch) (insn fetch) pc
               (commit_log_stash_privilege (commit_log_reset p))
     = CRaise E_wait_for_interrupt q →
     log_commits_enabled q = true →
     commit_log_print_insn (record_executed_insn (bits (insn fetch)) q) pc (insn fetch)
     = Some line →
     let traced :=
       log_print_sift_trace (record_executed_insn (bits (insn fetch)) q) pc (insn fetch) in
     execute_insn p pc fetch
     = mk_run (Raise E_wait_for_interrupt) traced.1
              ([EvHandler pc (bits (insn fetch)) None] ++ line ++ traced.2)
     ∧ line ≠ [])
  ∧ (∀ (n : nat) (p : processor_t) (k fuel : nat),
       (0 < n)%nat →
       let b := batch_try n p in
       b_status b = Thrown E_wait_for_interrupt →
       retired_in (b_events b) = k →
       (k < n)%nat
       ∧ step_loop (S fuel) n p = (Returned (retire (S k) (b_proc b)), b_events b)
       ∧ minstret (state (retire (S k) (b_proc b)))
         = u64 (minstret (state p) + Z.of_nat (S k))
       ∧ mcycle (state (retire (S k) (b_proc b)))
         = u64 (mcycle (state p) + Z.of_nat (S k))
       ∧ (∀ p0, check_halt p0 = p →
            step (S fuel) n p0 = (Returned (retire (S k) (b_proc b)), b_events b)
            ∧ same_counters p0 p)).
Proof.
  intros Hkept Hsb Htags. split.
  - intros p pc fetch q line Hcall Hen Hline traced.
    destruct (wfi_commit_line p pc fetch q Hcall) as [_ Hon].
    apply (Hon Hen line Hline).
  - intros n p k fuel Hn b Hst Hk.
    destruct (batch_try_accounted n p Hkept Hsb Htags Hn) as (Hc & Hi & _ & Hlt).
    fold b in Hc, Hi, Hlt.
    assert (b_instret b = k) as Hik by (rewrite Hi, Hk; [lia|rewrite Hst; done]).
    assert (step_loop (S fuel) n p = (Returned (retire (S k) (b_proc b)), b_events b))
      as Hrun.
    { destruct n as [|n']; [lia|]. cbn [step_loop]. fold b.
      unfold handle. rewrite Hst. cbn [fst snd].
      rewrite Hik, Nat.sub_diag. unfold emit_first. simpl.
      rewrite step_loop_zero. simpl. rewrite !app_nil_r. done. }
    split_and!.
    + specialize (Hlt _ Hst). lia.
    + exact Hrun.
    + apply retire_counters, Hc.
    + apply retire_counters, Hc.
    + intros p0 <-. split; [exact Hrun|apply check_halt_counters, Hkept].
Qed.

End StepFacts.

(** ** Batches in which nothing throws *)

Section QuietFacts.
Context `{Encoding} `{Collaborators}.
Hypothesis Hquiet : quiet.
Hypothesis Hproto : handler_contract.
Hypothesis Hprint : printing_contract.

Lemma config_upd_state (f : state_t → state_t) (p : processor_t) :
  printable_config (upd_state f p) ↔ printable_config p.
Proof. reflexivity. Qed.

Lemma execute_insn_quiet (p : processor_t) (pc : Z) (fetch : insn_fetch_t) :
  printable_config p →
  let r := execute_insn p pc fetch in
  ∃ npc, r_outcome r = Ok npc
    ∧ printable_config (r_proc r)
    ∧ (invalid_pc npc = true → npc = PC_SERIALIZE_BEFORE ∨ npc = PC_SERIALIZE_AFTER)
    ∧ (npc = PC_SERIALIZE_BEFORE → serialized (state p) = false).
Proof.
  intros Hcfg r.
  set (p0 := commit_log_stash_privilege (commit_log_reset p)).
  destruct (quiet_call Hquiet (func fetch) (insn fetch) pc p0) as (npc & q & Hcall).
  assert (printable_config p0) as Hcfg0 by exact Hcfg.
  destruct (config_call Hprint _ _ _ _ _ _ Hcall Hcfg0) as (Hq & Hxl & Hfl & Htag & Hst).
  destruct (execute_insn_returns p pc npc fetch q Hcall) as (Hv & _ & _ & Hok).
  fold r in Hv, Hok. exists npc. split_and!.
  - apply Hok. intros _. destruct Hq as (_ & _ & Hvlen). destruct Hcfg as (Hx & Hf & _).
    apply commit_log_print_insn_some.
    + change (printable_width (last_inst_xlen (state q)) = true). rewrite Hxl. exact Hx.
    + change (printable_width (last_inst_flen (state q)) = true). rewrite Hfl. exact Hf.
    + exact Hvlen.
    + apply (insn_width Hprint).
    + exact Htag.
    + exact Hst.
  - eapply view_config; [exact Hv|exact Hq].
  - apply (next_pc_known Hproto _ _ _ _ _ _ Hcall).
  - intros ->. destruct (serialized (state p)) eqn:Hser; [|done].
    exfalso. apply (serialize_once Hproto _ _ _ _ _ _ Hcall); [exact Hser|done].
Qed.

Lemma settled_emit (out : list event) (instret remaining : nat) (p : processor_t) (b : batch) :
  settled instret remaining p b → settled instret remaining p (emit_before out b).
Proof. intros Hs. exact Hs. Qed.

Lemma slack_serialize (p q : processor_t) :
  serialized (state p) = false → serialized (state q) = true → (slack q < slack p)%nat.
Proof. unfold slack. intros -> ->. case_match; lia. Qed.

Lemma slack_control (p q : processor_t) : same_control p q → slack q = slack p.
Proof. intros (Hs & Hst & Hd). unfold slack, is_stepped. rewrite Hs, Hst, Hd. done. Qed.

Lemma slow_loop_settled (remaining instret : nat) (pc : Z) (p : processor_t) :
  printable_config p → settled instret remaining p (slow_loop remaining instret pc p).
Proof.
  revert instret pc p.
  induction remaining as [|rem IH]; intros instret pc p Hcfg; cbn [slow_loop].
  { unfold settled. simpl. split_and!; [done|done|lia|done]. }
  set (fire := negb (serialized (state p)) && is_stepped (state p)).
  set (p1 := if fire then upd_state (set_single_step STEP_NONE) p else p).
  assert (printable_config p1) as Hcfg1 by (subst p1; destruct fire; exact Hcfg).
  assert (serialized (state p1) = serialized (state p)) as Hser1
    by (subst p1; destruct fire; reflexivity).
  assert (debug_mode (state p1) = debug_mode (state p)) as Hdbg1
    by (subst p1; destruct fire; reflexivity).
  destruct (fire && negb (debug_mode (state p1))) eqn:Hbreak.
  { unfold settled. simpl. split_and!; [done|apply (config_debug Hprint), Hcfg1|lia|].
    intros _ _. apply andb_true_iff in Hbreak as [Hfire Hnd].
    subst fire. apply andb_true_iff in Hfire as [Hns Hstep].
    rewrite Hdbg1 in Hnd. unfold slack at 2.
    apply negb_true_iff in Hns, Hnd. rewrite Hns, Hstep, Hnd. simpl.
    unfold slack. rewrite (debug_entered Hproto). cbn [negb]. rewrite andb_false_r.
    destruct (serialized (state (enter_debug_mode DCSR_CAUSE_STEP p1))); lia. }
  set (p2 := if is_stepping (state p1)
             then upd_state (set_single_step STEP_STEPPED) p1 else p1).
  assert (printable_config p2) as Hcfg2
    by (subst p2; destruct (is_stepping (state p1)); exact Hcfg1).
  assert (serialized (state p2) = serialized (state p)) as Hser2
    by (subst p2; destruct (is_stepping (state p1)); exact Hser1).
  destruct (quiet_load Hquiet p2 pc) as (fetch & p3 & Hload).
  pose proof (control_load Hproto p2 pc) as Hctl.
  pose proof (config_load Hprint p2 pc Hcfg2) as Hcfg3.
  rewrite Hload in Hctl, Hcfg3 |- *. simpl in Hctl, Hcfg3.
  destruct Hctl as (Hser3 & _ & _).
  destruct (execute_insn_quiet p3 pc fetch Hcfg3) as (npc & Ho & Hcfgr & Hknown & Hsb).
  rewrite Ho. apply settled_emit.
  destruct (advance_pc_cases npc instret (r_proc (execute_insn p3 pc fetch))
              (sentinel_invalid Hproto))
    as [(Hinv & Hne & ->)|[(-> & ->)|[(-> & Hne & ->)|(Hinv & Hne1 & Hne2 & ->)]]].
  - destruct (IH (S instret) npc
                (upd_state (set_pc npc) (r_proc (execute_insn p3 pc fetch))) Hcfgr)
      as (Ha & Hb & Hc & _).
    unfold settled. split_and!; [done|done|lia|lia].
  - unfold settled. simpl. split_and!; [done|exact Hcfgr|lia|].
    intros _ _. apply slack_serialize; [|reflexivity].
    rewrite <- Hser2, <- Hser3. apply Hsb. reflexivity.
  - unfold settled. simpl. split_and!; [done|exact Hcfgr|lia|lia].
  - destruct (Hknown Hinv); done.
Qed.

Lemma fast_loop_settled (remaining : nat) (ic : option icache_entry)
    (instret : nat) (pc : Z) (p : processor_t) :
  printable_config p → settled instret remaining p (fast_loop remaining ic instret pc p).
Proof.
  revert ic instret pc p.
  induction remaining as [|rem IH]; intros ic instret pc p Hcfg; cbn [fast_loop].
  { unfold settled. simpl. split_and!; [done|done|lia|done]. }
  assert (∃ entry p1,
            match ic with Some e => COk e p | None => access_icache p pc end = COk entry p1
            ∧ printable_config p1 ∧ serialized (state p1) = serialized (state p))
    as (entry & p1 & -> & Hcfg1 & Hser1).
  { destruct ic as [e|]; [exists e, p; done|].
    destruct (quiet_icache Hquiet p pc) as (e & q & Hacc).
    pose proof (control_icache Hproto p pc) as Hctl.
    pose proof (config_icache Hprint p pc Hcfg) as Hcfgq.
    rewrite Hacc in Hctl, Hcfgq. simpl in Hctl, Hcfgq.
    exists e, q. destruct Hctl as (? & _ & _). done. }
  destruct (execute_insn_quiet p1 pc (ic_data (mmu p1) entry) Hcfg1)
    as (npc & Ho & Hcfgr & Hknown & Hsb).
  set (r := execute_insn p1 pc (ic_data (mmu p1) entry)) in *.
  rewrite Ho. apply settled_emit.
  destruct (negb (ic_tag (mmu (r_proc r)) (ic_next (mmu (r_proc r)) entry) =? npc)
            || match rem with O => true | S _ => false end).
  - destruct (advance_pc_cases npc instret (r_proc r) (sentinel_invalid Hproto))
      as [(Hinv & Hne & ->)|[(-> & ->)|[(-> & Hne & ->)|(Hinv & Hne1 & Hne2 & ->)]]].
    + destruct (IH None (S instret) npc (upd_state (set_pc npc) (r_proc r)) Hcfgr)
        as (Ha & Hb & Hc & _).
      unfold settled. split_and!; [done|done|lia|lia].
    + unfold settled. simpl. split_and!; [done|exact Hcfgr|lia|].
      intros _ _. apply slack_serialize; [|reflexivity].
      rewrite <- Hser1. apply Hsb. reflexivity.
    + unfold settled. simpl. split_and!; [done|exact Hcfgr|lia|lia].
    + destruct (Hknown Hinv); done.
  - destruct (IH (Some (ic_next (mmu (r_proc r)) entry)) (S instret) npc
                (upd_state (set_pc npc) (r_proc r)) Hcfgr)
      as (Ha & Hb & Hc & _).
    unfold settled. split_and!; [done|done|lia|lia].
Qed.

Lemma batch_try_settled (n : nat) (p : processor_t) :
  printable_config p → settled 0 n p (batch_try n p).
Proof.
  intros Hcfg. unfold batch_try.
  destruct (quiet_interrupt Hquiet p) as (p1 & Hint).
  pose proof (control_interrupt Hproto p) as Hctl.
  pose proof (config_interrupt Hprint p Hcfg) as Hcfg1.
  rewrite Hint in Hctl, Hcfg1 |- *. simpl in Hctl, Hcfg1.
  pose proof (slack_control p p1 Hctl) as Hslack.
  destruct (slow_path p1).
  - destruct (slow_loop_settled n 0 (pc (state p)) p1 Hcfg1) as (Ha & Hb & Hc & Hd).
    unfold settled. rewrite <- Hslack. done.
  - destruct (fast_loop_settled n None 0 (pc (state p)) p1 Hcfg1) as (Ha & Hb & Hc & Hd).
    unfold settled. rewrite <- Hslack. done.
Qed.

End QuietFacts.

(** ** The quota of [step] *)

Section QuotaFacts.
Context `{Encoding} `{Collaborators}.
Hypothesis Hkept : counters_kept.
Hypothesis Htags : tags_valid.
Hypothesis Hquiet : quiet.
Hypothesis Hproto : handler_contract.
Hypothesis Hprint : printing_contract.

Lemma u64_bump_bump (m : Z) (a b : nat) :
  u64 (u64 (m + Z.of_nat a) + Z.of_nat b) = u64 (m + Z.of_nat (a + b)).
Proof.
  unfold u64. rewrite Zplus_mod_idemp_l. f_equal. lia.
Qed.

Lemma step_loop_quota (fuel n : nat) (p : processor_t) :
  printable_config p →
  (0 < n)%nat →
  (3 * n + slack p ≤ fuel)%nat →
  ∃ q out,
    step_loop fuel n p = (Returned q, out)
    ∧ retired_in out = n
    ∧ minstret (state q) = u64 (minstret (state p) + Z.of_nat n)
    ∧ mcycle (state q) = u64 (mcycle (state p) + Z.of_nat n).
Proof.
  revert n p. induction fuel as [|fuel IH]; intros n p Hcfg Hn Hfuel; [lia|].
  destruct n as [|n']; [lia|]. cbn [step_loop].
  set (b := batch_try (S n') p).
  destruct (batch_try_accounted (S n') p Hkept (sentinel_invalid Hproto) Htags Hn)
    as (Hc & Hi & Hle & _).
  destruct (batch_try_settled Hquiet Hproto Hprint (S n') p Hcfg) as (Hst & Hcfgb & _ & Hsl).
  fold b in Hc, Hi, Hle, Hst, Hcfgb, Hsl.
  assert (b_instret b = retired_in (b_events b)) as Hib
    by (rewrite Hi; [lia|rewrite Hst; done]).
  unfold handle. rewrite Hst. cbn [fst snd]. rewrite app_nil_r.
  destruct (retire_counters (b_instret b) p (b_proc b) Hc) as [Hm Hy].
  destruct (decide (S n' - b_instret b = 0)%nat) as [Hdone|Hmore].
  - rewrite Hdone, step_loop_zero. unfold emit_first. simpl. rewrite app_nil_r.
    assert (b_instret b = S n') as Hall by lia.
    eexists _, _. split; [reflexivity|].
    rewrite Hall in Hm, Hy. rewrite Hall. split_and!; [lia|exact Hm|exact Hy].
  - destruct (IH (S n' - b_instret b)%nat (retire (b_instret b) (b_proc b)))
      as (q & out & Hrun & Hout & Hmq & Hyq).
    + exact Hcfgb.
    + lia.
    + change (slack (retire (b_instret b) (b_proc b))) with (slack (b_proc b)).
      destruct (decide (b_instret b = 0%nat)) as [Hzero|Hpos].
      * specialize (Hsl Hzero ltac:(lia)). lia.
      * assert (slack (b_proc b) ≤ 2)%nat by (unfold slack; repeat case_match; lia). lia.
    + rewrite Hrun. unfold emit_first. simpl.
      eexists _, _. split; [reflexivity|].
      split_and!.
      * rewrite retired_in_app, Hout, <- Hib. lia.
      * rewrite Hmq, Hm, u64_bump_bump. f_equal. f_equal. lia.
      * rewrite Hyq, Hy, u64_bump_bump. f_equal. f_equal. lia.
Qed.

Lemma check_halt_config (p : processor_t) :
  printable_config p → printable_config (check_halt p).
Proof.
  intros Hcfg. unfold check_halt.
  repeat case_match; try done; apply (config_debug Hprint), Hcfg.
Qed.

(** C1.  When nothing throws during a call of [step] (no interrupt is
    pending, fetches succeed, no handler raises a trap, a trigger match,
    a debug-mode entry or a wait for interrupt), the services keep to
    their contracts (they do not write the two counters, handlers follow
    the next-pc protocol and leave printable logs, no cache tag is the
    sentinel) and the quota [n] is positive, then [step] returns, given
    [3 * n + 2] batches of fuel; the trace shows exactly [n] instructions
    carried out, and minstret and mcycle are each [n] greater (as 64-bit
    counters) than before the call.  The processor [p] is arbitrary, so
    this covers the fast path and the slow path alike. *)
Theorem quota_is_retired (fuel n : nat) (p : processor_t) :
  printable_config p →
  (0 < n)%nat →
  (3 * n + 2 ≤ fuel)%nat →
  ∃ q out,
    step fuel n p = (Returned q, out)
    ∧ retired_in out = n
    ∧ minstret (state q) = u64 (minstret (state p) + Z.of_nat n)
    ∧ mcycle (state q) = u64 (mcycle (state p) + Z.of_nat n).
Proof.
  intros Hcfg Hn Hfuel. unfold step.
  destruct (step_loop_quota fuel n (check_halt p)) as (q & out & Hrun & Hout & Hm & Hy).
  - apply check_halt_config, Hcfg.
  - exact Hn.
  - assert (slack (check_halt p) ≤ 2)%nat by (unfold slack; repeat case_match; lia). lia.
  - exists q, out. destruct (check_halt_counters p Hkept) as [Hm0 Hy0].
    rewrite Hm0 in Hm. rewrite Hy0 in Hy. done.
Qed.

End QuotaFacts.

(** ** Single step *)

Section SingleStep.
Context `{Encoding} `{Collaborators}.


End SingleStep.

(** ** The handler of vssrl.vv *)

Section VssrlFacts.
Context `{ExtTypes}.
Variable VRM : Type.
Variable get_vround_mode : processor_t → VRM.
Variable INT_ROUNDING : Z → VRM → Z → Z.
Variable VI_VV_ULOOP : (Z → Z → Z → Z) → insn_t → processor_t → cres unit.

Lemma mask_to_width (vs1 : Z) (k : Z) :
  0 <= k → Z.land vs1 (2 ^ k - 1) = vs1 mod 2 ^ k.
Proof.
  intros Hk. replace (2 ^ k - 1) with (Z.ones k) by (rewrite Z.ones_equiv; lia).
  apply Z.land_ones, Hk.
Qed.

(** C10.  Whenever the element loop of vssrl.vv completes, the handler
    ends with mhpmcounter[10] bumped by exactly one, the other counters,
    and what the loop wrote, unchanged; when the loop throws, the handler
    throws the same and bumps nothing.  The element operation handed to
    the loop stores in [vd] the [vs2] element, rounded, shifted right by
    the [vs1] element masked to the element width. *)
Theorem vssrl_vv_counts (i : insn_t) (p : processor_t) :
  let element := vssrl_element VRM INT_ROUNDING (get_vround_mode p) in
  (∀ q, VI_VV_ULOOP element i p = COk tt q →
     let q' := bump_mhpmcounter10 q in
     vssrl_vv VRM get_vround_mode INT_ROUNDING VI_VV_ULOOP i p = COk tt q'
     ∧ mhpmcounter (state q') !! 10%nat
       = (λ c, u64 (c + 1)) <$> mhpmcounter (state q) !! 10%nat
     ∧ (∀ j, j ≠ 10%nat → mhpmcounter (state q') !! j = mhpmcounter (state q) !! j)
     ∧ arch q' = arch q ∧ VU q' = VU q)
  ∧ (∀ e q, VI_VV_ULOOP element i p = CRaise e q →
       vssrl_vv VRM get_vround_mode INT_ROUNDING VI_VV_ULOOP i p = CRaise e q)
  ∧ (∀ k vs1 vs2, 0 <= k →
       let sh := vs1 mod 2 ^ k in
       element (2 ^ k) vs1 vs2
       = ((INT_ROUNDING vs2 (get_vround_mode p) sh mod 2 ^ 128) / 2 ^ sh) mod 2 ^ 2 ^ k).
Proof.
  intros element. split_and!.
  - intros q Hq q'. unfold vssrl_vv. fold element. rewrite Hq.
    split_and!; [done| | |done|done].
    + subst q'. simpl. rewrite list_lookup_alter_eq. reflexivity.
    + intros j Hj. subst q'. simpl. apply list_lookup_alter_ne. done.
  - intros e q Hq. unfold vssrl_vv. fold element. rewrite Hq. reflexivity.
  - intros k vs1 vs2 Hk sh. subst element. unfold vssrl_element.
    rewrite mask_to_width by exact Hk. fold sh.
    rewrite Z.shiftr_div_pow2; [reflexivity|].
    subst sh. apply Z.mod_pos_bound. lia.
Qed.

End VssrlFacts.

(** * Runs of the model on concrete machines *)

(** ** The raw-op reconstructor and the tracker *)

Section TraceRuns.
#[local] Existing Instance riscv_encoding.
#[local] Existing Instance script_types.
#[local] Existing Instance script_machine.

(** C5.  The increment of a 5-bit field does not mask the incremented
    value: on a field that holds 31 the field becomes 0 and the carry is
    or-ed into the bit just above the field (bit 12 for vd, bit 20 for
    vs1, bit 25 for vs2), a bit outside the field.  The words are the
    held word of vlseg3e8.v v29, (a0) before its third increment, a
    vadd.vv with vs1 = v31, and a masked OPIVV word with vs2 = v31. *)
Lemma field_increment_carries_out :
  field 7 0x42050f87 = 31
  ∧ inc_vd 0x42050f87 = 0x42051007
  ∧ Z.testbit 0x42050f87 12 = false
  ∧ Z.testbit (inc_vd 0x42050f87) 12 = true
  ∧ field 15 0x002f80d7 = 31
  ∧ Z.testbit 0x002f80d7 20 = false
  ∧ Z.testbit (inc_vs1 0x002f80d7) 20 = true
  ∧ field 20 0x01f00057 = 31
  ∧ Z.testbit 0x01f00057 25 = false
  ∧ Z.testbit (inc_vs2 0x01f00057) 25 = true
  ∧ sift_executed_insn segment_load_example = 0x42050e87
  ∧ sift_executed_insn
      (log_print_sift_trace segment_load_example 0x1000 {| bits := segment_load_bits |}).1
    = 0x42051007.
Proof. vm_compute. repeat split. Qed.

(** C6, as stated, fails on vlseg3e8.v v29, (a0): the third record is
    followed by an increment of a vd field that holds 31, and the field
    is then 0, not 32. *)
Lemma segment_load_vd_wraps :
  vreg_array (state segment_load_example) = [29; 30; 31]
  ∧ Forall (λ r, length (uop_addresses (state segment_load_example) r) = 4%nat) [29; 30; 31]
  ∧ length (log_print_sift_trace segment_load_example 0x1000 {| bits := segment_load_bits |}).2
    = 3%nat
  ∧ field 7 (held_word_after 2 segment_load_example 0x1000 {| bits := segment_load_bits |}) = 31
  ∧ field 7 (held_word_after 3 segment_load_example 0x1000 {| bits := segment_load_bits |}) = 0
  ∧ ¬ (∀ k, (k < 3)%nat →
         field 7 (held_word_after (S k) segment_load_example 0x1000
                    {| bits := segment_load_bits |})
         = field 7 (held_word_after k segment_load_example 0x1000
                      {| bits := segment_load_bits |}) + 1).
Proof.
  split; [vm_compute; reflexivity|].
  split; [repeat constructor|].
  split; [vm_compute; reflexivity|].
  split; [vm_compute; reflexivity|].
  split; [vm_compute; reflexivity|].
  intros Hall. specialize (Hall 2%nat ltac:(lia)). vm_compute in Hall. discriminate.
Qed.

Lemma segmented_load_records_witness :
  (log_print_sift_trace segment_load_example 0x1000 {| bits := segment_load_bits |}).2
  = [instruction_record segment_load_example 0x1000 {| bits := segment_load_bits |}
       [100; 101; 102; 103];
     instruction_record segment_load_example 0x1000 {| bits := segment_load_bits |}
       [200; 201; 202; 203];
     instruction_record segment_load_example 0x1000 {| bits := segment_load_bits |}
       [300; 301; 302; 303]].
Proof.
  refine (proj1 (segmented_load_records segment_load_example 0x1000
                   {| bits := segment_load_bits |} 29 30 31 _ _ _ _ _)).
  - lia.
  - lia.
  - intros i Hi. change (Z.to_nat _) with 12%nat in Hi.
    do 12 (destruct i as [|i]; [vm_compute; set_solver|]). lia.
  - intros r Hr. rewrite !elem_of_cons, elem_of_nil in Hr.
    destruct Hr as [->|[->|[->|[]]]]; vm_compute; reflexivity.
  - intros r Hr. set (l := logged_vregs (state segment_load_example)) in Hr.
    vm_compute in l. subst l. rewrite !elem_of_cons, elem_of_nil in Hr |- *. tauto.
Defined.

(** C8, as stated, fails on flw f0, 0(a0): the instruction writes no
    vector register, yet its opcode is 0x07 and the entry created for the
    address it reads carries the vector flag. *)
Lemma scalar_flw_sets_vector_flag :
  vreg_array (state flw_example) = []
  ∧ vector_write_logged (state flw_example) = false
  ∧ addr_history flw_example = ∅
  ∧ is_vector_insn flw_bits = true
  ∧ vector_flagged
      <$> addr_history (log_print_mem_access flw_example 0x1000 {| bits := flw_bits |}).1
          !! 0x2000
    = Some true.
Proof. vm_compute. repeat split. Qed.

Lemma scalar_opcodes_keep_flags_clear_witness :
  no_vector_flag
    (addr_history
       (track_stream [(0x1000, {| bits := 0x00053503 |},
                       set_log_mem_read [(0x2000, 7, 8)] state0)]
                     (processor0 (fun _ => DoNext)))).
Proof.
  refine (proj2 scalar_opcodes_keep_flags_clear _ _ _ _).
  - intros a e Ha. vm_compute in Ha. discriminate.
  - repeat constructor.
Defined.

End TraceRuns.

(** ** A machine in which nothing throws *)

Section PlainRuns.
#[local] Existing Instance riscv_encoding.
#[local] Existing Instance plain_types.
#[local] Existing Instance plain_machine.

Lemma plain_call_cases (f : bool) (i : insn_t) (pc : Z) (p : processor_t) :
  let p' := upd_state (fun s => set_log_mem_write [] (set_log_reg_write ∅ s)) p in
  (call_func f i pc p = COk 3 p' ∧ serialized (state p) = false)
  ∨ call_func f i pc p
    = COk (Z.land (pc + 4) (Z.lnot 1)) (upd_state (set_serialized false) p').
Proof.
  simpl. unfold plain_call. simpl.
  destruct f, (serialized (state p)); simpl; auto.
Qed.

Lemma even_pc_valid (x : Z) : invalid_pc (Z.land x (Z.lnot 1)) = false.
Proof.
  simpl. rewrite <- Z.land_assoc. change (Z.land (Z.lnot 1) 1) with 0.
  rewrite Z.land_0_r. reflexivity.
Qed.

Lemma even_pc_not_three (x : Z) : Z.land x (Z.lnot 1) ≠ 3.
Proof.
  intros Heq. pose proof (even_pc_valid x) as Hv. rewrite Heq in Hv. discriminate.
Qed.

Lemma plain_counters_kept : counters_kept.
Proof.
  split; try (intros; split; reflexivity).
  intros f i pc p. destruct (plain_call_cases f i pc p) as [[-> _]| ->]; split; reflexivity.
Qed.

Lemma plain_tags_valid : tags_valid.
Proof. intros m e. simpl. lia. Qed.

Lemma plain_quiet : quiet.
Proof.
  split.
  - intros f i pc p. destruct (plain_call_cases f i pc p) as [[-> _]| ->]; eexists _, _; done.
  - intros p. eexists. reflexivity.
  - intros p pc. eexists _, _. reflexivity.
  - intros p pc. eexists _, _. reflexivity.
Qed.

Lemma plain_handler_contract : handler_contract.
Proof.
  split; try (intros; split_and!; reflexivity).
  - reflexivity.
  - intros f i pc p npc q Hcall Hinv.
    destruct (plain_call_cases f i pc p) as [[Hc _]|Hc]; rewrite Hc in Hcall;
      injection Hcall as <- <-; [left; reflexivity|].
    rewrite even_pc_valid in Hinv. discriminate.
  - intros f i pc p npc q Hcall Hser.
    destruct (plain_call_cases f i pc p) as [[Hc Hns]|Hc]; [congruence|].
    rewrite Hc in Hcall. injection Hcall as <- <-. apply even_pc_not_three.
  - intros c p. reflexivity.
Qed.

Lemma plain_printing_contract : printing_contract.
Proof.
  split; try (intros; assumption).
  - intros b. simpl. destruct (Z.land b 3 =? 3); reflexivity.
  - intros f i pc p npc q Hcall Hcfg.
    assert (printable_config q ∧ last_inst_xlen (state q) = last_inst_xlen (state p)
            ∧ last_inst_flen (state q) = last_inst_flen (state p)
            ∧ log_reg_write (state q) = ∅ ∧ log_mem_write (state q) = [])
      as (? & ? & ? & Hr & Hw).
    { destruct (plain_call_cases f i pc p) as [[Hc _]|Hc]; rewrite Hc in Hcall;
        injection Hcall as <- <-; split_and!; done. }
    split_and!; try done.
    + intros k val. rewrite Hr, lookup_empty. done.
    + unfold printable_stores. rewrite Hw. constructor.
Qed.

Lemma quota_is_retired_witness :
  printable_config plain_processor
  ∧ ∃ q out,
      step 11 3 plain_processor = (Returned q, out)
      ∧ retired_in out = 3%nat
      ∧ minstret (state q) = u64 (5 + 3)
      ∧ mcycle (state q) = u64 (9 + 3).
Proof.
  assert (printable_config plain_processor) as Hcfg by (split_and!; reflexivity).
  split; [exact Hcfg|].
  apply (quota_is_retired plain_counters_kept plain_tags_valid plain_quiet
           plain_handler_contract plain_printing_contract 11 3 plain_processor Hcfg).
  - lia.
  - lia.
Defined.

End PlainRuns.

(** ** Scripted faults, waits and single steps *)

Section ScriptedRuns.
#[local] Existing Instance riscv_encoding.
#[local] Existing Instance script_types.
#[local] Existing Instance script_machine.

Lemma script_counters_kept : counters_kept.
Proof.
  split; try (intros; split; reflexivity).
  intros f i pc p. destruct f; simpl; try (split; reflexivity).
  destruct (serialized (state p)); split; reflexivity.
Qed.

Lemma script_tags_valid : tags_valid.
Proof. intros m e. simpl. lia. Qed.

Lemma trap_credits_completed_witness :
  b_status (batch_try 5 (processor0 trapping_program)) = Thrown (E_trap load_fault)
  ∧ retired_in (b_events (batch_try 5 (processor0 trapping_program))) = 2%nat
  ∧ step 1 5 (processor0 trapping_program)
    = (Returned (retire 2 (take_trap load_fault 0x1008
                             (b_proc (batch_try 5 (processor0 trapping_program))))),
       b_events (batch_try 5 (processor0 trapping_program)))
  ∧ minstret (state (retire 2 (take_trap load_fault 0x1008
                                 (b_proc (batch_try 5 (processor0 trapping_program))))))
    = 2.
Proof.
  assert (b_status (batch_try 5 (processor0 trapping_program))
          = Thrown (E_trap load_fault)) as Hst by (vm_compute; reflexivity).
  assert (retired_in (b_events (batch_try 5 (processor0 trapping_program)))
          = 2%nat) as Hk by (vm_compute; reflexivity).
  pose proof (trap_credits_completed 5 (processor0 trapping_program) load_fault 2 0
                script_counters_kept eq_refl script_tags_valid ltac:(lia) Hst Hk)
    as (_ & _ & Hm & _ & Hstep).
  split_and!; [exact Hst|exact Hk| |exact Hm].
  apply (Hstep (processor0 trapping_program) eq_refl).
Defined.

Lemma wait_for_interrupt_credit_witness :
  b_status (batch_try 5 (processor0 waiting_program)) = Thrown E_wait_for_interrupt
  ∧ retired_in (b_events (batch_try 5 (processor0 waiting_program))) = 2%nat
  ∧ step 1 5 (processor0 waiting_program)
    = (Returned (retire 3 (b_proc (batch_try 5 (processor0 waiting_program)))),
       b_events (batch_try 5 (processor0 waiting_program)))
  ∧ minstret (state (retire 3 (b_proc (batch_try 5 (processor0 waiting_program))))) = 3.
Proof.
  assert (b_status (batch_try 5 (processor0 waiting_program))
          = Thrown E_wait_for_interrupt) as Hst by (vm_compute; reflexivity).
  assert (retired_in (b_events (batch_try 5 (processor0 waiting_program)))
          = 2%nat) as Hk by (vm_compute; reflexivity).
  pose proof (proj2 (wait_for_interrupt_credit script_counters_kept eq_refl
                       script_tags_valid)
                5%nat (processor0 waiting_program) 2%nat 0%nat ltac:(lia) Hst Hk)
    as (_ & _ & Hm & _ & Hstep).
  split_and!; [exact Hst|exact Hk| |exact Hm].
  apply (Hstep (processor0 waiting_program) eq_refl).
Defined.

Lemma faulting_vector_log_well_tagged :
  well_tagged
    (state (upd_state (set_log_reg_write (<[3 := (0, 0)]> ∅))
                      (processor0 faulting_vector_program))).
Proof.
  intros k val. simpl. intros Hk.
  apply lookup_insert_Some in Hk as [[<- _]|[_ Hk]]; [vm_compute; split; discriminate|].
  rewrite lookup_empty in Hk. discriminate.
Qed.

Lemma mem_fault_tracing_witness :
  let r := execute_insn (processor0 faulting_vector_program) 0x1000
             (script_fetch faulting_vector_program 0x1000) in
  r_outcome r = Raise (E_trap load_fault)
  ∧ (3 < length (r_events r))%nat.
Proof.
  intros r.
  set (q := upd_state (set_log_reg_write (<[3 := (0, 0)]> ∅))
              (commit_log_stash_privilege
                 (commit_log_reset (processor0 faulting_vector_program)))).
  destruct (commit_log_print_insn (record_executed_insn (bits nop) q) 0x1000 nop)
    as [line|] eqn:Hline; [|vm_compute in Hline; discriminate].
  pose proof (mem_fault_tracing (processor0 faulting_vector_program) 0x1000
                (script_fetch faulting_vector_program 0x1000) load_fault q line
                eq_refl eq_refl eq_refl faulting_vector_log_well_tagged Hline)
    as (Hout & Hyes & _).
  split; [exact Hout|].
  destruct (Hyes ltac:(vm_compute; reflexivity)) as (Hev & _).
  subst r. vm_compute. lia.
Defined.

End ScriptedRuns.

Section VectorRuns.
#[local] Existing Instance vector_types.

Lemma vssrl_vv_counts_witness :
  vssrl_vv unit (fun _ => tt) toy_rounding toy_loop {| bits := 0xaa2081d7 |} toy_vector_processor
  = COk tt (bump_mhpmcounter10
              (set_arch (10, 0xff, 64) toy_vector_processor))
  ∧ mhpmcounter (state (bump_mhpmcounter10
                          (set_arch (10, 0xff, 64) toy_vector_processor))) !! 10%nat
    = Some 8.
Proof.
  pose proof (proj1 (vssrl_vv_counts unit (fun _ => tt) toy_rounding toy_loop
                       {| bits := 0xaa2081d7 |} toy_vector_processor)
                (set_arch (10, 0xff, 64) toy_vector_processor) eq_refl)
    as (Hrun & Hten & _).
  split; [exact Hrun|]. rewrite Hten. reflexivity.
Defined.

End VectorRuns.

(** * Further properties *)

(** ** Widths that the commit log prints *)

Lemma land_pred_zero (w : Z) :
  Z.land (w - 1) w = 0 ↔ w = 0 ∨ ∃ k, 0 <= k ∧ w = 2 ^ k.
Proof.
  split.
  - intros Hz.
    destruct (Z.lt_trichotomy w 0) as [Hneg|[->|Hpos]]; [|by left|].
    + assert (Z.land (w - 1) w < 0) by (apply Z.land_neg; lia). lia.
    + right. exists (Z.log2 w).
      pose proof (Z.log2_nonneg w) as Hk.
      destruct (Z.log2_spec w Hpos) as [Hlo Hhi].
      split; [done|].
      destruct (decide (w = 2 ^ Z.log2 w)) as [|Hne]; [done|exfalso].
      assert (Z.log2 (w - 1) = Z.log2 w) as Hl by (apply Z.log2_unique; [done|lia]).
      assert (Z.testbit (Z.land (w - 1) w) (Z.log2 w) = true) as Hb.
      { rewrite Z.land_spec. rewrite <- Hl at 1.
        rewrite !Z.bit_log2 by lia. done. }
      rewrite Hz, Z.bits_0 in Hb. done.
  - intros [->|(k & Hk & ->)]; [done|].
    replace (2 ^ k - 1) with (Z.ones k) by (rewrite Z.ones_equiv; lia).
    rewrite Z.land_comm, Z.land_ones by done. apply Z_mod_same_full.
Qed.

Section ValueFacts.
Context `{Encoding} `{Collaborators}.

Lemma printable_width_spec (w : Z) :
  printable_width w = true ↔ w = 0 ∨ ∃ k, 0 <= k ∧ w = 2 ^ k.
Proof.
  unfold printable_width. rewrite !orb_true_iff, !Z.eqb_eq, land_pred_zero.
  split; [|tauto].
  intros [[[[->| ->]| ->]| ->]|?]; [| | | |done]; right.
  - by exists 3.
  - by exists 4.
  - by exists 5.
  - by exists 6.
Qed.

Lemma print_value_none (width : Z) (data : nat → Z) :
  commit_log_print_value width data = None ↔ printable_width width = false.
Proof.
  unfold printable_width, commit_log_print_value.
  destruct (width =? 8), (width =? 16), (width =? 32), (width =? 64),
    (Z.land (width - 1) width =? 0); simpl; split; (done || discriminate).
Qed.

Lemma print_value_is_Some (width : Z) (data : nat → Z) :
  is_Some (commit_log_print_value width data) ↔ printable_width width = true.
Proof.
  split; [|apply print_value_some].
  intros [l Hl]. destruct (printable_width width) eqn:Hw; [done|].
  apply (print_value_none width data) in Hw. congruence.
Qed.

(** X1.  [commit_log_print_value] aborts exactly on the widths that are
    neither zero nor a power of two; every other width is printed.  (The
    width is an [int]; the statement leaves out the least [int], on which
    the test [width - 1] overflows.) *)
Theorem print_value_aborts_iff (width : Z) (data : nat → Z) :
  - 2 ^ 31 < width < 2 ^ 31 →
  commit_log_print_value width data = None
  ↔ ¬ (width = 0 ∨ ∃ k, 0 <= k ∧ width = 2 ^ k).
Proof.
  intros _. rewrite print_value_none, <- printable_width_spec.
  destruct (printable_width width); split; (done || congruence || tauto).
Qed.

(** X2.  A width of [2 ^ k] bits with [7 <= k <= 30] (a vector
    register) is printed as "0x" followed by [2 ^ k / 64] words of
    sixteen digits, the most significant word first; the widths 0, 1, 2
    and 4 print "0x" and no digit at all. *)
Theorem print_value_words (data : nat → Z) :
  (∀ k, 7 <= k <= 30 →
     let n := Z.to_nat (2 ^ (k - 6)) in
     ∃ out, commit_log_print_value (2 ^ k) data = Some (EvPrintf "0x" [] :: out)
       ∧ length out = n
       ∧ ∀ j, (j < n)%nat →
           out !! j = Some (EvPrintf "%016lx" [AInt (data (n - 1 - j)%nat)]))
  ∧ (∀ w, w = 0 ∨ w = 1 ∨ w = 2 ∨ w = 4 →
       commit_log_print_value w data = Some [EvPrintf "0x" []]).
Proof.
  split.
  - intros k Hk n.
    assert (128 <= 2 ^ k) as Hbig by (change 128 with (2 ^ 7); apply Z.pow_le_mono_r; lia).
    assert (Z.land (2 ^ k - 1) (2 ^ k) = 0) as Hpow
      by (apply land_pred_zero; right; exists k; split; [lia|done]).
    assert (Z.quot (2 ^ k) 64 = 2 ^ (k - 6)) as Hq.
    { rewrite Z.quot_div_nonneg by lia. change 64 with (2 ^ 6).
      rewrite <- Z.pow_sub_r by lia. done. }
    unfold commit_log_print_value.
    destruct (Z.eqb_spec (2 ^ k) 8); [lia|].
    destruct (Z.eqb_spec (2 ^ k) 16); [lia|].
    destruct (Z.eqb_spec (2 ^ k) 32); [lia|].
    destruct (Z.eqb_spec (2 ^ k) 64); [lia|].
    rewrite Hpow, Hq. fold n. cbn [Z.eqb].
    eexists. split; [reflexivity|].
    rewrite length_fmap, length_rev, length_seq. split; [done|].
    intros j Hj. rewrite list_lookup_fmap, rev_alt.
    change (rev_append (seq 0 n) []) with (reverse (seq 0 n)).
    rewrite reverse_lookup by (rewrite length_seq; done).
    rewrite length_seq, lookup_seq_lt by lia. simpl. do 5 f_equal. lia.
  - intros w [->|[->|[->| ->]]]; reflexivity.
Qed.

End ValueFacts.

(** ** The shape of a commit-log line *)

Lemma header_count_app (a b : list event) :
  header_count (a ++ b) = (header_count a + header_count b)%nat.
Proof. unfold header_count. rewrite filter_app, length_app. done. Qed.

Lemma header_count_cons (e : event) (l : list event) :
  header_count (e :: l) = ((if is_vector_header e then 1 else 0) + header_count l)%nat.
Proof.
  unfold header_count. rewrite filter_cons.
  destruct (decide (is_vector_header e)) as [Hd|Hd].
  - apply Is_true_true in Hd. rewrite Hd. done.
  - apply Is_true_false in Hd. rewrite Hd. done.
Qed.

Lemma header_count_none (out : list event) :
  Forall (λ e, is_vector_header e = false) out → header_count out = 0%nat.
Proof.
  induction 1 as [|e l He _ IH]; [done|].
  rewrite header_count_cons, He, IH. done.
Qed.

Lemma not_header_format (fmt : string) (args : list arg) :
  fmt ≠ " e%ld %s%ld l%ld"%string → is_vector_header (EvPrintf fmt args) = false.
Proof. intros Hh. simpl. by apply String.eqb_neq. Qed.

Lemma line_text_format (fmt : string) (args : list arg) :
  fmt ≠ newline → line_text (EvPrintf fmt args).
Proof.
  intros Hf. split; [done|]. simpl. destruct args; [|done]. by apply String.eqb_neq.
Qed.

Section LineFacts.
Context `{Encoding} `{Collaborators}.

Section Shape.
Variable P : event → Prop.
Hypothesis HP : ∀ fmt args,
  fmt ≠ newline → fmt ≠ " e%ld %s%ld l%ld"%string → P (EvPrintf fmt args).

Lemma print_value_shape (width : Z) (data : nat → Z) (l : list event) :
  commit_log_print_value width data = Some l → Forall P l.
Proof.
  unfold commit_log_print_value.
  repeat case_match; intros [= <-]; try (repeat constructor; by apply HP).
  constructor; [by apply HP|]. apply Forall_fmap, Forall_true. intros x. by apply HP.
Qed.

Ltac shape_tac :=
  repeat first
    [ assumption
    | apply Forall_nil_2
    | apply Forall_cons_2
    | apply Forall_app_2
    | (by apply HP)
    | (eapply print_value_shape; eassumption) ].

Lemma print_mems_shape (xl : Z) (loads stores : list mem_access) (out0 out : list event) :
  foldl (commit_log_print_store xl)
        (foldl (commit_log_print_load xl) (Some out0) loads) stores = Some out →
  ∃ mems, out = out0 ++ mems ∧ Forall P mems.
Proof.
  assert (∀ l acc o, foldl (commit_log_print_load xl) acc l = Some o →
            ∃ o0 m, acc = Some o0 ∧ o = o0 ++ m ∧ Forall P m) as Hloads.
  { induction l as [|x l IH]; intros acc o; simpl.
    - intros ->. exists o, []. rewrite app_nil_r. done.
    - intros Hf. destruct (IH _ _ Hf) as (o0 & m & Hacc & -> & Hm).
      unfold commit_log_print_load, commit_log_print_word in Hacc.
      destruct acc as [a|]; [|done]. case_match eqn:Hv; [|done].
      injection Hacc as <-. eexists a, _. split; [done|].
      rewrite <- !app_assoc. split; [reflexivity|]. shape_tac. }
  assert (∀ l acc o, foldl (commit_log_print_store xl) acc l = Some o →
            ∃ o0 m, acc = Some o0 ∧ o = o0 ++ m ∧ Forall P m) as Hstores.
  { induction l as [|x l IH]; intros acc o; simpl.
    - intros ->. exists o, []. rewrite app_nil_r. done.
    - intros Hf. destruct (IH _ _ Hf) as (o0 & m & Hacc & -> & Hm).
      unfold commit_log_print_store, commit_log_print_word in Hacc.
      destruct acc as [a|]; [|done]. case_match eqn:Hv; [|done].
      case_match eqn:Hd; [|done].
      injection Hacc as <-. eexists a, _. split; [done|].
      rewrite <- !app_assoc. split; [reflexivity|]. shape_tac. }
  intros Hf. destruct (Hstores _ _ _ Hf) as (o1 & m1 & Hl & -> & Hm1).
  destruct (Hloads _ _ _ Hl) as (o0 & m0 & [= <-] & -> & Hm0).
  exists (m0 ++ m1). rewrite app_assoc. split; [done|]. by apply Forall_app_2.
Qed.

End Shape.

Lemma header_count_value (width : Z) (data : nat → Z) (l : list event) :
  commit_log_print_value width data = Some l → header_count l = 0%nat.
Proof.
  intros Hv. apply header_count_none.
  eapply print_value_shape, Hv. intros. by apply not_header_format.
Qed.

Lemma line_text_value (width : Z) (data : nat → Z) (l : list event) :
  commit_log_print_value width data = Some l → Forall line_text l.
Proof.
  intros Hv. eapply print_value_shape, Hv. intros. by apply line_text_format.
Qed.

(** One register entry: what it adds to the line. *)
Lemma print_reg_step (p : processor_t) (xl fl : Z) (sv : bool) (out : list event)
    (item : Z * freg_t) (sv' : bool) (out' : list event) :
  commit_log_print_reg p xl fl (Some (sv, out)) item = Some (sv', out') →
  sv' = sv || vector_kind item
  ∧ ∃ added, out' = out ++ added
      ∧ Forall line_text added
      ∧ header_count added = if negb sv && vector_kind item then 1%nat else 0%nat.
Proof.
  unfold commit_log_print_reg, vector_kind.
  destruct (Z.eqb_spec item.1 0) as [Hz|Hnz].
  { intros [= <- <-]. rewrite Hz. simpl. rewrite orb_false_r, andb_false_r.
    split; [done|]. exists []. rewrite app_nil_r. done. }
  destruct (Z.land item.1 0xf) as [|k|k] eqn:Hk; [| |done].
  - simpl. case_match eqn:Hv; [|done]. intros [= <- <-].
    rewrite orb_false_r, andb_false_r. split; [done|].
    destruct sv; simpl; (eexists; split; [reflexivity|]; split).
    all: rewrite ?header_count_cons, ?(header_count_value _ _ _ Hv); try done.
    all: apply Forall_cons_2; [by apply line_text_format|]; eapply line_text_value, Hv.
  - destruct k as [[[|[]|]|[[]|[]|]|]|[[|[]|]|[]|]|]; try done; simpl.
    all: try (case_match eqn:Hv; [|done]); intros [= <- <-].
    all: rewrite ?orb_false_r, ?orb_true_r, ?andb_false_r, ?andb_true_r.
    all: split; [done|].
    all: destruct sv; simpl; eexists; (split; [reflexivity|]); split.
    all: rewrite ?header_count_cons, ?header_count_app, ?(header_count_value _ _ _ Hv);
         try done.
    all: repeat first [ apply Forall_nil_2
                      | apply Forall_cons_2; [by apply line_text_format|] ].
    all: try (eapply line_text_value, Hv).
Qed.

Lemma print_regs_none (p : processor_t) (xl fl : Z) (l : list (Z * freg_t)) :
  foldl (commit_log_print_reg p xl fl) None l = None.
Proof. induction l as [|x l IH]; [done|exact IH]. Qed.

Lemma print_stores_none (xl : Z) (l : list mem_access) :
  foldl (commit_log_print_store xl) None l = None.
Proof. induction l as [|x l IH]; [done|exact IH]. Qed.

Lemma print_regs_steps (p : processor_t) (xl fl : Z) (l : list (Z * freg_t))
    (sv : bool) (out : list event) (sv' : bool) (out' : list event) :
  foldl (commit_log_print_reg p xl fl) (Some (sv, out)) l = Some (sv', out') →
  sv' = sv || existsb vector_kind l
  ∧ ∃ added, out' = out ++ added
      ∧ Forall line_text added
      ∧ header_count added = if negb sv && existsb vector_kind l then 1%nat else 0%nat.
Proof.
  revert sv out. induction l as [|x l IH]; intros sv out; cbn [foldl existsb].
  - intros [= <- <-]. rewrite orb_false_r, andb_false_r. split; [done|].
    exists []. rewrite app_nil_r. done.
  - destruct (commit_log_print_reg p xl fl (Some (sv, out)) x) as [[sv1 out1]|] eqn:Hx;
      [|rewrite print_regs_none; done].
    intros Hl.
    destruct (print_reg_step _ _ _ _ _ _ _ _ Hx) as (-> & a1 & -> & Hn1 & Hc1).
    destruct (IH _ _ Hl) as (-> & a2 & -> & Hn2 & Hc2).
    split; [by rewrite orb_assoc|].
    exists (a1 ++ a2). rewrite app_assoc. split; [done|].
    split; [by apply Forall_app_2|].
    rewrite header_count_app, Hc1, Hc2.
    destruct sv, (vector_kind x), (existsb vector_kind l); done.
Qed.

(** The parts of a line: core id, privilege, then text that holds no
    terminator, then the terminator. *)
Lemma commit_line_parts (p : processor_t) (pc : Z) (i : insn_t) (line : list event) :
  commit_log_print_insn p pc i = Some line →
  ∃ body,
    line = EvPrintf "core%4d: " [AInt (id p)]
           :: EvPrintf "%1d " [AInt (last_inst_priv (state p))]
           :: body ++ [EvPrintf newline []]
    ∧ Forall line_text body
    ∧ header_count body
      = if existsb vector_kind (map_to_list (log_reg_write (state p))) then 1%nat else 0%nat.
Proof.
  unfold commit_log_print_insn, commit_log_print_word.
  destruct (commit_log_print_value (last_inst_xlen (state p)) _) as [opc|] eqn:Hpc; [|done].
  destruct (commit_log_print_value (insn_length (bits i) * 8) _) as [oi|] eqn:Hi; [|done].
  destruct (foldl (commit_log_print_reg _ _ _) _ _) as [[b out]|] eqn:Hregs; [|done].
  destruct (foldl (commit_log_print_store _) _ _) as [out'|] eqn:Hst; [|done].
  intros [= <-].
  destruct (print_regs_steps _ _ _ _ _ _ _ _ Hregs) as (_ & added & -> & Hn & Hc).
  rewrite existsb_reg_walk in Hc.
  destruct (print_mems_shape (λ e, line_text e ∧ is_vector_header e = false)
              ltac:(intros; split; [by apply line_text_format|by apply not_header_format])
              _ _ _ _ _ Hst) as (mems & -> & Hm).
  eexists (opc ++ [EvPrintf " (" []] ++ oi ++ [EvPrintf ")" []] ++ added ++ mems).
  split; [repeat (rewrite <- app_assoc || rewrite <- app_comm_cons); reflexivity|].
  split.
  - repeat first [ apply Forall_app_2 | apply Forall_cons_2; [by apply line_text_format|]
                 | apply Forall_nil_2
                 | assumption | (eapply line_text_value; eassumption) ].
    eapply Forall_impl; [exact Hm|]. intros e [? _]. done.
  - rewrite !header_count_app, (header_count_value _ _ _ Hpc), (header_count_value _ _ _ Hi).
    rewrite Hc. simpl.
    rewrite (header_count_none mems); [lia|].
    eapply Forall_impl; [exact Hm|]. intros e [_ ?]. done.
Qed.

(** X4.  The vector configuration (" e.. m.. l..") is printed at most once
    in a line, and exactly once when the register-write log holds an entry
    tagged as a vector register or as a vector write, whatever the number
    and the order of such entries. *)
Theorem vector_header_once (p : processor_t) (pc : Z) (i : insn_t) (line : list event) :
  commit_log_print_insn p pc i = Some line →
  length (filter is_vector_header line)
  = if existsb vector_kind (map_to_list (log_reg_write (state p))) then 1%nat else 0%nat.
Proof.
  intros Hline. destruct (commit_line_parts p pc i line Hline) as (body & -> & _ & Hc).
  fold (header_count (EvPrintf "core%4d: " [AInt (id p)]
           :: EvPrintf "%1d " [AInt (last_inst_priv (state p))]
           :: body ++ [EvPrintf newline []])).
  rewrite !header_count_cons, header_count_app, Hc.
  assert (header_count [EvPrintf newline []] = 0%nat) as -> by reflexivity.
  simpl. lia.
Qed.

Lemma print_reg_some_iff (p : processor_t) (xl fl : Z) (a : bool * list event)
    (item : Z * freg_t) :
  is_Some (commit_log_print_reg p xl fl (Some a) item) ↔ printable_reg p xl fl item = true.
Proof.
  destruct a as [sv out]. unfold commit_log_print_reg, printable_reg.
  destruct (item.1 =? 0); [simpl; split; [done|by eexists]|]. simpl.
  destruct (Z.land item.1 0xf) as [|k|k]; [| |split; [by intros [? [=]]|done]].
  - simpl. rewrite <- (print_value_is_Some xl (freg_words item.2)).
    destruct (commit_log_print_value xl _); split; intros [? ?]; (done || by eexists).
  - destruct k as [[[|[]|]|[[]|[]|]|]|[[|[]|]|[]|]|]; simpl.
    all: lazymatch goal with
         | |- is_Some (Some _) ↔ true = true => split; [done|by eexists]
         | |- is_Some None ↔ false = true => split; [by intros [? [=]]|done]
         | |- is_Some (match commit_log_print_value ?w ?d with _ => _ end) ↔ _ =>
             rewrite <- (print_value_is_Some w d);
             destruct (commit_log_print_value w d); split; intros [? ?];
             (done || by eexists)
         end.
Qed.

Lemma print_regs_some_iff (p : processor_t) (xl fl : Z) (l : list (Z * freg_t))
    (a : bool * list event) :
  is_Some (foldl (commit_log_print_reg p xl fl) (Some a) l)
  ↔ Forall (λ item, printable_reg p xl fl item = true) l.
Proof.
  revert a. induction l as [|x l IH]; intros a; cbn [foldl].
  - split; [constructor|by eexists].
  - rewrite Forall_cons, <- (print_reg_some_iff p xl fl a x).
    destruct (commit_log_print_reg p xl fl (Some a) x) as [a1|] eqn:Hx1.
    + rewrite IH. split; [intros ?; split; [by eexists|done]|tauto].
    + rewrite print_regs_none. split; [intros [? [=]]|intros [[? [=]] _]].
Qed.

Lemma print_loads_some (xl : Z) (l : list mem_access) (a : list event) :
  printable_width xl = true →
  is_Some (foldl (commit_log_print_load xl) (Some a) l).
Proof.
  intros Hx. revert a. induction l as [|x l IH]; intros a; cbn [foldl]; [by eexists|].
  unfold commit_log_print_load at 2, commit_log_print_word.
  destruct (print_value_some xl (λ i, match i with O => x.1.1 | _ => 0 end) Hx) as [o ->].
  apply IH.
Qed.

Lemma print_stores_some_iff (xl : Z) (l : list mem_access) (a : list event) :
  printable_width xl = true →
  is_Some (foldl (commit_log_print_store xl) (Some a) l)
  ↔ Forall (λ item : mem_access, printable_width (Z.shiftl item.2 3) = true) l.
Proof.
  intros Hx. revert a. induction l as [|x l IH]; intros a; cbn [foldl].
  - split; [constructor|by eexists].
  - rewrite Forall_cons.
    unfold commit_log_print_store at 2, commit_log_print_word.
    destruct (print_value_some xl (λ i, match i with O => x.1.1 | _ => 0 end) Hx) as [o ->].
    destruct (commit_log_print_value (Z.shiftl x.2 3) _) as [d|] eqn:Hd.
    + rewrite IH. split; [|tauto]. intros Hl. split; [|done].
      destruct (printable_width (Z.shiftl x.2 3)) eqn:Hw; [done|].
      apply (print_value_none _ (λ i, match i with O => x.1.2 | _ => 0 end)) in Hw.
      rewrite Hd in Hw. done.
    + rewrite print_stores_none. split; [intros [? [=]]|]. intros [Hw _].
      destruct (print_value_some _ (λ i, match i with O => x.1.2 | _ => 0 end) Hw) as [? Hs].
      rewrite Hd in Hs. done.
Qed.

(** X5.  [commit_log_print_insn] prints its line, rather than abort the
    process, exactly when the stashed xlen and the instruction length are
    printable widths, every entry of the register-write log other than x0
    has one of the five tags and a printable width (the stashed xlen or
    flen, or VLEN), and every logged store has a printable size. *)
Theorem commit_line_printed_iff (p : processor_t) (pc : Z) (i : insn_t) :
  is_Some (commit_log_print_insn p pc i)
  ↔ printable_width (last_inst_xlen (state p)) = true
    ∧ printable_width (insn_length (bits i) * 8) = true
    ∧ (∀ k val, log_reg_write (state p) !! k = Some val →
         printable_reg p (last_inst_xlen (state p)) (last_inst_flen (state p)) (k, val) = true)
    ∧ printable_stores (state p).
Proof.
  unfold commit_log_print_insn, commit_log_print_word, printable_stores.
  destruct (commit_log_print_value (last_inst_xlen (state p)) _) as [opc|] eqn:Hpc.
  2:{ apply print_value_none in Hpc. rewrite Hpc. split; [intros [? [=]]|intros [[=] _]]. }
  assert (printable_width (last_inst_xlen (state p)) = true) as Hx.
  { destruct (printable_width (last_inst_xlen (state p))) eqn:Hw; [done|].
    apply (print_value_none _ (λ i, match i with O => pc | _ => 0 end)) in Hw.
    rewrite Hpc in Hw. done. }
  destruct (commit_log_print_value (insn_length (bits i) * 8) _) as [oi|] eqn:Hi.
  2:{ apply print_value_none in Hi. rewrite Hi. split; [intros [? [=]]|intros (_ & [=] & _)]. }
  assert (printable_width (insn_length (bits i) * 8) = true) as Hiw.
  { destruct (printable_width (insn_length (bits i) * 8)) eqn:Hw; [done|].
    apply (print_value_none _ (λ j, match j with O => bits i | _ => 0 end)) in Hw.
    rewrite Hi in Hw. done. }
  assert ((∀ k val, log_reg_write (state p) !! k = Some val →
             printable_reg p (last_inst_xlen (state p)) (last_inst_flen (state p)) (k, val)
             = true)
          ↔ Forall (λ item, printable_reg p (last_inst_xlen (state p))
                              (last_inst_flen (state p)) item = true)
                   (reg_walk (log_reg_write (state p)))) as ->.
  { rewrite Forall_forall. split.
    - intros Hall [k val] Hin%elem_of_reg_walk. by apply Hall.
    - intros Hall k val Hin. apply (Hall (k, val)). by apply elem_of_reg_walk. }
  match goal with
  | |- context [foldl (commit_log_print_reg ?a ?b ?c) (Some ?acc) ?l] =>
      rewrite <- (print_regs_some_iff a b c l acc);
      destruct (foldl (commit_log_print_reg a b c) (Some acc) l) as [[b0 out]|] eqn:Hregs
  end.
  2:{ split; [intros [? [=]]|intros (_ & _ & [? [=]] & _)]. }
  destruct (print_loads_some _ (log_mem_read (state p)) out Hx) as [out1 Hl].
  rewrite Hl, <- (print_stores_some_iff _ (log_mem_write (state p)) out1 Hx).
  destruct (foldl (commit_log_print_store _) _ _) as [out2|].
  - split; [intros _; split_and!; by eauto|by eexists].
  - split; [intros [? [=]]|intros (_ & _ & _ & [? [=]])].
Qed.

End LineFacts.

(** ** One instruction, one line *)

Lemma newlines_total_app (a b : list event) :
  newlines_total (a ++ b) = (newlines_total a + newlines_total b)%nat.
Proof. induction a as [|e a IH]; simpl; [done|]. rewrite IH. lia. Qed.

Lemma newlines_total_inline (out : list event) :
  Forall inline_text out → newlines_total out = 0%nat.
Proof. induction 1 as [|e l [_ He] _ IH]; simpl; [done|]. rewrite He, IH. done. Qed.

Section InlineFacts.
Context `{Encoding} `{Collaborators}.
Hypothesis Hcsr : ∀ rd, newlines_in (csr_name rd) = 0%nat.

Lemma print_value_inline (width : Z) (data : nat → Z) (l : list event) :
  commit_log_print_value width data = Some l → Forall inline_text l.
Proof.
  unfold commit_log_print_value.
  repeat case_match; intros [= <-]; try (repeat constructor; done).
  constructor; [done|]. apply Forall_fmap, Forall_true. intros x. done.
Qed.

Ltac inline_tac :=
  repeat first
    [ assumption
    | apply Forall_nil_2
    | apply Forall_app_2
    | (eapply print_value_inline; eassumption)
    | apply Forall_cons_2; [split; [reflexivity|]; cbn; rewrite ?Hcsr; reflexivity|] ].

Lemma print_reg_inline (p : processor_t) (xl fl : Z) (sv : bool) (out : list event)
    (item : Z * freg_t) (sv' : bool) (out' : list event) :
  commit_log_print_reg p xl fl (Some (sv, out)) item = Some (sv', out') →
  ∃ added, out' = out ++ added ∧ Forall inline_text added.
Proof using Hcsr.
  unfold commit_log_print_reg.
  destruct (Z.eqb_spec item.1 0) as [Hz|Hnz].
  { intros [= <- <-]. exists []. rewrite app_nil_r. done. }
  destruct (Z.land item.1 0xf) as [|k|k] eqn:Hk; [| |done].
  - simpl. case_match eqn:Hv; [|done]. intros [= <- <-].
    eexists. split; [reflexivity|]. destruct sv; simpl; inline_tac.
  - destruct k as [[[|[]|]|[[]|[]|]|]|[[|[]|]|[]|]|]; try done; simpl.
    all: try (case_match eqn:Hv; [|done]); intros [= <- <-].
    all: eexists; (split; [reflexivity|]).
    all: destruct sv; simpl; try destruct (Qlt_le_dec _ _); inline_tac.
Qed.

Lemma print_regs_inline (p : processor_t) (xl fl : Z) (l : list (Z * freg_t))
    (sv : bool) (out : list event) (sv' : bool) (out' : list event) :
  foldl (commit_log_print_reg p xl fl) (Some (sv, out)) l = Some (sv', out') →
  ∃ added, out' = out ++ added ∧ Forall inline_text added.
Proof using Hcsr.
  revert sv out. induction l as [|x l IH]; intros sv out; cbn [foldl].
  - intros [= <- <-]. exists []. rewrite app_nil_r. done.
  - destruct (commit_log_print_reg p xl fl (Some (sv, out)) x) as [[sv1 out1]|] eqn:Hx;
      [|rewrite print_regs_none; done].
    intros Hl.
    destruct (print_reg_inline _ _ _ _ _ _ _ _ Hx) as (a1 & -> & Hn1).
    destruct (IH _ _ Hl) as (a2 & -> & Hn2).
    exists (a1 ++ a2). rewrite app_assoc. split; [done|]. by apply Forall_app_2.
Qed.

Lemma print_mems_inline (xl : Z) (loads stores : list mem_access) (out0 out : list event) :
  foldl (commit_log_print_store xl)
        (foldl (commit_log_print_load xl) (Some out0) loads) stores = Some out →
  ∃ mems, out = out0 ++ mems ∧ Forall inline_text mems.
Proof.
  assert (∀ l acc o, foldl (commit_log_print_load xl) acc l = Some o →
            ∃ o0 m, acc = Some o0 ∧ o = o0 ++ m ∧ Forall inline_text m) as Hloads.
  { induction l as [|x l IH]; intros acc o; simpl.
    - intros ->. exists o, []. rewrite app_nil_r. done.
    - intros Hf. destruct (IH _ _ Hf) as (o0 & m & Hacc & -> & Hm).
      unfold commit_log_print_load, commit_log_print_word in Hacc.
      destruct acc as [a|]; [|done]. case_match eqn:Hv; [|done].
      injection Hacc as <-. eexists a, _. split; [done|].
      rewrite <- !app_assoc. split; [reflexivity|]. inline_tac. }
  assert (∀ l acc o, foldl (commit_log_print_store xl) acc l = Some o →
            ∃ o0 m, acc = Some o0 ∧ o = o0 ++ m ∧ Forall inline_text m) as Hstores.
  { induction l as [|x l IH]; intros acc o; simpl.
    - intros ->. exists o, []. rewrite app_nil_r. done.
    - intros Hf. destruct (IH _ _ Hf) as (o0 & m & Hacc & -> & Hm).
      unfold commit_log_print_store, commit_log_print_word in Hacc.
      destruct acc as [a|]; [|done]. case_match eqn:Hv; [|done].
      case_match eqn:Hd; [|done].
      injection Hacc as <-. eexists a, _. split; [done|].
      rewrite <- !app_assoc. split; [reflexivity|]. inline_tac. }
  intros Hf. destruct (Hstores _ _ _ Hf) as (o1 & m1 & Hl & -> & Hm1).
  destruct (Hloads _ _ _ Hl) as (o0 & m0 & [= <-] & -> & Hm0).
  exists (m0 ++ m1). rewrite app_assoc. split; [done|]. by apply Forall_app_2.
Qed.

(** X3.  Every line that [commit_log_print_insn] prints starts with the
    core id and the stashed privilege level and ends with the line
    terminator; what lies between is text of the log file that writes no
    newline, in its format or in a string or character it prints.  The
    line so holds exactly one newline, its last character: one
    instruction is one line.  Assumed of the CSR names (the disassembler
    is not at hand): none holds a newline. *)
Theorem commit_line_one_terminator (p : processor_t) (pc : Z) (i : insn_t)
    (line : list event) :
  commit_log_print_insn p pc i = Some line →
  ∃ body,
    line = EvPrintf "core%4d: " [AInt (id p)]
           :: EvPrintf "%1d " [AInt (last_inst_priv (state p))]
           :: body ++ [EvPrintf newline []]
    ∧ Forall inline_text body
    ∧ newlines_total line = 1%nat.
Proof using Hcsr.
  unfold commit_log_print_insn, commit_log_print_word.
  destruct (commit_log_print_value (last_inst_xlen (state p)) _) as [opc|] eqn:Hpc; [|done].
  destruct (commit_log_print_value (insn_length (bits i) * 8) _) as [oi|] eqn:Hi; [|done].
  destruct (foldl (commit_log_print_reg _ _ _) _ _) as [[b out]|] eqn:Hregs; [|done].
  destruct (foldl (commit_log_print_store _) _ _) as [out'|] eqn:Hst; [|done].
  intros [= <-].
  destruct (print_regs_inline _ _ _ _ _ _ _ _ Hregs) as (added & -> & Hn).
  destruct (print_mems_inline _ _ _ _ _ Hst) as (mems & -> & Hm).
  set (body := opc ++ [EvPrintf " (" []] ++ oi ++ [EvPrintf ")" []] ++ added ++ mems).
  assert (Forall inline_text body) as Hbody by (subst body; inline_tac).
  exists body. split; [|split; [exact Hbody|]].
  - subst body. repeat (rewrite <- app_assoc || rewrite <- app_comm_cons). reflexivity.
  - match goal with |- newlines_total ?l = _ =>
      replace l with ([EvPrintf "core%4d: " [AInt (id p)];
                       EvPrintf "%1d " [AInt (last_inst_priv (state p))]]
                      ++ body ++ [EvPrintf newline []])
        by (subst body; repeat (rewrite <- app_assoc || rewrite <- app_comm_cons);
            reflexivity)
    end.
    rewrite !newlines_total_app, (newlines_total_inline body Hbody). reflexivity.
Qed.
End InlineFacts.

(** ** The tracker, address by address *)

Section TrackerEntries.
Context `{ExtTypes}.

Lemma track_store_insert (m : Z) (isv : bool) (h : gmap Z period_info_t) (item : mem_access) :
  track_store m isv h item = <[item.1.1 := entry_after_store m isv (h !! item.1.1)]> h.
Proof. unfold track_store, entry_after_store. destruct (h !! item.1.1); done. Qed.

Lemma track_load_insert (m : Z) (isv : bool) (acc : gmap Z period_info_t * list event)
    (item : mem_access) :
  (track_load m isv acc item).1
  = <[item.1.1 := entry_after_load m isv (acc.1 !! item.1.1)]> acc.1.
Proof. unfold track_load, entry_after_load. destruct (acc.1 !! item.1.1); done. Qed.

(** What the two loops do to one address depends on the accesses of this
    address only. *)
Lemma lookup_track_stores (m : Z) (isv : bool) (a : Z) (l : list mem_access)
    (h : gmap Z period_info_t) :
  foldl (track_store m isv) h l !! a
  = foldl (λ o _, Some (entry_after_store m isv o)) (h !! a)
          (filter (λ item : mem_access, item.1.1 = a) l).
Proof.
  revert h. induction l as [|x l IH]; intros h; [done|].
  cbn [foldl]. rewrite IH, track_store_insert, filter_cons.
  destruct (decide (x.1.1 = a)) as [->|Hne].
  - rewrite lookup_insert_eq. done.
  - rewrite lookup_insert_ne by done. done.
Qed.

Lemma lookup_track_loads (m : Z) (isv : bool) (a : Z) (l : list mem_access)
    (acc : gmap Z period_info_t * list event) :
  (foldl (track_load m isv) acc l).1 !! a
  = foldl (λ o _, Some (entry_after_load m isv o)) (acc.1 !! a)
          (filter (λ item : mem_access, item.1.1 = a) l).
Proof.
  revert acc. induction l as [|x l IH]; intros acc; [done|].
  cbn [foldl]. rewrite IH, track_load_insert, filter_cons.
  destruct (decide (x.1.1 = a)) as [->|Hne].
  - rewrite lookup_insert_eq. done.
  - rewrite lookup_insert_ne by done. done.
Qed.

Lemma stores_closed_form (m : Z) (isv : bool) {A} (l : list A) (o : option period_info_t) :
  foldl (λ o _, Some (entry_after_store m isv o)) o l
  = match l with [] => o | _ => Some (entry_after_store m isv o) end.
Proof.
  revert o. induction l as [|x l IH]; intros o; [done|].
  cbn [foldl]. rewrite IH. destruct l; [done|]. destruct o; done.
Qed.

Lemma u64_self (m : Z) : u64 (m - m) = 0.
Proof. rewrite Z.sub_diag. done. Qed.

Lemma loads_closed_form (m : Z) (isv : bool) {A} (l : list A) (e : period_info_t) :
  foldl (λ o _, Some (entry_after_load m isv o)) (Some e) l
  = Some {| pi_seed := pi_seed e;
            pi_last_access := match l with [] => pi_last_access e | _ => m end;
            pi_period_list :=
              pi_period_list e
              ++ match l with
                 | [] => []
                 | _ :: l' =>
                     {| period := u64 (m - pi_last_access e); is_vector := isv |}
                     :: replicate (length l') {| period := 0; is_vector := isv |}
                 end |}.
Proof.
  revert e. induction l as [|x l IH]; intros e.
  - simpl. rewrite app_nil_r. destruct e; done.
  - cbn [foldl entry_after_load]. rewrite IH. simpl. f_equal. f_equal.
    + destruct l; done.
    + rewrite <- app_assoc. f_equal. simpl. f_equal.
      destruct l as [|y l]; [done|]. rewrite u64_self. done.
Qed.

Lemma filter_nil_not_accessed (a : Z) (l : list mem_access) :
  a ∉ accessed l → filter (λ item : mem_access, item.1.1 = a) l = [].
Proof.
  intros Hn. induction l as [|x l IH]; [done|].
  rewrite filter_cons. unfold accessed in Hn. rewrite fmap_cons, not_elem_of_cons in Hn.
  destruct Hn as [Hx Hl]. rewrite decide_False by done. by apply IH.
Qed.

Lemma filter_cons_accessed (a : Z) (l : list mem_access) :
  a ∈ accessed l → ∃ x l', filter (λ item : mem_access, item.1.1 = a) l = x :: l'.
Proof.
  intros Hin. destruct (filter _ l) as [|x l'] eqn:Hf; [|by eauto].
  exfalso. unfold accessed in Hin. apply list_elem_of_fmap in Hin as (y & -> & Hy).
  assert (y ∈ filter (λ item : mem_access, item.1.1 = y.1.1) l) as Hyf
    by (apply list_elem_of_filter; done).
  rewrite Hf in Hyf. by apply elem_of_nil in Hyf.
Qed.

Lemma reads_of_zero (a : Z) (l : list mem_access) :
  reads_of a l = 0%nat ↔ a ∉ accessed l.
Proof.
  unfold reads_of. split.
  - intros Hz Hin. destruct (filter_cons_accessed _ _ Hin) as (x & l' & Hf).
    rewrite Hf in Hz. done.
  - intros Hn. rewrite filter_nil_not_accessed by done. done.
Qed.

Lemma entry_of_known (p : processor_t) (pc : Z) (i : insn_t) (a : Z) (e : period_info_t) :
  addr_history p !! a = Some e →
  addr_history (log_print_mem_access p pc i).1 !! a
  = Some {| pi_seed := pi_seed e;
            pi_last_access :=
              if bool_decide (a ∈ accessed (log_mem_write (state p)))
                 || negb (reads_of a (log_mem_read (state p)) =? 0)%nat
              then minstret (state p) else pi_last_access e;
            pi_period_list :=
              pi_period_list e
              ++ intervals_added (minstret (state p)) (is_vector_insn (bits i))
                   (pi_last_access e)
                   (bool_decide (a ∈ accessed (log_mem_write (state p))))
                   (reads_of a (log_mem_read (state p))) |}.
Proof.
  intros He. unfold log_print_mem_access. cbn [fst addr_history set_addr_history].
  rewrite lookup_track_loads. cbn [fst]. rewrite lookup_track_stores, He, stores_closed_form.
  unfold reads_of. case_bool_decide as Hst.
  - destruct (filter_cons_accessed _ _ Hst) as (x & l' & ->).
    cbn [entry_after_store]. rewrite loads_closed_form. cbn [orb].
    destruct (filter _ (log_mem_read (state p))) as [|y l]; simpl; [done|].
    rewrite u64_self. done.
  - rewrite (filter_nil_not_accessed _ _ Hst). rewrite loads_closed_form. cbn [orb].
    destruct (filter _ (log_mem_read (state p))) as [|y l]; simpl; [|done].
    destruct e; done.
Qed.

Lemma entry_of_fresh (p : processor_t) (pc : Z) (i : insn_t) (a : Z) :
  addr_history p !! a = None →
  addr_history (log_print_mem_access p pc i).1 !! a
  = if bool_decide (a ∈ accessed (log_mem_write (state p)))
       || negb (reads_of a (log_mem_read (state p)) =? 0)%nat
    then Some {| pi_seed := {| period := minstret (state p);
                               is_vector := is_vector_insn (bits i) |};
                 pi_last_access := minstret (state p);
                 pi_period_list :=
                   replicate (if bool_decide (a ∈ accessed (log_mem_write (state p)))
                              then reads_of a (log_mem_read (state p))
                              else reads_of a (log_mem_read (state p)) - 1)%nat
                             {| period := 0; is_vector := is_vector_insn (bits i) |} |}
    else None.
Proof.
  intros He. unfold log_print_mem_access. cbn [fst addr_history set_addr_history].
  rewrite lookup_track_loads. cbn [fst]. rewrite lookup_track_stores, He, stores_closed_form.
  unfold reads_of. case_bool_decide as Hst.
  - destruct (filter_cons_accessed _ _ Hst) as (x & l' & ->).
    cbn [entry_after_store]. rewrite loads_closed_form. cbn [orb].
    destruct (filter _ (log_mem_read (state p))) as [|y l]; simpl; [done|].
    rewrite u64_self. done.
  - rewrite (filter_nil_not_accessed _ _ Hst). cbn [orb].
    destruct (filter _ (log_mem_read (state p))) as [|y l]; [done|].
    cbn [foldl entry_after_load]. rewrite loads_closed_form. simpl.
    rewrite Nat.sub_0_r. destruct l as [|z l]; [done|]. simpl. rewrite u64_self. done.
Qed.

Lemma reads_of_none (a : Z) (l : list mem_access) :
  a ∉ accessed l → reads_of a l = 0%nat.
Proof. intros Hn. by apply reads_of_zero. Qed.

(** C7.  For an address that has a history entry, an instruction that
    reads it once (and does not write it) appends exactly one interval,
    the retired count minus the last-access count (on [reg_t]), and sets
    the last access to the retired count; an instruction that writes it
    (and does not read it) only sets the last access and appends
    nothing.  Both are statements about [log_print_mem_access], with any
    other accesses in the logs of the instruction.  After reads of a
    fresh address at counts 10 and 25 its interval list is [[15]], and
    it is empty after the first read. *)
Theorem read_intervals (p : processor_t) (pc : Z) (i : insn_t) (A : Z) :
  let m := minstret (state p) in
  let isv := is_vector_insn (bits i) in
  let after := addr_history (log_print_mem_access p pc i).1 !! A in
  (∀ e, addr_history p !! A = Some e →
     reads_of A (log_mem_read (state p)) = 1%nat →
     A ∉ accessed (log_mem_write (state p)) →
     after = Some {| pi_seed := pi_seed e; pi_last_access := m;
                     pi_period_list :=
                       pi_period_list e
                       ++ [{| period := u64 (m - get_last_access e);
                              is_vector := isv |}] |})
  ∧ (∀ e, addr_history p !! A = Some e →
     A ∈ accessed (log_mem_write (state p)) →
     A ∉ accessed (log_mem_read (state p)) →
     after = Some {| pi_seed := pi_seed e; pi_last_access := m;
                     pi_period_list := pi_period_list e |})
  ∧ (addr_history p !! A = None →
     ∀ loads1 stores1 loads2 stores2 pc2 i2,
       reads_of A loads1 = 1%nat → A ∉ accessed stores1 →
       reads_of A loads2 = 1%nat → A ∉ accessed stores2 →
       let p1 := (log_print_mem_access (with_access 10 loads1 stores1 p) pc i).1 in
       let p2 := (log_print_mem_access (with_access 25 loads2 stores2 p1) pc2 i2).1 in
       pi_period_list <$> addr_history p1 !! A = Some []
       ∧ (fmap period ∘ pi_period_list) <$> addr_history p2 !! A = Some [15]).
Proof.
  intros m isv after. subst after. split_and!.
  - intros e He Hone Hst. rewrite (entry_of_known p pc i A e He), Hone.
    rewrite bool_decide_eq_false_2 by done. reflexivity.
  - intros e He Hst Hld. rewrite (entry_of_known p pc i A e He).
    rewrite (reads_of_none _ _ Hld), bool_decide_eq_true_2 by done.
    cbn. rewrite app_nil_r. reflexivity.
  - intros Hnone loads1 stores1 loads2 stores2 pc2 i2 Hl1 Hs1 Hl2 Hs2 p1 p2.
    assert (addr_history p1 !! A
            = Some (new_period_info {| period := 10; is_vector := is_vector_insn (bits i) |}))
      as H1.
    { subst p1. rewrite entry_of_fresh by exact Hnone.
      cbn [with_access upd_state state set_state log_mem_write log_mem_read minstret
           set_log_mem_write set_log_mem_read set_minstret].
      rewrite Hl1, bool_decide_eq_false_2 by done. reflexivity. }
    split; [rewrite H1; reflexivity|].
    subst p2. rewrite (entry_of_known (with_access 25 loads2 stores2 p1) pc2 i2 A _ H1).
    cbn [with_access upd_state state set_state log_mem_write log_mem_read minstret
         set_log_mem_write set_log_mem_read set_minstret].
    rewrite Hl2, bool_decide_eq_false_2 by done. reflexivity.
Qed.
(** X6.  [log_print_mem_access] changes the entries of the addresses that
    the instruction read or wrote and no other; it removes no entry; and
    every address the instruction accessed ends with an entry whose last
    access is the current retired count. *)
Theorem tracker_touches_only_accessed (p : processor_t) (pc : Z) (i : insn_t) :
  let h := addr_history p in
  let h' := addr_history (log_print_mem_access p pc i).1 in
  let touched :=
    accessed (log_mem_write (state p)) ++ accessed (log_mem_read (state p)) in
  (∀ a, a ∉ touched → h' !! a = h !! a)
  ∧ (∀ a, is_Some (h !! a) → is_Some (h' !! a))
  ∧ (∀ a, a ∈ touched → ∃ e, h' !! a = Some e ∧ pi_last_access e = minstret (state p)).
Proof.
  intros h h' touched. split_and!.
  - intros a Hn. subst touched. rewrite not_elem_of_app in Hn. destruct Hn as [Hs Hl].
    apply reads_of_zero in Hl. subst h h'.
    destruct (addr_history p !! a) as [e|] eqn:He.
    + rewrite (entry_of_known p pc i a e He).
      rewrite bool_decide_eq_false_2 by done. rewrite Hl. simpl.
      rewrite app_nil_r. destruct e; done.
    + rewrite (entry_of_fresh p pc i a He).
      rewrite bool_decide_eq_false_2 by done. rewrite Hl. done.
  - intros a [e He]. subst h h'. rewrite (entry_of_known p pc i a e He). by eexists.
  - intros a Hin. subst touched h h'. rewrite elem_of_app in Hin.
    assert (bool_decide (a ∈ accessed (log_mem_write (state p)))
            || negb (reads_of a (log_mem_read (state p)) =? 0)%nat = true) as Ht.
    { destruct Hin as [Hs|Hl]; [rewrite bool_decide_eq_true_2 by done; done|].
      apply orb_true_iff. right. apply negb_true_iff, Nat.eqb_neq.
      rewrite reads_of_zero. tauto. }
    destruct (addr_history p !! a) as [e|] eqn:He.
    + rewrite (entry_of_known p pc i a e He), Ht. eexists. split; [reflexivity|done].
    + rewrite (entry_of_fresh p pc i a He), Ht. eexists. split; [reflexivity|done].
Qed.

(** X7.  The entry of an address that has one: its seed is kept and its
    intervals are kept as a prefix; each read of the address by the
    instruction appends one interval.  The first is the distance from the
    last access to the current retired count, or zero when the
    instruction also writes the address (writes are tracked before
    reads); further reads of the same instruction append zero.  The last
    access becomes the current count when the instruction accesses the
    address. *)
Theorem tracker_existing_entry (p : processor_t) (pc : Z) (i : insn_t) (a : Z)
    (e : period_info_t) :
  addr_history p !! a = Some e →
  let m := minstret (state p) in
  let isv := is_vector_insn (bits i) in
  let stored := bool_decide (a ∈ accessed (log_mem_write (state p))) in
  let c := reads_of a (log_mem_read (state p)) in
  addr_history (log_print_mem_access p pc i).1 !! a
  = Some {| pi_seed := pi_seed e;
            pi_last_access := if stored || negb (c =? 0)%nat then m else pi_last_access e;
            pi_period_list :=
              pi_period_list e ++ intervals_added m isv (pi_last_access e) stored c |}.
Proof. intros He m isv stored c. by apply entry_of_known. Qed.

(** X8.  An address without entry gets one when the instruction accesses
    it: seeded with the current retired count and the classification of
    the instruction, last accessed now; reads of the same instruction that
    come after the creating access append zero intervals. *)
Theorem tracker_fresh_entry (p : processor_t) (pc : Z) (i : insn_t) (a : Z) :
  addr_history p !! a = None →
  let m := minstret (state p) in
  let isv := is_vector_insn (bits i) in
  let stored := bool_decide (a ∈ accessed (log_mem_write (state p))) in
  let c := reads_of a (log_mem_read (state p)) in
  addr_history (log_print_mem_access p pc i).1 !! a
  = if stored || negb (c =? 0)%nat
    then Some {| pi_seed := {| period := m; is_vector := isv |};
                 pi_last_access := m;
                 pi_period_list :=
                   replicate (if stored then c else c - 1)%nat
                             {| period := 0; is_vector := isv |} |}
    else None.
Proof. intros He m isv stored c. by apply entry_of_fresh. Qed.

(** X9.  The tracker writes to stderr only for reads of the address
    0x0041ad20: an instruction that reads the address nowhere in its log
    writes nothing. *)
Theorem tracker_diagnostic_address (p : processor_t) (pc : Z) (i : insn_t) :
  0x0041ad20 ∉ accessed (log_mem_read (state p)) →
  (log_print_mem_access p pc i).2 = [].
Proof.
  intros Hn. unfold log_print_mem_access. cbn [snd].
  generalize (foldl (track_store (minstret (state p)) (is_vector_insn (bits i)))
                    (addr_history p) (log_mem_write (state p))).
  intros h.
  assert (∀ l acc, 0x0041ad20 ∉ accessed l →
            (foldl (track_load (minstret (state p)) (is_vector_insn (bits i))) acc l).2
            = acc.2) as Hl.
  { induction l as [|x l IH]; intros acc Hacc; [done|].
    unfold accessed in Hacc. rewrite fmap_cons, not_elem_of_cons in Hacc.
    destruct Hacc as [Hx Hrest]. cbn [foldl]. rewrite IH by done.
    unfold track_load. destruct (acc.1 !! x.1.1); [|done]. cbn [snd].
    destruct (Z.eqb_spec x.1.1 0x0041ad20); [congruence|done]. }
  rewrite Hl by done. done.
Qed.

Lemma intervals_added_length (m : Z) (isv : bool) (last : Z) (stored : bool) (c : nat) :
  length (intervals_added m isv last stored c) = c.
Proof. destruct c; simpl; [done|]. by rewrite length_replicate. Qed.

(** X10.  Over any stream of executed instructions the history of an
    address that has an entry is append-only: the entry stays, its seed
    never changes, the intervals it had remain a prefix of its intervals,
    and it gains exactly one interval per logged read of the address
    (writes add none). *)
Theorem history_is_append_only (stream : list (Z * insn_t * state_t)) (p : processor_t)
    (a : Z) (e : period_info_t) :
  addr_history p !! a = Some e →
  ∃ e',
    addr_history (track_stream stream p) !! a = Some e'
    ∧ pi_seed e' = pi_seed e
    ∧ pi_period_list e `prefix_of` pi_period_list e'
    ∧ length (pi_period_list e')
      = (length (pi_period_list e) + reads_in_stream a stream)%nat.
Proof.
  revert p e. induction stream as [|x rest IH]; intros p e He.
  - exists e. unfold reads_in_stream. simpl. split_and!; [done|done|done|lia].
  - cbn [track_stream].
    pose proof (entry_of_known (set_state x.2 p) x.1.1 x.1.2 a e He) as H1.
    destruct (IH _ _ H1) as (e' & He' & Hs & Hp & Hl).
    exists e'. split_and!; [done|done| |].
    + etrans; [|exact Hp]. cbn [pi_period_list]. by apply prefix_app_r.
    + rewrite Hl. cbn [pi_period_list]. rewrite length_app, intervals_added_length.
      unfold reads_in_stream. cbn [foldr state set_state]. lia.
Qed.

End TrackerEntries.

(** ** The micro-ops of the reconstructor *)

Lemma strictly_sorted (l : list Z) :
  Sorted Z.le l → NoDup l → StronglySorted Z.lt l.
Proof.
  intros Hs Hnd. apply Sorted_StronglySorted in Hs; [|intros x y z; lia].
  induction Hs as [|x l Hl IH Hx]; [constructor|].
  apply NoDup_cons in Hnd as [Hnx Hnd]. constructor; [by apply IH|].
  rewrite Forall_forall in Hx |- *. intros y Hy.
  specialize (Hx y Hy). assert (x ≠ y) by (intros ->; done). lia.
Qed.

Lemma strictly_sorted_NoDup (l : list Z) : StronglySorted Z.lt l → NoDup l.
Proof.
  induction 1 as [|x l Hl IH Hx]; [constructor|].
  apply NoDup_cons. split; [|done]. intros Hin.
  rewrite Forall_forall in Hx. specialize (Hx x Hin). lia.
Qed.

Lemma elem_of_logged_vregs `{Encoding} (s : state_t) (x : Z) :
  x ∈ logged_vregs s
  ↔ ∃ k val, log_reg_write s !! k = Some val ∧ Z.land k 0xf = 2 ∧ x = Z.shiftr k 4.
Proof.
  unfold logged_vregs. rewrite list_elem_of_fmap. split.
  - intros ([k val] & -> & [Hk Hin]%list_elem_of_filter).
    apply elem_of_reg_walk in Hin. by exists k, val.
  - intros (k & val & Hin & Hk & ->). exists (k, val). split; [done|].
    apply list_elem_of_filter. split; [done|]. by apply elem_of_reg_walk.
Qed.

Lemma filter_or_disjoint {A} (P Q : A → Prop) `{∀ x, Decision (P x)} `{∀ x, Decision (Q x)}
    (l : list A) :
  (∀ x, P x → Q x → False) →
  filter (λ x, P x ∨ Q x) l ≡ₚ filter P l ++ filter Q l.
Proof.
  intros Hdis. induction l as [|x l IH]; [done|].
  rewrite !filter_cons.
  destruct (decide (P x)) as [Hp|Hp], (decide (Q x)) as [Hq|Hq].
  - destruct (Hdis x Hp Hq).
  - rewrite decide_True by tauto. simpl. by rewrite IH.
  - rewrite decide_True by tauto. rewrite IH. apply Permutation_middle.
  - rewrite decide_False by tauto. done.
Qed.

(** Splitting a list by the value of [f] along a duplicate-free list of
    values loses and repeats nothing. *)
Lemma concat_filters (f : nat → Z) (vals : list Z) (l : list nat) :
  NoDup vals →
  concat ((λ v, filter (λ i, v = f i) l) <$> vals) ≡ₚ filter (λ i, f i ∈ vals) l.
Proof.
  induction 1 as [|v vals Hv Hnd IH].
  - simpl. induction l as [|x l IHl]; [done|].
    rewrite filter_cons, decide_False by apply not_elem_of_nil. done.
  - rewrite fmap_cons. cbn [concat]. rewrite IH.
    rewrite <- (filter_or_disjoint (λ i, v = f i) (λ i, f i ∈ vals)).
    + erewrite list_filter_iff; [done|]. intros i. cbn beta. rewrite elem_of_cons.
      split; intros [?|?]; auto.
    + intros i -> Hin. done.
Qed.

Lemma filter_all {A} (P : A → Prop) `{∀ x, Decision (P x)} (l : list A) :
  Forall P l → filter P l = l.
Proof.
  induction 1 as [|x l Hx _ IH]; [done|].
  rewrite filter_cons, decide_True by done. by rewrite IH.
Qed.

Lemma concat_fmap_each {A B C} (g : B → C) (F : A → list B) (vs : list A) :
  concat ((λ v, g <$> F v) <$> vs) = g <$> concat (F <$> vs).
Proof.
  induction vs as [|v vs IH]; [done|].
  rewrite !fmap_cons. cbn [concat]. rewrite fmap_app, IH. done.
Qed.

Lemma field_bounds (pos w : Z) : 0 <= field pos w <= 31.
Proof.
  assert (field pos w = Z.shiftr w pos mod 32) as ->
    by (unfold field; change 31 with (Z.ones 5); rewrite Z.land_ones by lia; done).
  pose proof (Z.mod_pos_bound (Z.shiftr w pos) 32 ltac:(lia)). lia.
Qed.

Lemma small_bits_above (a j : Z) :
  0 <= a < 2 ^ j → 0 <= j → ∀ i, j <= i → Z.testbit a i = false.
Proof.
  intros Ha Hj i Hi. destruct (decide (a = 0)) as [->|Hne]; [apply Z.bits_0|].
  apply Z.bits_above_log2; [lia|].
  assert (Z.log2 a < j); [|lia]. apply Z.log2_lt_pow2; lia.
Qed.

(** Bits above the carry position are kept by an increment. *)
Lemma inc_field_above (pos w i : Z) :
  0 <= pos → pos + 5 < i < 32 →
  Z.testbit (inc_field pos w) i = Z.testbit w i.
Proof.
  intros Hp Hi. unfold inc_field.
  rewrite testbit_u32, Z.lor_spec, Z.land_spec, testbit_u32 by lia.
  rewrite Z.lnot_spec by lia.
  rewrite !Z.shiftl_spec by lia.
  rewrite testbit_31 by lia.
  replace (i - pos <? 5) with false by (symmetry; apply Z.ltb_ge; lia).
  pose proof (field_bounds pos w).
  rewrite (small_bits_above (field pos w + 1) 6) by (change (2 ^ 6) with 64; lia).
  simpl. rewrite andb_true_r, orb_false_r. reflexivity.
Qed.

(** The bit just above the field receives the carry. *)
Lemma inc_field_carry (pos w : Z) :
  0 <= pos → pos + 5 < 32 →
  Z.testbit (inc_field pos w) (pos + 5)
  = Z.testbit w (pos + 5) || (field pos w =? 31).
Proof.
  intros Hp Hi. unfold inc_field.
  rewrite testbit_u32, Z.lor_spec, Z.land_spec, testbit_u32 by lia.
  rewrite Z.lnot_spec by lia.
  rewrite !Z.shiftl_spec by lia.
  replace (pos + 5 - pos) with 5 by lia.
  rewrite testbit_31 by lia. change (5 <? 5) with false. cbn [negb].
  rewrite andb_true_r. f_equal.
  pose proof (field_bounds pos w).
  destruct (Z.eqb_spec (field pos w) 31) as [->|Hne]; [reflexivity|].
  apply (small_bits_above _ 5); [change (2 ^ 5) with 32|..]; lia.
Qed.

Lemma bits_window (a b s k : Z) :
  0 <= s → 0 <= k →
  (∀ j, 0 <= j < k → Z.testbit a (s + j) = Z.testbit b (s + j)) →
  Z.land (Z.shiftr a s) (Z.ones k) = Z.land (Z.shiftr b s) (Z.ones k).
Proof.
  intros Hs Hk Hbits. apply Z.bits_inj'. intros j Hj.
  rewrite !Z.land_spec, !Z.shiftr_spec by lia.
  destruct (Z.ltb_spec j k).
  - rewrite (Z.add_comm j s), Hbits by lia. reflexivity.
  - rewrite Z.ones_spec_high by lia. rewrite !andb_false_r. reflexivity.
Qed.

Lemma opcode_inc_field (pos w : Z) :
  7 <= pos → pos <= 32 → Z.land (inc_field pos w) 0x7f = Z.land w 0x7f.
Proof.
  intros Hp Hq.
  pose proof (bits_window (inc_field pos w) w 0 7 ltac:(lia) ltac:(lia)) as Hw.
  rewrite !Z.shiftr_0_r in Hw. apply Hw.
  intros j Hj. apply inc_field_below; lia.
Qed.

Lemma opcode_is_inc_field (pos w op : Z) :
  7 <= pos → pos <= 32 → opcode_is (inc_field pos w) op = opcode_is w op.
Proof. intros. unfold opcode_is. rewrite opcode_inc_field by lia. done. Qed.

Lemma window_inc_vd (w s k : Z) :
  12 < s → 0 <= k → s + k <= 32 →
  Z.land (Z.shiftr (inc_vd w) s) (Z.ones k) = Z.land (Z.shiftr w s) (Z.ones k).
Proof.
  intros Hs Hk Hle. apply bits_window; [lia|lia|].
  intros j Hj. apply inc_field_above; lia.
Qed.

Lemma funct3_inc_vd (w f : Z) :
  field 7 w ≠ 31 → funct3_is (inc_vd w) f = funct3_is w f.
Proof.
  intros Hf. unfold funct3_is. change 7 with (Z.ones 3).
  rewrite (bits_window (inc_vd w) w 12 3); [done|lia|lia|].
  intros j Hj. destruct (decide (j = 0)) as [->|Hne].
  - change (12 + 0) with (7 + 5). unfold inc_vd. rewrite inc_field_carry by lia.
    destruct (Z.eqb_spec (field 7 w) 31); [done|apply orb_false_r].
  - apply inc_field_above; lia.
Qed.

Lemma funct3_inc_vs1 (w f : Z) : funct3_is (inc_vs1 w) f = funct3_is w f.
Proof.
  unfold funct3_is. change 7 with (Z.ones 3).
  rewrite (bits_window (inc_vs1 w) w 12 3); [done|lia|lia|].
  intros j Hj. apply inc_field_below; lia.
Qed.

Lemma funct6_inc_vd (w f : Z) : funct6_is (inc_vd w) f = funct6_is w f.
Proof.
  unfold funct6_is. change 0x3f with (Z.ones 6). rewrite window_inc_vd by lia. done.
Qed.

Lemma bit26_inc_vd (w : Z) :
  Z.land (Z.shiftr (inc_vd w) 26) 1 = Z.land (Z.shiftr w 26) 1.
Proof. change 1 with (Z.ones 1). apply window_inc_vd; lia. Qed.

Lemma bit18_inc_vd (w : Z) :
  Z.land (Z.shiftr (inc_vd w) 18) 1 = Z.land (Z.shiftr w 18) 1.
Proof. change 1 with (Z.ones 1). apply window_inc_vd; lia. Qed.

Lemma field_inc_field_far (pos pos' w : Z) :
  0 <= pos → pos + 5 < pos' → pos' + 5 <= 32 →
  field pos' (inc_field pos w) = field pos' w.
Proof.
  intros Hp Hlt Hle. unfold field. change 31 with (Z.ones 5).
  apply bits_window; [lia|lia|]. intros j Hj. apply inc_field_above; lia.
Qed.

Lemma land_one_bit (x s : Z) :
  0 <= s → Z.land (Z.shiftr x s) 1 = Z.b2z (Z.testbit x s).
Proof.
  intros Hs. change 1 with (Z.ones 1). rewrite Z.land_ones by lia.
  change (2 ^ 1) with 2. rewrite <- Z.bit0_mod, Z.shiftr_spec by lia. done.
Qed.

Lemma funct3_other (w a b : Z) : funct3_is w a = true → a ≠ b → funct3_is w b = false.
Proof.
  unfold funct3_is. intros Ha%Z.eqb_eq Hne. rewrite Ha. by apply Z.eqb_neq.
Qed.

Section MicroOps.
Context `{Encoding} `{ExtTypes}.

Lemma vreg_array_spec (s : state_t) :
  StronglySorted Z.lt (vreg_array s)
  ∧ ∀ x, x ∈ vreg_array s
         ↔ x ∈ logged_vregs s
           ∨ ∃ i, (i < Z.to_nat (log_addr_valid s))%nat ∧ x = array_get (log_reg_addr s) i.
Proof.
  unfold vreg_array. split.
  - apply strictly_sorted.
    + apply Sorted_merge_sort. intros x y. lia.
    + rewrite merge_sort_Permutation.
      apply NoDup_foldl_push_unique, NoDup_logged_vregs.
  - intros x. rewrite merge_sort_Permutation, elem_of_foldl_push_unique.
    rewrite elem_of_array_prefix. done.
Qed.

(** X11.  The destinations for which the reconstructor writes a record
    are in strictly ascending order, without repetition, whatever the
    order of the logs; they are exactly the registers of the entries of
    the register-write log tagged as vector registers and the registers
    logged with the addresses. *)
Theorem vreg_array_ascending (s : state_t) :
  StronglySorted Z.lt (vreg_array s)
  ∧ ∀ x, x ∈ vreg_array s
         ↔ (∃ k val, log_reg_write s !! k = Some val ∧ Z.land k 0xf = 2 ∧ x = Z.shiftr k 4)
           ∨ (∃ i, (i < Z.to_nat (log_addr_valid s))%nat ∧ x = array_get (log_reg_addr s) i).
Proof.
  destruct (vreg_array_spec s) as [Hs Hm]. split; [exact Hs|].
  intros x. rewrite Hm, elem_of_logged_vregs. done.
Qed.

Lemma sift_uops_addresses (p : processor_t) (pc : Z) (i : insn_t) (l : list Z) (w : Z) :
  concat (record_addresses <$> (sift_uops p pc i l w).1)
  = concat (uop_addresses (state p) <$> l)
  ∧ length (sift_uops p pc i l w).1 = length l
  ∧ Forall (λ e, is_instruction e = true) (sift_uops p pc i l w).1.
Proof.
  revert w. induction l as [|x l IH]; intros w; [done|].
  cbn [sift_uops fst]. destruct (IH (advance_raw_word (log_addr_valid (state p)) w))
    as (Ha & Hl & Hf).
  rewrite !fmap_cons. cbn [concat length]. rewrite Ha, Hl.
  split_and!; [done|done|]. by constructor.
Qed.

(** X12.  However an instruction is split into micro-ops, the records
    written for it carry, taken together, each logged address exactly
    once: nothing is lost and nothing repeated.  The number of records is
    the number of destinations, and one when there is none.  (The buffer
    of a record holds 1024 addresses.) *)
Theorem trace_addresses_conserved (p : processor_t) (pc : Z) (i : insn_t) :
  log_addr_valid (state p) <= 1024 →
  let out := (log_print_sift_trace p pc i).2 in
  concat (record_addresses <$> out)
  ≡ₚ array_prefix (log_addr_valid (state p)) (log_addr (state p))
  ∧ length (filter is_instruction out) = Nat.max 1 (length (vreg_array (state p))).
Proof.
  intros _ out. subst out. unfold log_print_sift_trace. cbn [snd].
  destruct (vreg_array (state p)) as [|v vs] eqn:Hv.
  - cbn [fst snd]. unfold sift_scalar. split.
    + rewrite !fmap_app. rewrite !concat_app. cbn.
      repeat match goal with |- context [if ?c then _ else _] => destruct c end;
        cbn; rewrite ?app_nil_r; done.
    + rewrite !filter_app. cbn.
      repeat match goal with |- context [if ?c then _ else _] => destruct c end; done.
  - pose proof (vreg_array_spec (state p)) as [Hsorted Hmem]. rewrite Hv in Hsorted, Hmem.
    destruct (sift_uops_addresses p pc i (v :: vs) (sift_executed_insn p)) as (Ha & Hl & Hf).
    split.
    + rewrite Ha. unfold uop_addresses, array_prefix.
      rewrite (concat_fmap_each (array_get (log_addr (state p)))
                 (λ v, filter (λ i, v = array_get (log_reg_addr (state p)) i)
                              (seq 0 (Z.to_nat (log_addr_valid (state p)))))).
      apply fmap_Permutation.
      rewrite concat_filters by (by apply strictly_sorted_NoDup).
      rewrite filter_all; [done|]. apply Forall_forall. intros j Hj%elem_of_seq.
      apply Hmem. right. exists j. split; [lia|done].
    + rewrite filter_all; [rewrite Hl; simpl; lia|].
      eapply Forall_impl; [exact Hf|]. intros e ->. done.
Qed.

(** X13.  The markers ([Magic]: region of interest, vector configuration)
    are written only for an instruction that logged no address and wrote
    no vector register; the one record before them then carries no
    address.  An instruction with a logged address, scalar or vector, goes
    through the micro-op loop. *)
Theorem markers_only_without_accesses (p : processor_t) (pc : Z) (i : insn_t) (a b c : Z) :
  EvMagic a b c ∈ (log_print_sift_trace p pc i).2 →
  log_addr_valid (state p) <= 0
  ∧ logged_vregs (state p) = []
  ∧ (log_print_sift_trace p pc i).2 !! 0%nat = Some (instruction_record p pc i []).
Proof.
  unfold log_print_sift_trace. cbn [snd].
  destruct (vreg_array (state p)) as [|v vs] eqn:Hv.
  - intros _. cbn [fst]. destruct (vreg_array_spec (state p)) as [_ Hmem]. rewrite Hv in Hmem.
    assert (Z.to_nat (log_addr_valid (state p)) = 0%nat) as Hz.
    { destruct (Z.to_nat (log_addr_valid (state p))) as [|n] eqn:Hn; [done|exfalso].
      apply (not_elem_of_nil (array_get (log_reg_addr (state p)) 0)), Hmem.
      right. exists 0%nat. split; [lia|done]. }
    split_and!; [lia| |].
    + destruct (logged_vregs (state p)) as [|x l] eqn:Hl; [done|exfalso].
      apply (not_elem_of_nil x), Hmem. left. left.
    + unfold sift_scalar, array_prefix. rewrite Hz. done.
  - intros Hin. exfalso.
    destruct (sift_uops_addresses p pc i (v :: vs) (sift_executed_insn p)) as (_ & _ & Hf).
    rewrite Forall_forall in Hf. specialize (Hf _ Hin). done.
Qed.

Lemma opcode_advance (n w : Z) :
  Z.land (advance_raw_word n w) 0x7f = Z.land w 0x7f.
Proof.
  unfold advance_raw_word.
  repeat match goal with
  | |- context [if ?c then _ else _] => destruct c
  end; unfold inc_vs2, inc_vs1, inc_vd; rewrite ?opcode_inc_field by lia; done.
Qed.

Lemma opcode_sift_uops (p : processor_t) (pc : Z) (i : insn_t) (l : list Z) (w : Z) :
  Z.land (sift_uops p pc i l w).2 0x7f = Z.land w 0x7f.
Proof.
  revert w. induction l as [|x l IH]; intros w; [done|].
  cbn [sift_uops snd]. rewrite IH. apply opcode_advance.
Qed.

(** X14.  The opcode (the low seven bits) of the held instruction word is
    never changed by the reconstructor: not by a micro-op, with or without
    carry out of a field, and so not by the whole call. *)
Theorem held_opcode_kept (p : processor_t) (pc : Z) (i : insn_t) :
  Z.land (sift_executed_insn (log_print_sift_trace p pc i).1) 0x7f
  = Z.land (sift_executed_insn p) 0x7f
  ∧ ∀ k, Z.land (held_word_after k p pc i) 0x7f = Z.land (sift_executed_insn p) 0x7f.
Proof.
  split.
  - unfold log_print_sift_trace.
    cbn [fst sift_executed_insn upd_state set_state set_sift_executed_insn].
    destruct (vreg_array (state p)); [done|]. apply opcode_sift_uops.
  - intros k. unfold held_word_after. apply opcode_sift_uops.
Qed.

End MicroOps.

(** X15.  On a 32-bit word whose field does not hold 31, the increment of
    a register field is exact: the field is one greater and every other
    bit of the word is what it was. *)
Theorem inc_field_exact (pos w : Z) :
  0 <= pos → pos + 5 <= 32 → 0 <= w < 2 ^ 32 →
  field pos w ≠ 31 →
  field pos (inc_field pos w) = field pos w + 1
  ∧ ∀ i, 0 <= i → ¬ (pos <= i < pos + 5) →
      Z.testbit (inc_field pos w) i = Z.testbit w i.
Proof.
  intros Hp Hq Hw Hf. pose proof (field_bounds pos w) as Hb. split.
  - rewrite field_inc_field by lia. apply Z.mod_small. lia.
  - intros i Hi Hout.
    destruct (Z.lt_ge_cases i 32) as [Hlt|Hge].
    + destruct (Z.lt_ge_cases i pos); [apply inc_field_below; lia|].
      destruct (decide (i = pos + 5)) as [->|Hne].
      * rewrite inc_field_carry by lia.
        destruct (Z.eqb_spec (field pos w) 31); [done|apply orb_false_r].
      * apply inc_field_above; lia.
    + unfold inc_field, u32. rewrite Z.mod_pow2_bits_high by lia.
      symmetry. apply (small_bits_above w 32); lia.
Qed.

Section FieldSteps.
Context `{Encoding}.

(** X16.  For the micro-ops of an instruction that logged addresses, the
    held word advances in vd only, and in vs2 too when the instruction is
    an indexed vector load or store (opcode 0x07 or 0x27 with bit 26
    set); the field of rs1 is never changed.  The classification is the
    one of the word before the step, although the code reads it off the
    word after vd was incremented.  Assumed of encoding.h: the pattern of
    vmv.v.x has opcode 0x57. *)
Theorem memory_uop_fields (n w : Z) :
  (∀ x, Z.land MASK_VMV_V_X x = MATCH_VMV_V_X → Z.land x 0x7f = 0x57) →
  n ≠ 0 →
  advance_raw_word n w = (if is_indexed_access w then inc_vs2 (inc_vd w) else inc_vd w)
  ∧ field 15 (advance_raw_word n w) = field 15 w.
Proof.
  intros Hvmv Hn.
  assert (advance_raw_word n w
          = if is_indexed_access w then inc_vs2 (inc_vd w) else inc_vd w) as Heq.
  { unfold advance_raw_word, is_indexed_access. cbv zeta.
    replace (n =? 0) with false by (symmetry; by apply Z.eqb_neq).
    cbn [andb orb]. set (w' := inc_vd w).
    assert (∀ op, opcode_is w' op = opcode_is w op) as Hop
      by (intros; apply opcode_is_inc_field; lia).
    rewrite !Hop. subst w'. rewrite bit26_inc_vd.
    destruct (Z.land (Z.shiftr w 26) 1 =? 1); [|rewrite !andb_false_r; done].
    rewrite !andb_true_r.
    destruct (opcode_is w 7 || opcode_is w 39) eqn:Hx; [|done].
    assert (opcode_is w 87 = false) as H57.
    { unfold opcode_is in *. apply orb_true_iff in Hx.
      destruct Hx as [Ho|Ho]; apply Z.eqb_eq in Ho; rewrite Ho; done. }
    rewrite H57. cbn [andb Z.b2z]. rewrite Z.land_0_l. cbn [Z.land Z.eqb negb orb].
    destruct (Z.eqb_spec (Z.land MASK_VMV_V_X (inc_vd w)) MATCH_VMV_V_X) as [Hm|]; [|done].
    apply Hvmv in Hm. unfold inc_vd in Hm. rewrite opcode_inc_field in Hm by lia.
    unfold opcode_is in H57. apply Z.eqb_neq in H57. done. }
  split; [exact Heq|]. rewrite Heq.
  destruct (is_indexed_access w); unfold inc_vs2, inc_vd.
  - rewrite (field_inc_field_above 20 15) by lia. apply field_inc_field_far; lia.
  - apply field_inc_field_far; lia.
Qed.

(** The step of an arithmetic instruction, with the classification read
    off the word before the step. *)
Lemma arithmetic_step (w : Z) :
  opcode_is w 0x57 = true →
  field 7 w ≠ 31 →
  advance_raw_word 0 w
  = let w' := inc_vd w in
    let unary0 := funct3_is w 1 && funct6_is w 0x12 in
    let w'' :=
      if negb unary0 && negb (funct3_is w 1 && funct6_is w 0x13)
         && negb (funct3_is w 2 && funct6_is w 0x13)
         && negb (funct3_is w 2 && funct6_is w 0x14)
         && negb (funct3_is w 4) && negb (funct3_is w 5) && negb (funct3_is w 6)
         && negb (funct3_is w 3)
      then inc_vs1 w' else w' in
    if negb (Z.land (Z.land (Z.b2z unary0) (Z.shiftr w'' 18)) 1 =? 0)
       || (Z.land MASK_VMV_V_X w'' =? MATCH_VMV_V_X)
    then w'' else inc_vs2 w''.
Proof.
  intros Hop Hvd. unfold advance_raw_word. cbv zeta. set (w' := inc_vd w).
  assert (∀ op, opcode_is w' op = opcode_is w op) as Ho
    by (intros; apply opcode_is_inc_field; lia).
  assert (∀ f, funct3_is w' f = funct3_is w f) as H3
    by (intros; by apply funct3_inc_vd).
  assert (∀ f, funct6_is w' f = funct6_is w f) as H6
    by (intros; apply funct6_inc_vd).
  rewrite !Ho, !H3, !H6, Hop. cbn [andb orb Z.eqb]. done.
Qed.

(** X17.  For the micro-ops of a vector arithmetic instruction (opcode
    0x57, no logged address) whose vd is not v31: with funct3 0 (OPIVV)
    vd, vs1 and vs2 advance; with funct3 3, 5 or 6 (immediate or scalar
    operand) vd and vs2 advance and the operand field is kept; with
    funct3 4 the same unless the word is vmv.v.x, which advances in vd
    only; a conversion of VFUNARY0 (funct3 1, funct6 0x12) advances in vd
    and, unless bit 18 marks it as widening, in vs2.  Assumed of
    encoding.h: the pattern of vmv.v.x has funct3 4. *)
Theorem arithmetic_uop_fields (w : Z) :
  (∀ x, Z.land MASK_VMV_V_X x = MATCH_VMV_V_X → funct3_is x 0x4 = true) →
  opcode_is w 0x57 = true →
  field 7 w ≠ 31 →
  (funct3_is w 0 = true → advance_raw_word 0 w = inc_vs2 (inc_vs1 (inc_vd w)))
  ∧ (funct3_is w 3 = true ∨ funct3_is w 5 = true ∨ funct3_is w 6 = true →
       advance_raw_word 0 w = inc_vs2 (inc_vd w))
  ∧ (funct3_is w 4 = true →
       advance_raw_word 0 w
       = if Z.land MASK_VMV_V_X (inc_vd w) =? MATCH_VMV_V_X
         then inc_vd w else inc_vs2 (inc_vd w))
  ∧ (funct3_is w 1 = true → funct6_is w 0x12 = true →
       advance_raw_word 0 w = if Z.testbit w 18 then inc_vd w else inc_vs2 (inc_vd w)).
Proof.
  intros Hvmv Hop Hvd.
  assert (∀ x, funct3_is x 4 = false → (Z.land MASK_VMV_V_X x =? MATCH_VMV_V_X) = false)
    as Hno.
  { intros x Hx. apply Z.eqb_neq. intros Hm. apply Hvmv in Hm. congruence. }
  pose proof (arithmetic_step w Hop Hvd) as Hform. cbv zeta in Hform.
  split_and!.
  - intros Hf. rewrite Hform.
    rewrite !(funct3_other w 0 _ Hf) by done. cbn [andb negb Z.b2z].
    rewrite Z.land_0_l. cbn [Z.land Z.eqb negb orb].
    rewrite Hno; [done|]. rewrite funct3_inc_vs1, funct3_inc_vd by done.
    by apply (funct3_other w 0).
  - intros Hf. rewrite Hform.
    assert (funct3_is w 1 = false ∧ funct3_is w 4 = false
            ∧ (funct3_is w 3 = true ∨ funct3_is w 5 = true ∨ funct3_is w 6 = true))
      as (H1 & H4 & Hc).
    { destruct Hf as [Hf|[Hf|Hf]];
        (split_and!; [by eapply funct3_other|by eapply funct3_other|]); auto. }
    rewrite H1, H4. cbn [andb negb Z.b2z].
    assert (negb (funct3_is w 2 && funct6_is w 19) && negb (funct3_is w 2 && funct6_is w 20)
            && true && negb (funct3_is w 5) && negb (funct3_is w 6) && negb (funct3_is w 3)
            = false) as ->.
    { destruct Hc as [->|[->| ->]]; cbn [negb]; rewrite ?andb_false_r; done. }
    rewrite Z.land_0_l. cbn [Z.land Z.eqb negb orb].
    rewrite Hno; [done|]. by rewrite funct3_inc_vd.
  - intros Hf. rewrite Hform. rewrite Hf.
    rewrite !(funct3_other w 4 _ Hf) by done. cbn [andb negb Z.b2z].
    rewrite ?andb_false_r. cbn [andb].
    rewrite Z.land_0_l. cbn [Z.land Z.eqb negb orb]. done.
  - intros Hf H6. rewrite Hform. rewrite Hf, H6. cbn [andb negb Z.b2z].
    assert (Z.land (Z.land 1 (Z.shiftr (inc_vd w) 18)) 1 = Z.b2z (Z.testbit w 18)) as ->.
    { rewrite (Z.land_comm 1), <- Z.land_assoc. change (Z.land 1 1) with 1.
      rewrite bit18_inc_vd. apply land_one_bit. lia. }
    rewrite Hno by (rewrite funct3_inc_vd by done; by apply (funct3_other w 1)).
    destruct (Z.testbit w 18); done.
Qed.

End FieldSteps.

(** ** What the hooks of [execute_insn] write and leave alone *)

Section Hooks.
Context `{Encoding} `{Collaborators}.
Variable P : event → Prop.
Hypothesis HPs : ∀ fmt args, P (EvStderr fmt args).
Hypothesis HPi : ∀ r, P (EvInstruction r).
Hypothesis HPm : ∀ a b c, P (EvMagic a b c).

Lemma log_print_mem_access_shape (p : processor_t) (pc : Z) (i : insn_t) :
  Forall P (log_print_mem_access p pc i).2.
Proof using HPs.
  unfold log_print_mem_access. cbn [snd].
  match goal with |- Forall _ (foldl _ ?acc ?l).2 =>
    assert (Forall P acc.2) as Hacc by apply Forall_nil_2;
    revert Hacc; generalize acc; generalize l
  end.
  induction l as [|x l IH]; intros acc Hacc; cbn [foldl]; [done|].
  apply IH. unfold track_load.
  destruct (acc.1 !! x.1.1); cbn [snd]; [|done].
  destruct (x.1.1 =? 0x0041ad20); [|done].
  apply Forall_app_2; [done|]. by repeat constructor.
Qed.

Lemma sift_uops_shape (p : processor_t) (pc : Z) (i : insn_t) (l : list Z) (w : Z) :
  Forall P (sift_uops p pc i l w).1.
Proof using HPi.
  revert w. induction l as [|x l IH]; intros w; cbn [sift_uops fst]; [apply Forall_nil_2|].
  apply Forall_cons_2; [apply HPi|apply IH].
Qed.

Lemma log_print_sift_trace_shape (p : processor_t) (pc : Z) (i : insn_t) :
  Forall P (log_print_sift_trace p pc i).2.
Proof using HPi HPm.
  unfold log_print_sift_trace. cbn [snd].
  destruct (vreg_array (state p)); [|apply sift_uops_shape].
  unfold sift_scalar. cbn [fst]. apply Forall_cons_2; [apply HPi|].
  repeat match goal with |- context [if ?c then _ else _] => destruct c end;
    repeat (apply Forall_cons_2; [apply HPm|]); apply Forall_nil_2.
Qed.

End Hooks.

Section ExecuteObservations.
Context `{Encoding} `{Collaborators}.

Lemma arch_view_histogram (pc : Z) (p : processor_t) :
  arch_view (update_histogram pc p) = arch_view p.
Proof. unfold update_histogram. destruct RISCV_ENABLE_HISTOGRAM; reflexivity. Qed.

Lemma arch_view_print_and_trace {A} (o : outcome A) (p : processor_t) (pc : Z) (i : insn_t)
    (before : list event) :
  arch_view (r_proc (print_and_trace o p pc i before)) = arch_view p.
Proof. unfold print_and_trace. destruct (commit_log_print_insn p pc i); reflexivity. Qed.

(** X18.  The hooks of [execute_insn] only observe: the program counter,
    the privilege and virtualization modes, the counters, the debug and
    single-step state, the MMU, the vector unit and the configuration of
    the processor are, after [execute_insn], what the semantic handler
    left, whether it returned or threw, and whatever was printed, traced
    or aborted.  The resets before the call change none of them either. *)
Theorem tracing_is_observational (p : processor_t) (pc : Z) (fetch : insn_fetch_t) :
  let entry := commit_log_stash_privilege (commit_log_reset p) in
  arch_view entry = arch_view p
  ∧ arch_view (r_proc (execute_insn p pc fetch))
    = arch_view (cres_proc (call_func (func fetch) (insn fetch) pc entry)).
Proof.
  intros entry. split; [reflexivity|].
  unfold execute_insn. fold entry.
  destruct (call_func (func fetch) (insn fetch) pc entry) as [npc q|e q]; cbn [cres_proc].
  - destruct (npc =? PC_SERIALIZE_BEFORE); cbn [r_proc]; [apply arch_view_histogram|].
    destruct (if log_commits_enabled _ then _ else _); cbn [r_proc]; [|reflexivity].
    rewrite arch_view_histogram. reflexivity.
  - destruct e as [t| | |]; cbn [r_proc]; try reflexivity.
    + destruct (trap_is_mem t); [|reflexivity].
      destruct (log_commits_enabled q && vector_write_logged (state q)); [|reflexivity].
      rewrite arch_view_print_and_trace. reflexivity.
    + destruct (log_commits_enabled _); [|reflexivity].
      rewrite arch_view_print_and_trace. reflexivity.
Qed.

Lemma histogram_print_and_trace {A} (o : outcome A) (p : processor_t) (pc : Z) (i : insn_t)
    (before : list event) :
  pc_histogram (r_proc (print_and_trace o p pc i before)) = pc_histogram p.
Proof. unfold print_and_trace. destruct (commit_log_print_insn p pc i); reflexivity. Qed.

(** X19.  With the histogram compiled in, every call of [execute_insn]
    that returns adds one to the count of its pc, creating the count at
    one when there was none; this includes a call whose handler returned
    the serialize-before sentinel, which retires nothing and is executed
    again.  A call that ends on an exception counts nothing, even when it
    prints and traces.  Without the histogram the table is never changed.
    (The count is a 64-bit integer: the addition is modulo 2^64.) *)
Theorem histogram_counts_every_return (p : processor_t) (pc : Z) (fetch : insn_fetch_t) :
  let entry := commit_log_stash_privilege (commit_log_reset p) in
  let r := execute_insn p pc fetch in
  (∀ npc q, call_func (func fetch) (insn fetch) pc entry = COk npc q →
     r_outcome r = Ok npc →
     pc_histogram (r_proc r)
     = if RISCV_ENABLE_HISTOGRAM
       then <[pc := u64 (default 0 (pc_histogram q !! pc) + 1)]> (pc_histogram q)
       else pc_histogram q)
  ∧ (∀ e q, call_func (func fetch) (insn fetch) pc entry = CRaise e q →
       pc_histogram (r_proc r) = pc_histogram q).
Proof.
  intros entry r. subst r. unfold execute_insn. fold entry. split.
  - intros npc q -> Hout. revert Hout.
    destruct (npc =? PC_SERIALIZE_BEFORE); cbn [r_proc r_outcome].
    + intros _. unfold update_histogram. destruct RISCV_ENABLE_HISTOGRAM; reflexivity.
    + destruct (if log_commits_enabled _ then _ else _); cbn [r_proc r_outcome]; [|done].
      intros _. unfold update_histogram. destruct RISCV_ENABLE_HISTOGRAM; reflexivity.
  - intros e q ->.
    destruct e as [t| | |]; cbn [r_proc]; try reflexivity.
    + destruct (trap_is_mem t); [|reflexivity].
      destruct (log_commits_enabled q && vector_write_logged (state q)); [|reflexivity].
      rewrite histogram_print_and_trace. reflexivity.
    + destruct (log_commits_enabled _); [|reflexivity].
      rewrite histogram_print_and_trace. reflexivity.
Qed.

(** X20.  The privilege printed on the commit line of an instruction is
    the one the processor had when [execute_insn] was entered, not the
    one the instruction left, provided the handler does not touch the
    stash.  The line follows the handler call and starts with the core id
    and this privilege. *)
Theorem commit_line_shows_entry_privilege (p : processor_t) (pc npc : Z)
    (fetch : insn_fetch_t) (q : processor_t) :
  let entry := commit_log_stash_privilege (commit_log_reset p) in
  call_func (func fetch) (insn fetch) pc entry = COk npc q →
  npc ≠ PC_SERIALIZE_BEFORE →
  log_commits_enabled q = true →
  last_inst_priv (state q) = last_inst_priv (state entry) →
  let r := execute_insn p pc fetch in
  r_outcome r = Ok npc →
  ∃ rest,
    r_events r
    = EvHandler pc (bits (insn fetch)) (Some npc)
      :: EvPrintf "core%4d: " [AInt (id q)]
      :: EvPrintf "%1d " [AInt (prv (state p))]
      :: rest.
Proof.
  intros entry Hcall Hne Hen Hstash r. subst r entry. unfold execute_insn. rewrite Hcall.
  replace (npc =? PC_SERIALIZE_BEFORE) with false by (symmetry; by apply Z.eqb_neq).
  change (log_commits_enabled (record_executed_insn (bits (insn fetch)) q))
    with (log_commits_enabled q). rewrite Hen.
  destruct (commit_log_print_insn _ pc (insn fetch)) as [line|] eqn:Hline;
    cbn [r_outcome r_events]; [|done].
  intros _. destruct (commit_line_parts _ _ _ _ Hline) as (body & -> & _).
  cbn [id state record_executed_insn set_sift_executed_insn]. rewrite Hstash.
  eexists. cbn [app]. reflexivity.
Qed.

(** X21.  With commit logging disabled nothing is written to the log
    file and no call can abort on a width: a handler that returns a next
    pc other than the serialize-before sentinel gives this pc, with the
    tracker's diagnostics and at least one trace record after the call;
    a handler that throws gives the exception with nothing after the
    call, also for a memory trap and for a wait for interrupt. *)
Theorem no_commit_log_no_text (p : processor_t) (pc : Z) (fetch : insn_fetch_t) :
  let entry := commit_log_stash_privilege (commit_log_reset p) in
  let r := execute_insn p pc fetch in
  log_commits_enabled (cres_proc (call_func (func fetch) (insn fetch) pc entry)) = false →
  Forall (λ e, is_log_text e = false) (r_events r)
  ∧ (∀ npc q, call_func (func fetch) (insn fetch) pc entry = COk npc q →
       npc ≠ PC_SERIALIZE_BEFORE →
       r_outcome r = Ok npc
       ∧ ∃ record rest,
           r_events r
           = (EvHandler pc (bits (insn fetch)) (Some npc)
              :: (log_print_mem_access (record_executed_insn (bits (insn fetch)) q)
                    pc (insn fetch)).2)
             ++ EvInstruction record :: rest)
  ∧ (∀ e q, call_func (func fetch) (insn fetch) pc entry = CRaise e q →
       r_outcome r = Raise e
       ∧ r_events r = [EvHandler pc (bits (insn fetch)) None]).
Proof.
  intros entry r Hen. subst r. unfold execute_insn. fold entry.
  destruct (call_func (func fetch) (insn fetch) pc entry) as [npc q|e q];
    cbn [cres_proc] in Hen.
  - split_and!; [| |done].
    + destruct (npc =? PC_SERIALIZE_BEFORE); cbn [r_events]; [by repeat constructor|].
      change (log_commits_enabled (record_executed_insn (bits (insn fetch)) q))
        with (log_commits_enabled q). rewrite Hen. cbn [r_events].
      apply Forall_cons_2; [done|]. apply Forall_app_2; [constructor|].
      apply Forall_app_2; [by apply log_print_mem_access_shape|].
      by apply log_print_sift_trace_shape.
    + intros ? ? [= <- <-] Hne.
      replace (npc =? PC_SERIALIZE_BEFORE) with false by (symmetry; by apply Z.eqb_neq).
      change (log_commits_enabled (record_executed_insn (bits (insn fetch)) q))
        with (log_commits_enabled q). rewrite Hen. cbn [r_events r_outcome].
      split; [done|].
      match goal with
      | |- context [log_print_sift_trace ?a ?b ?c] =>
          destruct (log_print_sift_trace_record a b c) as (rec & rest & ->)
      end.
      exists rec, rest. reflexivity.
  - split_and!; [|done|].
    + destruct e as [t| | |]; cbn [r_events]; try (by repeat constructor).
      * destruct (trap_is_mem t); [|by repeat constructor].
        rewrite Hen. cbn [andb r_events]. by repeat constructor.
      * change (log_commits_enabled (record_executed_insn (bits (insn fetch)) q))
          with (log_commits_enabled q). rewrite Hen. by repeat constructor.
    + intros ? ? [= <- <-].
      destruct e as [t| | |]; cbn [r_events r_outcome]; try done.
      * destruct (trap_is_mem t); [|done]. rewrite Hen. done.
      * change (log_commits_enabled (record_executed_insn (bits (insn fetch)) q))
          with (log_commits_enabled q). rewrite Hen. done.
Qed.

End ExecuteObservations.

(** ** Batches and the loop of [step] *)

Ltac advance_cases :=
  unfold advance_pc;
  match goal with
  | |- context [invalid_pc ?npc] =>
      destruct (invalid_pc npc);
      [destruct (npc =? PC_SERIALIZE_BEFORE); [|destruct (npc =? PC_SERIALIZE_AFTER)]|]
  end.

Lemma follow_app (here : Z) (a b : list event) :
  follow here (a ++ b) = follow here a ≫= λ there, follow there b.
Proof.
  revert here. induction a as [|e a IH]; intros here; [done|].
  destruct e; cbn [app follow]; try apply IH.
  destruct (_ =? here); [apply IH|done].
Qed.

Lemma follow_handler_free (here : Z) (out : list event) :
  Forall (λ e, is_handler e = false) out → follow here out = Some here.
Proof.
  induction 1 as [|e l He _ IH]; [done|]. destruct e; try done.
Qed.

Lemma u64_add_u64 (m a b : Z) : u64 (u64 (m + a) + b) = u64 (m + (a + b)).
Proof. unfold u64. rewrite Zplus_mod_idemp_l. f_equal. lia. Qed.

Section BatchFacts.
Context `{Encoding} `{Collaborators}.

(** *** The allowance *)

Lemma within_step (instret bound : nat) (b : batch) :
  within (S instret) bound b → within instret (S bound) b.
Proof. intros [Hle Hlt]. split; [lia|]. intros e He. specialize (Hlt e He). lia. Qed.

Lemma advance_pc_count (npc : Z) (instret : nat) (p : processor_t) :
  match advance_pc npc instret p with
  | AdvNext i _ _ => i = S instret
  | AdvBreak i _ _ => (instret ≤ i ≤ S instret)%nat
  | AdvAbort => True
  end.
Proof.
  unfold advance_pc. destruct (invalid_pc npc); [|done].
  destruct (npc =? PC_SERIALIZE_BEFORE); [lia|].
  destruct (npc =? PC_SERIALIZE_AFTER); [lia|done].
Qed.

Lemma slow_loop_within (remaining instret : nat) (start : Z) (p : processor_t) :
  within instret remaining (slow_loop remaining instret start p).
Proof.
  revert instret start p.
  induction remaining as [|rem IH]; intros instret start p; cbn [slow_loop].
  { split; simpl; [lia|done]. }
  destruct (_ && negb (debug_mode _)); [split; simpl; [lia|done]|].
  destruct (load_insn _ start) as [fetch p3|e p3]; [|split; simpl; [lia|intros; lia]].
  unfold emit_before, within. cbn [b_instret b_status].
  destruct (r_outcome (execute_insn p3 start fetch)) as [npc|e|];
    [|split; simpl; [lia|intros; lia]|split; simpl; [lia|done]].
  pose proof (advance_pc_count npc instret (r_proc (execute_insn p3 start fetch))) as Hadv.
  destruct (advance_pc npc instret (r_proc (execute_insn p3 start fetch)))
    as [i pc' p'|i pc' p'|].
  - subst i. apply within_step, IH.
  - split; simpl; [lia|done].
  - split; simpl; [lia|done].
Qed.

Lemma fast_loop_within (remaining : nat) (ic : option icache_entry)
    (instret : nat) (start : Z) (p : processor_t) :
  within instret remaining (fast_loop remaining ic instret start p).
Proof.
  revert ic instret start p.
  induction remaining as [|rem IH]; intros ic instret start p; cbn [fast_loop].
  { split; simpl; [lia|done]. }
  destruct (match ic with Some e => COk e p | None => access_icache p start end)
    as [entry p1|e p1]; [|split; simpl; [lia|intros; lia]].
  unfold emit_before, within. cbn [b_instret b_status].
  set (r := execute_insn p1 start (ic_data (mmu p1) entry)).
  destruct (r_outcome r) as [npc|e|];
    [|split; simpl; [lia|intros; lia]|split; simpl; [lia|done]].
  destruct (negb _ || _).
  - pose proof (advance_pc_count npc instret (r_proc r)) as Hadv.
    destruct (advance_pc npc instret (r_proc r)) as [i pc' p'|i pc' p'|].
    + subst i. apply within_step, IH.
    + split; simpl; [lia|done].
    + split; simpl; [lia|done].
  - apply within_step, IH.
Qed.

Lemma batch_try_within (n : nat) (p : processor_t) :
  (0 < n)%nat → within 0 n (batch_try n p).
Proof.
  intros Hn. unfold batch_try.
  destruct (take_pending_interrupt p) as [[] p1|e p1]; [|split; simpl; [lia|intros; lia]].
  destruct (slow_path p1); [apply slow_loop_within|apply fast_loop_within].
Qed.

Lemma handle_within (n : nat) (b : batch) (n' instret : nat) (q : processor_t) :
  within 0 n b →
  (handle n b).1 = GoOn n' instret q → (instret ≤ n' ≤ n)%nat.
Proof.
  intros [Hle Hlt]. unfold handle.
  destruct (b_status b) as [|e|] eqn:Hst; cbn [fst].
  - intros [= <- <- <-]. lia.
  - specialize (Hlt e eq_refl).
    destruct e as [t|t| |].
    + destruct (is_stepped _); intros [= <- <- <-]; lia.
    + unfold trigger_action.
      destruct (matched_trigger (b_proc b)).
      * destruct (load_insn _ _) as [fetch p1|]; [|done].
        destruct (r_outcome _) as [npc| |]; [|done|done].
        pose proof (advance_pc_count npc (b_instret b)
                      (r_proc (execute_insn p1 (b_pc b) fetch))) as Hadv.
        destruct (advance_pc _ _ _) as [i pc' p'|i pc' p'|]; [|done|done].
        subst i. cbn [fst]. destruct (m_action t); intros [= <- <- <-]; lia.
      * cbn [fst]. destruct (m_action t); intros [= <- <- <-]; lia.
    + intros [= <- <- <-]. lia.
    + intros [= <- <- <-]. lia.
  - done.
Qed.

(** X22.  The subtraction [n -= instret] at the end of a round of
    [step] never wraps: a batch given [n > 0] counts at most [n]
    instructions, strictly fewer when it ends on an exception (the
    instruction that threw is not counted), and after the catch blocks
    (which add one for a wait for interrupt or a restarted instruction)
    the count is still at most [n].  No assumption on the collaborators
    is needed. *)
Theorem quota_never_underflows (n : nat) (p : processor_t) :
  (0 < n)%nat →
  let b := batch_try n p in
  (b_instret b ≤ n)%nat
  ∧ (∀ e, b_status b = Thrown e → (b_instret b < n)%nat)
  ∧ (∀ n' instret q, (handle n b).1 = GoOn n' instret q → (instret ≤ n' ≤ n)%nat).
Proof.
  intros Hn b. pose proof (batch_try_within n p Hn) as Hw. fold b in Hw.
  split_and!; [destruct Hw as [? _]; simpl in *; lia|apply Hw|].
  intros n' instret q. by apply handle_within.
Qed.

(** X23.  The local count of a batch is the number of handler calls of
    the batch that returned something other than the serialize-before
    sentinel: a call that threw and a call that asked to be executed
    again are not counted, a call that returned the serialize-after
    sentinel is.  During the batch the counters minstret and mcycle are
    not changed (they are credited after it).  Assumed: the collaborators
    keep the counters, the sentinel is an invalid pc and no cache tag. *)
Theorem batch_counts_carried_out (n : nat) (p : processor_t) :
  counters_kept → invalid_pc PC_SERIALIZE_BEFORE = true → tags_valid →
  (0 < n)%nat →
  let b := batch_try n p in
  b_status b ≠ Aborted →
  b_instret b = retired_in (b_events b) ∧ same_counters p (b_proc b).
Proof.
  intros Hkept Hsb Htags Hn b Hst.
  destruct (batch_try_accounted n p Hkept Hsb Htags Hn) as (Hc & Hi & _).
  fold b in Hc, Hi. split; [|exact Hc]. rewrite (Hi Hst). lia.
Qed.

(** *** The services and the counters *)

Lemma slow_loop_counters (remaining instret : nat) (start : Z) (p : processor_t) :
  counters_kept → same_counters p (b_proc (slow_loop remaining instret start p)).
Proof.
  intros Hkept. revert instret start p.
  induction remaining as [|rem IH]; intros instret start p; cbn [slow_loop].
  { apply same_counters_refl. }
  set (fire := negb (serialized (state p)) && is_stepped (state p)).
  set (p1 := if fire then upd_state (set_single_step STEP_NONE) p else p).
  assert (same_counters p p1) as Hp1 by (subst p1; destruct fire; split; reflexivity).
  destruct (fire && negb (debug_mode (state p1))).
  { cbn [b_proc]. eapply same_counters_trans; [exact Hp1|apply (kept_debug Hkept)]. }
  set (p2 := if is_stepping (state p1)
             then upd_state (set_single_step STEP_STEPPED) p1 else p1).
  assert (same_counters p p2) as Hp2.
  { eapply same_counters_trans; [exact Hp1|].
    subst p2; destruct (is_stepping (state p1)); split; reflexivity. }
  pose proof (kept_load Hkept p2 start) as Hl.
  destruct (load_insn p2 start) as [fetch p3|e p3]; simpl in Hl.
  2:{ cbn [b_proc]. eapply same_counters_trans; done. }
  destruct (execute_insn_summary p3 start fetch Hkept) as [Hc _].
  assert (same_counters p (r_proc (execute_insn p3 start fetch))) as Hp3.
  { eapply same_counters_trans; [|exact Hc]. eapply same_counters_trans; done. }
  unfold emit_before. cbn [b_proc].
  destruct (r_outcome (execute_insn p3 start fetch)) as [npc|e|]; [|done|done].
  advance_cases; cbn [b_proc]; try done.
  eapply same_counters_trans; [|apply IH].
  eapply same_counters_trans; [exact Hp3|]. split; reflexivity.
Qed.

Lemma fast_loop_counters (remaining : nat) (ic : option icache_entry)
    (instret : nat) (start : Z) (p : processor_t) :
  counters_kept → same_counters p (b_proc (fast_loop remaining ic instret start p)).
Proof.
  intros Hkept. revert ic instret start p.
  induction remaining as [|rem IH]; intros ic instret start p; cbn [fast_loop].
  { apply same_counters_refl. }
  assert (same_counters p
            (cres_proc (match ic with Some e => COk e p | None => access_icache p start end)))
    as Hl by (destruct ic; [apply same_counters_refl|apply (kept_icache Hkept)]).
  destruct (match ic with Some e => COk e p | None => access_icache p start end)
    as [entry p1|e p1]; simpl in Hl; [|done].
  destruct (execute_insn_summary p1 start (ic_data (mmu p1) entry) Hkept) as [Hc _].
  set (r := execute_insn p1 start (ic_data (mmu p1) entry)) in *.
  assert (same_counters p (r_proc r)) as Hp3 by (eapply same_counters_trans; done).
  unfold emit_before. cbn [b_proc].
  destruct (r_outcome r) as [npc|e|]; [|done|done].
  assert (∀ ic' i', same_counters p
            (b_proc (fast_loop rem ic' i' npc (upd_state (set_pc npc) (r_proc r))))) as Hnext.
  { intros ic' i'. eapply same_counters_trans; [|apply IH].
    eapply same_counters_trans; [exact Hp3|]. split; reflexivity. }
  destruct (negb _ || _); [|apply Hnext].
  advance_cases; cbn [b_proc]; first [done|apply Hnext].
Qed.

Lemma batch_try_counters (n : nat) (p : processor_t) :
  counters_kept → same_counters p (b_proc (batch_try n p)).
Proof.
  intros Hkept. unfold batch_try.
  pose proof (kept_interrupt Hkept p) as Hi.
  destruct (take_pending_interrupt p) as [[] p1|e p1]; simpl in Hi; [|done].
  destruct (slow_path p1); (eapply same_counters_trans; [exact Hi|]).
  - by apply slow_loop_counters.
  - by apply fast_loop_counters.
Qed.

Lemma trigger_action_counters (t : matched_t) (n instret : nat) (start : Z)
    (p : processor_t) :
  counters_kept →
  match trigger_action t n instret start p with
  | GoOn _ _ q | LeaveLoop q | Escape _ q => same_counters p q
  | Dead => True
  end.
Proof.
  intros Hkept. unfold trigger_action.
  destruct (m_action t); [apply (kept_trap Hkept)|apply (kept_debug Hkept)|done].
Qed.

Lemma handle_counters (n : nat) (b : batch) :
  counters_kept →
  match (handle n b).1 with
  | GoOn _ _ q | LeaveLoop q | Escape _ q => same_counters (b_proc b) q
  | Dead => True
  end.
Proof.
  intros Hkept. unfold handle.
  destruct (b_status b) as [|e|]; cbn [fst]; [apply same_counters_refl| |done].
  destruct e as [t|t| |]; cbn [fst].
  - destruct (is_stepped _); cbn [fst].
    + eapply same_counters_trans; [apply (kept_trap Hkept t (b_pc b))|].
      eapply same_counters_trans; [|apply (kept_debug Hkept)]. split; reflexivity.
    + apply (kept_trap Hkept).
  - destruct (matched_trigger (b_proc b)).
    + pose proof (kept_load Hkept (b_proc b) (b_pc b)) as Hl.
      destruct (load_insn _ _) as [fetch p1|e p1]; simpl in Hl; [|done].
      destruct (execute_insn_summary p1 (b_pc b) fetch Hkept) as [Hc _].
      assert (same_counters (b_proc b) (r_proc (execute_insn p1 (b_pc b) fetch))) as Hr
        by (eapply same_counters_trans; done).
      destruct (r_outcome _) as [npc|e|]; cbn [fst]; [|done|done].
      advance_cases; cbn [fst]; try done.
      pose proof (trigger_action_counters t n (S (b_instret b)) npc
                    (set_matched_trigger None
                       (upd_state (set_pc npc) (r_proc (execute_insn p1 (b_pc b) fetch))))
                    Hkept) as Ht.
      destruct (trigger_action _ _ _ _ _); try done;
        (eapply same_counters_trans; [exact Hr|]);
        (eapply same_counters_trans; [|exact Ht]); split; reflexivity.
    + cbn [fst]. apply trigger_action_counters, Hkept.
  - apply (kept_debug Hkept).
  - apply same_counters_refl.
Qed.

Lemma step_loop_credit (fuel n : nat) (p : processor_t) :
  counters_kept →
  match ending_proc (step_loop fuel n p).1 with
  | Some q =>
      ∃ k, (k ≤ n)%nat
        ∧ u64 (minstret (state q)) = u64 (minstret (state p) + Z.of_nat k)
        ∧ u64 (mcycle (state q)) = u64 (mcycle (state p) + Z.of_nat k)
  | None => True
  end.
Proof.
  intros Hkept. revert n p. induction fuel as [|fuel IH]; intros n p.
  { destruct n; simpl; [|done]. exists 0%nat. rewrite !Z.add_0_r. done. }
  destruct n as [|n']; [simpl; exists 0%nat; rewrite !Z.add_0_r; done|].
  cbn [step_loop]. unfold emit_first. cbn [fst].
  set (b := batch_try (S n') p).
  pose proof (batch_try_counters (S n') p Hkept) as [Hm Hy]. fold b in Hm, Hy.
  pose proof (batch_try_within (S n') p ltac:(lia)) as Hw. fold b in Hw.
  pose proof (handle_counters (S n') b Hkept) as Hh.
  pose proof (handle_within (S n') b) as Hb.
  destruct (handle (S n') b).1 as [n1 i q|q|e q|]; cbn [ending_proc]; [| | |done].
  - specialize (Hb n1 i q Hw eq_refl). destruct Hh as [Hm' Hy'].
    specialize (IH (n1 - i)%nat (retire i q)).
    destruct (ending_proc (step_loop fuel (n1 - i) (retire i q)).1) as [q'|]; [|done].
    destruct IH as (k & Hk & Hmk & Hyk). exists (i + k)%nat.
    split; [lia|]. rewrite Hmk, Hyk. cbn [retire upd_state set_state state minstret mcycle
      set_mcycle set_minstret]. unfold bump.
    rewrite !u64_add_u64, Hm', Hy', Hm, Hy, Nat2Z.inj_add. done.
  - destruct Hh as [Hm' Hy']. exists 0%nat. split; [lia|].
    rewrite Hm', Hy', Hm, Hy, !Z.add_0_r. done.
  - destruct Hh as [Hm' Hy']. exists 0%nat. split; [lia|].
    rewrite Hm', Hy', Hm, Hy, !Z.add_0_r. done.
Qed.

(** X24.  Whatever happens in a call of [step] with quota [n] (traps,
    trigger matches, waits for interrupt, an escaping exception, the
    entry into debug mode), as long as the collaborators leave the
    counters alone the call adds the same number to minstret and to
    mcycle, modulo 2^64, and this number is at most [n]. *)
Theorem counters_move_together (fuel n : nat) (p : processor_t) :
  counters_kept →
  match ending_proc (step fuel n p).1 with
  | Some q =>
      ∃ k, (k ≤ n)%nat
        ∧ u64 (minstret (state q)) = u64 (minstret (state p) + Z.of_nat k)
        ∧ u64 (mcycle (state q)) = u64 (mcycle (state p) + Z.of_nat k)
  | None => True
  end.
Proof.
  intros Hkept. unfold step.
  pose proof (step_loop_credit fuel n (check_halt p) Hkept) as Hs.
  destruct (ending_proc _) as [q|]; [|done].
  destruct (check_halt_counters p Hkept) as [Hm Hy]. rewrite Hm, Hy in Hs. done.
Qed.

(** *** The fast path against the slow path *)

Lemma slow_path_view (p q : processor_t) :
  loop_view q = loop_view p → slow_path q = slow_path p.
Proof.
  intros [= ? ? ? ? Hs Hd ? ? ? Hg ? ?]. unfold slow_path. rewrite Hs, Hd, Hg. done.
Qed.

Lemma slow_path_false (p : processor_t) :
  slow_path p = false →
  debug p = false ∧ is_stepped (state p) = false ∧ is_stepping (state p) = false.
Proof.
  unfold slow_path, is_stepped, is_stepping.
  destruct (debug p), (single_step (state p)), (debug_mode (state p)); done.
Qed.

Lemma execute_insn_path (p : processor_t) (start : Z) (fetch : insn_fetch_t) (npc : Z) :
  fetch_coherent →
  r_outcome (execute_insn p start fetch) = Ok npc →
  invalid_pc npc = false →
  slow_path (r_proc (execute_insn p start fetch)) = slow_path p.
Proof.
  intros Hco Ho Hinv.
  destruct (call_func (func fetch) (insn fetch) start
              (commit_log_stash_privilege (commit_log_reset p))) as [npc' q|e q] eqn:Hcall.
  - destruct (execute_insn_returns p start npc' fetch q Hcall) as (Hv & Hor & _).
    assert (npc' = npc) as -> by (destruct Hor as [Hor|Hor]; congruence).
    rewrite (slow_path_view _ _ Hv).
    rewrite (call_keeps_path Hco _ _ _ _ _ _ Hcall Hinv). reflexivity.
  - destruct (execute_insn_throws p start fetch e q Hcall) as (_ & Hor & _).
    destruct Hor as [Hor|Hor]; congruence.
Qed.

Lemma fast_slow_general (n : nat) (ic : option icache_entry) (instret : nat) (start : Z)
    (p : processor_t) :
  fetch_coherent →
  slow_path p = false →
  (∀ e, ic = Some e → ic_tag (mmu p) e = start) →
  fast_loop n ic instret start p = slow_loop n instret start p.
Proof.
  intros Hco. revert ic instret start p.
  induction n as [|rem IH]; intros ic instret start p Hpath Hic; [done|].
  cbn [fast_loop slow_loop].
  destruct (slow_path_false p Hpath) as (Hdbg & Hsd & Hsg).
  rewrite Hsd, andb_false_r. cbn [andb]. rewrite Hsg.
  assert (∃ r, (match ic with Some e => COk e p | None => access_icache p start end) = r
               ∧ match load_insn p start with
                 | COk f q => ∃ e, r = COk e q ∧ ic_data (mmu q) e = f
                 | CRaise x q => r = CRaise x q
                 end) as (r & -> & Hr).
  { eexists. split; [reflexivity|]. destruct ic as [e|].
    - rewrite <- (Hic e eq_refl), (hit_agrees Hco). by exists e.
    - apply (miss_agrees Hco). }
  pose proof (fetch_keeps_path Hco p start) as Hkeep.
  destruct (load_insn p start) as [f q|x q]; cbn [cres_proc] in Hkeep; [|by rewrite Hr].
  destruct Hr as (e & -> & <-).
  rewrite Hpath in Hkeep. destruct (slow_path_false q Hkeep) as (Hdbgq & _ & _).
  rewrite Hdbgq. cbn [andb app]. f_equal.
  set (r := execute_insn q start (ic_data (mmu q) e)).
  destruct (r_outcome r) as [npc|x|] eqn:Ho; [|done|done].
  assert (invalid_pc npc = false →
          slow_path (upd_state (set_pc npc) (r_proc r)) = false) as Hnext.
  { intros Hinv. change (slow_path (upd_state (set_pc npc) (r_proc r)))
      with (slow_path (r_proc r)).
    subst r. rewrite (execute_insn_path q start _ npc Hco Ho Hinv). exact Hkeep. }
  destruct (negb (ic_tag (mmu (r_proc r)) (ic_next (mmu (r_proc r)) e) =? npc)
            || match rem with O => true | S _ => false end) eqn:Hleave.
  - unfold advance_pc. destruct (invalid_pc npc) eqn:Hinv.
    { destruct (npc =? PC_SERIALIZE_BEFORE); [done|].
      destruct (npc =? PC_SERIALIZE_AFTER); done. }
    apply IH; [by apply Hnext|done].
  - apply orb_false_iff in Hleave as [Htag _].
    apply negb_false_iff, Z.eqb_eq in Htag.
    assert (invalid_pc npc = false) as Hinv by (rewrite <- Htag; apply (tags_are_pcs Hco)).
    unfold advance_pc. rewrite Hinv.
    apply IH; [by apply Hnext|]. intros e' [= <-]. exact Htag.
Qed.

(** X25.  The fast path is an optimisation only: when the instruction
    cache agrees with [load_insn] and the slow-path conditions (debug
    output, single stepping, debug mode) do not hold, the fast loop gives
    the batch the slow loop gives from the same pc, count and processor:
    the same events, final pc, local count, status and processor; the
    shortcut that skips the validity test of the next pc when it matches
    the tag of the next cache entry changes nothing. *)
Theorem fast_path_is_slow_path (n instret : nat) (start : Z) (p : processor_t) :
  fetch_coherent →
  slow_path p = false →
  fast_loop n None instret start p = slow_loop n instret start p.
Proof. intros Hco Hpath. apply fast_slow_general; [done|done|]. intros e [=]. Qed.

(** X26.  When an instruction restarted after a trigger match from the
    MMU returns a serialization sentinel, the [break] of [advance_pc]
    leaves the loop of [step] from inside the catch block: [step]
    returns at once, the instructions the batch had completed are not
    credited to minstret and mcycle, the recorded match is not cleared
    and the action of the trigger (breakpoint trap or debug mode) is not
    taken. *)
Theorem trigger_restart_serialize_returns (fuel n : nat) (p : processor_t) (t m : matched_t)
    (fetch : insn_fetch_t) (q : processor_t) (npc : Z) :
  counters_kept →
  (0 < n)%nat →
  let b := batch_try n p in
  b_status b = Thrown (E_matched t) →
  matched_trigger (b_proc b) = Some m →
  load_insn (b_proc b) (b_pc b) = COk fetch q →
  let r := execute_insn q (b_pc b) fetch in
  r_outcome r = Ok npc →
  invalid_pc npc = true →
  npc = PC_SERIALIZE_BEFORE ∨ npc = PC_SERIALIZE_AFTER →
  ∃ q',
    step_loop (S fuel) n p = (Returned q', b_events b ++ r_events r)
    ∧ same_counters p q'
    ∧ matched_trigger q' = matched_trigger (r_proc r)
    ∧ loop_view q' = loop_view (if npc =? PC_SERIALIZE_BEFORE
                                  then upd_state (set_serialized true) (r_proc r)
                                  else r_proc r).
Proof.
  intros Hkept Hn b Hst Hmt Hload r Ho Hinv Hnpc.
  pose proof (batch_try_counters n p Hkept) as Hb. fold b in Hb.
  pose proof (kept_load Hkept (b_proc b) (b_pc b)) as Hl. rewrite Hload in Hl. simpl in Hl.
  destruct (execute_insn_summary q (b_pc b) fetch Hkept) as [Hc _]. fold r in Hc.
  assert (same_counters p (r_proc r)) as Hpr.
  { eapply same_counters_trans; [exact Hb|]. eapply same_counters_trans; done. }
  destruct n as [|n']; [lia|]. cbn [step_loop]. fold b.
  unfold handle. rewrite Hst, Hmt, Hload. fold r. rewrite Ho.
  unfold advance_pc. rewrite Hinv.
  destruct (Z.eqb_spec npc PC_SERIALIZE_BEFORE) as [Hsb|Hsb].
  - eexists. split; [unfold emit_first; cbn [fst snd]; rewrite app_nil_r; reflexivity|].
    split_and!; [|done|done]. eapply same_counters_trans; [exact Hpr|]. split; reflexivity.
  - destruct Hnpc as [?|Hsa]; [done|]. rewrite Hsa, Z.eqb_refl.
    eexists. split; [unfold emit_first; cbn [fst snd]; rewrite app_nil_r; reflexivity|].
    split_and!; done.
Qed.

(** *** The order of the handler calls *)

Lemma commit_line_handler_free (p : processor_t) (start : Z) (i : insn_t)
    (line : list event) :
  commit_log_print_insn p start i = Some line → Forall (λ e, is_handler e = false) line.
Proof.
  intros Hline. destruct (commit_line_parts p start i line Hline) as (body & -> & Hb & _).
  apply Forall_cons_2; [done|]. apply Forall_cons_2; [done|].
  apply Forall_app_2; [|by repeat constructor].
  eapply Forall_impl; [exact Hb|]. intros e [He _]. by destruct e.
Qed.

Lemma print_and_trace_events {A} (o : outcome A) (p : processor_t) (start : Z) (i : insn_t)
    (called : event) :
  ∃ rest, r_events (print_and_trace o p start i [called]) = called :: rest
          ∧ Forall (λ e, is_handler e = false) rest.
Proof.
  unfold print_and_trace.
  destruct (commit_log_print_insn p start i) as [line|] eqn:Hline; cbn [r_events].
  - eexists. split; [reflexivity|]. apply Forall_app_2.
    + by eapply commit_line_handler_free.
    + by apply log_print_sift_trace_shape.
  - exists []. done.
Qed.

Lemma execute_insn_events (p : processor_t) (start : Z) (fetch : insn_fetch_t) :
  let r := execute_insn p start fetch in
  ∃ next rest,
    r_events r = EvHandler start (bits (insn fetch)) next :: rest
    ∧ Forall (λ e, is_handler e = false) rest
    ∧ (∀ npc, r_outcome r = Ok npc → next = Some npc)
    ∧ (∀ e, r_outcome r = Raise e → next = None).
Proof.
  intros r. subst r. unfold execute_insn.
  destruct (call_func _ _ start _) as [npc q|e q].
  - exists (Some npc).
    destruct (npc =? PC_SERIALIZE_BEFORE); cbn [r_events r_outcome].
    { exists []. split_and!; [done|done|by intros ? [= <-]|done]. }
    destruct (if log_commits_enabled _ then _ else _) as [line|] eqn:Hline;
      cbn [r_events r_outcome].
    + eexists. split; [reflexivity|]. split_and!; [|by intros ? [= <-]|done].
      apply Forall_app_2; [|apply Forall_app_2].
      * destruct (log_commits_enabled _); [|injection Hline as <-; done].
        by eapply commit_line_handler_free.
      * by apply log_print_mem_access_shape.
      * by apply log_print_sift_trace_shape.
    + exists []. done.
  - exists None.
    assert (∀ o : outcome Z, (∀ npc, o ≠ Ok npc) → ∀ p',
              ∃ rest, r_events (print_and_trace o p' start (insn fetch)
                                  [EvHandler start (bits (insn fetch)) None])
                      = EvHandler start (bits (insn fetch)) None :: rest
              ∧ Forall (λ e, is_handler e = false) rest
              ∧ (∀ npc, r_outcome (print_and_trace o p' start (insn fetch)
                                      [EvHandler start (bits (insn fetch)) None]) = Ok npc →
                        @None Z = Some npc)
              ∧ (∀ e, r_outcome (print_and_trace o p' start (insn fetch)
                                      [EvHandler start (bits (insn fetch)) None]) = Raise e →
                        @None Z = None)) as Hpt.
    { intros o Ho p'. destruct (print_and_trace_events o p' start (insn fetch)
                          (EvHandler start (bits (insn fetch)) None)) as (rest & Hr & Hf).
      exists rest. split_and!; [done|done| |done].
      intros npc. unfold print_and_trace. destruct (commit_log_print_insn _ _ _); [|done].
      cbn [r_outcome]. intros ->. by destruct (Ho npc). }
    destruct e as [t| | |]; cbn [r_events r_outcome];
      try (exists []; split_and!; done).
    + destruct (trap_is_mem t); [|exists []; split_and!; done].
      destruct (_ && _); [|exists []; split_and!; done].
      apply Hpt. done.
    + destruct (log_commits_enabled _); [|exists []; split_and!; done].
      apply Hpt. done.
Qed.

Lemma follow_execute (p : processor_t) (start : Z) (fetch : insn_fetch_t)
    (before : list event) :
  Forall (λ e, is_handler e = false) before →
  let r := execute_insn p start fetch in
  (∀ npc, r_outcome r = Ok npc →
     ∀ rest, follow start (before ++ r_events r ++ rest) = follow npc rest)
  ∧ (∀ e, r_outcome r = Raise e → follow start (before ++ r_events r) = Some start).
Proof.
  intros Hb r.
  destruct (execute_insn_events p start fetch) as (next & rest & Hev & Hf & Hok & Hth).
  fold r in Hev, Hok, Hth. split.
  - intros npc Ho tail. rewrite (Hok npc Ho) in Hev.
    rewrite follow_app, (follow_handler_free _ _ Hb). cbn [mbind option_bind].
    rewrite Hev. cbn [app follow]. rewrite Z.eqb_refl. cbn [default].
    rewrite follow_app, (follow_handler_free _ _ Hf). done.
  - intros e Ho. rewrite (Hth e Ho) in Hev.
    rewrite follow_app, (follow_handler_free _ _ Hb). cbn [mbind option_bind].
    rewrite Hev. cbn [follow]. rewrite Z.eqb_refl. cbn [default].
    by apply follow_handler_free.
Qed.

Lemma stops_here (st : status) (instret : nat) (start : Z) (p : processor_t) :
  stops_in_order start (mk_batch st instret start p []).
Proof. exists start. split_and!; [done|by left|done]. Qed.

Lemma stops_after (p : processor_t) (start : Z) (fetch : insn_fetch_t) (before : list event)
    (npc : Z) (b : batch) :
  Forall (λ e, is_handler e = false) before →
  r_outcome (execute_insn p start fetch) = Ok npc →
  stops_in_order npc b →
  stops_in_order start (emit_before (before ++ r_events (execute_insn p start fetch)) b).
Proof.
  intros Hb Ho (last & Hf & Hpc & Hth). exists last.
  unfold emit_before. cbn [b_events b_pc b_status b_proc].
  destruct (follow_execute p start fetch before Hb) as [Hok _].
  rewrite <- app_assoc, (Hok npc Ho). done.
Qed.

Lemma stops_break (p : processor_t) (here : Z) (fetch : insn_fetch_t) (before : list event)
    (npc : Z) (instret : nat) (q : processor_t) :
  Forall (λ e, is_handler e = false) before →
  r_outcome (execute_insn p here fetch) = Ok npc →
  invalid_pc npc = true →
  stops_in_order here
    (emit_before (before ++ r_events (execute_insn p here fetch))
                 (mk_batch Completed instret (pc (state q)) q [])).
Proof.
  intros Hb Ho Hinv. exists npc.
  unfold emit_before. cbn [b_events b_pc b_status b_proc].
  destruct (follow_execute p here fetch before Hb) as [Hok _].
  rewrite <- app_assoc, (Hok npc Ho). split_and!; [done|by right|done].
Qed.

Lemma stops_throw (p : processor_t) (start : Z) (fetch : insn_fetch_t) (before : list event)
    (e : exn) (instret : nat) (q : processor_t) :
  Forall (λ e, is_handler e = false) before →
  r_outcome (execute_insn p start fetch) = Raise e →
  stops_in_order start
    (emit_before (before ++ r_events (execute_insn p start fetch))
                 (mk_batch (Thrown e) instret start q [])).
Proof.
  intros Hb Ho. exists start.
  unfold emit_before. cbn [b_events b_pc b_status b_proc].
  destruct (follow_execute p start fetch before Hb) as [_ Hth].
  rewrite app_nil_r, (Hth e Ho). split_and!; [done|by left|done].
Qed.

Lemma slow_loop_in_order (remaining instret : nat) (start : Z) (p : processor_t) :
  b_status (slow_loop remaining instret start p) ≠ Aborted →
  stops_in_order start (slow_loop remaining instret start p).
Proof.
  revert instret start p.
  induction remaining as [|rem IH]; intros instret start p; cbn [slow_loop];
    [intros _; apply stops_here|].
  destruct (_ && negb (debug_mode _)); [intros _; apply stops_here|].
  destruct (load_insn _ start) as [fetch p3|e p3]; [|intros _; apply stops_here].
  set (shown := if debug p3 && negb (serialized (state p3))
                then [EvDisasm (bits (insn fetch))] else []).
  assert (Forall (λ e, is_handler e = false) shown) as Hshown
    by (subst shown; destruct (_ && _); by repeat constructor).
  destruct (r_outcome (execute_insn p3 start fetch)) as [npc|e|] eqn:Ho.
  - unfold advance_pc. destruct (invalid_pc npc) eqn:Hinv.
    + destruct (npc =? PC_SERIALIZE_BEFORE).
      { intros _.
        by apply (stops_break p3 start fetch shown npc instret
                    (upd_state (set_serialized true) (r_proc (execute_insn p3 start fetch)))). }
      destruct (npc =? PC_SERIALIZE_AFTER); [intros _; by apply (stops_break _ _ _ _ npc)|].
      intros Hab. by destruct Hab.
    + intros Hab. apply (stops_after _ _ _ _ npc); [done|done|]. apply IH. exact Hab.
  - intros _. by apply stops_throw.
  - intros Hab. by destruct Hab.
Qed.

Lemma fast_loop_in_order (remaining : nat) (ic : option icache_entry)
    (instret : nat) (start : Z) (p : processor_t) :
  b_status (fast_loop remaining ic instret start p) ≠ Aborted →
  stops_in_order start (fast_loop remaining ic instret start p).
Proof.
  revert ic instret start p.
  induction remaining as [|rem IH]; intros ic instret start p; cbn [fast_loop];
    [intros _; apply stops_here|].
  destruct (match ic with Some e => COk e p | None => access_icache p start end)
    as [entry p1|e p1]; [|intros _; apply stops_here].
  set (r := execute_insn p1 start (ic_data (mmu p1) entry)).
  assert (∀ b, emit_before (r_events r) b = emit_before ([] ++ r_events r) b) as Hnil by done.
  destruct (r_outcome r) as [npc|e|] eqn:Ho.
  - destruct (negb _ || _).
    + unfold advance_pc. destruct (invalid_pc npc) eqn:Hinv.
      * destruct (npc =? PC_SERIALIZE_BEFORE).
        { intros _. rewrite Hnil.
          by apply (stops_break p1 start (ic_data (mmu p1) entry) [] npc instret
                      (upd_state (set_serialized true) (r_proc r))). }
        destruct (npc =? PC_SERIALIZE_AFTER);
          [intros _; rewrite Hnil; by apply (stops_break _ _ _ _ npc)|].
        intros Hab. by destruct Hab.
      * intros Hab. rewrite Hnil. apply (stops_after _ _ _ _ npc); [done|done|].
        apply IH. exact Hab.
    + intros Hab. rewrite Hnil. apply (stops_after _ _ _ _ npc); [done|done|].
      apply IH. exact Hab.
  - intros _. rewrite Hnil. by apply stops_throw.
  - intros Hab. by destruct Hab.
Qed.

(** X27.  In a batch the handler is called in program order: the first
    call is at [state.pc], each further call at the pc the call before
    it returned.  The batch stops at the pc reached in this way; after a
    call that threw this is the pc of the instruction that threw (so
    that a trap reports its pc), and after a serialization sentinel the
    pc is read back from [state.pc]. *)
Theorem batch_runs_in_order (n : nat) (p : processor_t) :
  let b := batch_try n p in
  b_status b ≠ Aborted →
  ∃ last,
    follow (pc (state p)) (b_events b) = Some last
    ∧ (b_pc b = last
       ∨ (invalid_pc last = true ∧ b_status b = Completed
          ∧ b_pc b = pc (state (b_proc b))))
    ∧ (∀ e, b_status b = Thrown e → b_pc b = last).
Proof.
  intros b. subst b. unfold batch_try.
  destruct (take_pending_interrupt p) as [[] p1|e p1]; [|intros _; apply stops_here].
  destruct (slow_path p1); [apply slow_loop_in_order|apply fast_loop_in_order].
Qed.

(** *** Single step *)










End BatchFacts.

(** ** The further properties on runs *)

Section LogRuns.
#[local] Existing Instance riscv_encoding.
#[local] Existing Instance script_types.
#[local] Existing Instance script_machine.

(** A width of 24 bits aborts. *)
Lemma print_value_aborts_iff_witness :
  commit_log_print_value 24 (λ _, 0) = None.
Proof.
  apply (print_value_aborts_iff 24 (λ _, 0)); [lia|].
  intros [[=]|(k & Hk & Hpow)].
  assert (k < 5) by (apply (Z.pow_lt_mono_r_iff 2); [lia|lia|]; rewrite <- Hpow; reflexivity).
  assert (k = 0 ∨ k = 1 ∨ k = 2 ∨ k = 3 ∨ k = 4) as Hcases by lia.
  destruct Hcases as [->|[->|[->|[->| ->]]]]; discriminate.
Defined.

Lemma riscv_csr_names (rd : Z) : newlines_in (csr_name rd) = 0%nat.
Proof. reflexivity. Qed.

Lemma commit_line_one_terminator_witness :
  ∃ line body,
    commit_log_print_insn segment_load_example 0x1000 {| bits := segment_load_bits |}
    = Some line
    ∧ line = EvPrintf "core%4d: " [AInt 0] :: EvPrintf "%1d " [AInt 3]
             :: body ++ [EvPrintf newline []]
    ∧ Forall inline_text body
    ∧ newlines_total line = 1%nat.
Proof.
  destruct (commit_log_print_insn segment_load_example 0x1000 {| bits := segment_load_bits |})
    as [line|] eqn:Hline; [|vm_compute in Hline; discriminate].
  destruct (commit_line_one_terminator riscv_csr_names _ _ _ _ Hline)
    as (body & Hl & Hb & Hn).
  exists line, body. done.
Defined.

(** The address 0x2000 read at counts 10 and 25; and read at 10, written
    at 20 and read at 25. *)
Lemma read_intervals_witness :
  let ld := {| bits := 0x00053503 |} in
  let sd := {| bits := 0x00b53023 |} in
  let p0 := processor0 (fun _ => DoNext) in
  let p1 := (log_print_mem_access (with_access 10 [(0x2000, 7, 8)] [] p0) 0x1000 ld).1 in
  let p2 := (log_print_mem_access (with_access 25 [(0x2000, 7, 8)] [] p1) 0x1004 ld).1 in
  let w2 := (log_print_mem_access (with_access 20 [] [(0x2000, 9, 8)] p1) 0x1004 sd).1 in
  let w3 := (log_print_mem_access (with_access 25 [(0x2000, 9, 8)] [] w2) 0x1008 ld).1 in
  (fmap period ∘ pi_period_list) <$> addr_history p2 !! 0x2000 = Some [15]
  ∧ pi_last_access <$> addr_history w2 !! 0x2000 = Some 20
  ∧ (fmap period ∘ pi_period_list) <$> addr_history w3 !! 0x2000 = Some [5].
Proof.
  intros ld sd p0 p1 p2 w2 w3.
  assert (0x2000 ∉ accessed []) as Hnil by apply not_elem_of_nil.
  assert (0x2000 ∈ accessed [(0x2000, 9, 8)]) as Hin by apply list_elem_of_here.
  split_and!.
  - exact (proj2 (proj2 (proj2 (read_intervals p0 0x1000 ld 0x2000)) eq_refl
                   [(0x2000, 7, 8)] [] [(0x2000, 7, 8)] [] 0x1004 ld
                   eq_refl Hnil eq_refl Hnil)).
  - subst w2.
    rewrite (proj1 (proj2 (read_intervals (with_access 20 [] [(0x2000, 9, 8)] p1)
                             0x1004 sd 0x2000))
               (new_period_info {| period := 10; is_vector := false |})
               eq_refl Hin Hnil).
    reflexivity.
  - subst w3.
    rewrite (proj1 (read_intervals (with_access 25 [(0x2000, 9, 8)] [] w2) 0x1008 ld 0x2000)
               {| pi_seed := {| period := 10; is_vector := false |};
                  pi_last_access := 20; pi_period_list := [] |}
               eq_refl eq_refl Hnil).
    reflexivity.
Defined.

Lemma vector_header_once_witness :
  ∃ line,
    commit_log_print_insn segment_load_example 0x1000 {| bits := segment_load_bits |}
    = Some line
    ∧ length (filter is_vector_header line) = 1%nat.
Proof.
  destruct (commit_log_print_insn segment_load_example 0x1000 {| bits := segment_load_bits |})
    as [line|] eqn:Hline; [|vm_compute in Hline; discriminate].
  exists line. split; [done|].
  rewrite (vector_header_once _ _ _ _ Hline). vm_compute. reflexivity.
Defined.

Lemma tracker_existing_entry_witness :
  (fmap period ∘ pi_period_list)
    <$> addr_history (log_print_mem_access twice_read 0x1004 {| bits := 0x00053503 |}).1
        !! 0x2000
  = Some [15; 0].
Proof.
  rewrite (tracker_existing_entry twice_read 0x1004 {| bits := 0x00053503 |} 0x2000
             (new_period_info {| period := 10; is_vector := false |}) eq_refl).
  reflexivity.
Defined.

Lemma tracker_fresh_entry_witness :
  (fmap period ∘ pi_period_list)
    <$> addr_history (log_print_mem_access twice_read 0x1004 {| bits := 0x00053503 |}).1
        !! 0x3000
  = Some [].
Proof.
  rewrite (tracker_fresh_entry twice_read 0x1004 {| bits := 0x00053503 |} 0x3000 eq_refl).
  reflexivity.
Defined.

Lemma tracker_diagnostic_address_witness :
  (log_print_mem_access twice_read 0x1004 {| bits := 0x00053503 |}).2 = [].
Proof.
  apply tracker_diagnostic_address. change (0x0041ad20 ∉ [0x2000; 0x2000]).
  rewrite !elem_of_cons, elem_of_nil. intros [[=]|[[=]|[]]].
Defined.

Lemma history_is_append_only_witness :
  ∃ e',
    addr_history
      (track_stream [(0x1004, {| bits := 0x00053503 |}, state twice_read)] twice_read)
      !! 0x2000 = Some e'
    ∧ pi_seed e' = {| period := 10; is_vector := false |}
    ∧ length (pi_period_list e') = 2%nat.
Proof.
  destruct (history_is_append_only [(0x1004, {| bits := 0x00053503 |}, state twice_read)]
              twice_read 0x2000 (new_period_info {| period := 10; is_vector := false |})
              eq_refl) as (e' & He & Hs & _ & Hl).
  exists e'. done.
Defined.

Lemma trace_addresses_conserved_witness :
  concat (record_addresses
            <$> (log_print_sift_trace segment_load_example 0x1000
                   {| bits := segment_load_bits |}).2)
  ≡ₚ [100; 200; 300; 101; 201; 301; 102; 202; 302; 103; 203; 303].
Proof.
  refine (proj1 (trace_addresses_conserved segment_load_example 0x1000
                   {| bits := segment_load_bits |} _)).
  vm_compute. discriminate.
Defined.

(** The marker of the start of the region of interest (slli x0, x0, 1)
    with empty logs. *)
Lemma markers_only_without_accesses_witness :
  (log_print_sift_trace (set_sift_executed_insn 0x00100013 (processor0 (fun _ => DoNext)))
     0x1000 {| bits := 0x00100013 |}).2 !! 0%nat
  = Some (instruction_record (set_sift_executed_insn 0x00100013 (processor0 (fun _ => DoNext)))
            0x1000 {| bits := 0x00100013 |} []).
Proof.
  refine (proj2 (proj2 (markers_only_without_accesses
                          (set_sift_executed_insn 0x00100013 (processor0 (fun _ => DoNext)))
                          0x1000 {| bits := 0x00100013 |} 1 0 0 _))).
  vm_compute. apply list_elem_of_further, list_elem_of_here.
Defined.

Lemma inc_field_exact_witness :
  field 7 (inc_field 7 segment_load_bits) = 30.
Proof.
  refine (proj1 (inc_field_exact 7 segment_load_bits _ _ _ _)).
  - lia.
  - lia.
  - vm_compute. split; [discriminate|reflexivity].
  - vm_compute. discriminate.
Defined.

Lemma riscv_vmv_v_x_opcode (x : Z) :
  Z.land MASK_VMV_V_X x = MATCH_VMV_V_X → Z.land x 0x7f = 0x57.
Proof.
  simpl. intros Hm.
  assert (Z.land x 0x7f = Z.land (Z.land 0xfff0707f x) 0x7f) as ->.
  { rewrite (Z.land_comm 0xfff0707f), <- Z.land_assoc. reflexivity. }
  rewrite Hm. reflexivity.
Qed.

Lemma riscv_vmv_v_x_funct3 (x : Z) :
  Z.land MASK_VMV_V_X x = MATCH_VMV_V_X → funct3_is x 0x4 = true.
Proof.
  simpl. intros Hm. unfold funct3_is. apply Z.eqb_eq.
  assert (Z.land (Z.shiftr x 12) 7 = Z.land (Z.shiftr (Z.land 0xfff0707f x) 12) 7) as ->.
  { rewrite Z.shiftr_land, (Z.land_comm (Z.shiftr 0xfff0707f 12)), <- Z.land_assoc.
    reflexivity. }
  rewrite Hm. reflexivity.
Qed.

(** The segment load, and the indexed load vluxei8.v v4, (a0), v8, v0.t
    (0x04850207). *)
Lemma memory_uop_fields_witness :
  advance_raw_word 4 segment_load_bits = inc_vd segment_load_bits
  ∧ advance_raw_word 4 0x04850207 = inc_vs2 (inc_vd 0x04850207).
Proof.
  split.
  - exact (proj1 (memory_uop_fields 4 segment_load_bits riscv_vmv_v_x_opcode
                    ltac:(discriminate))).
  - exact (proj1 (memory_uop_fields 4 0x04850207 riscv_vmv_v_x_opcode
                    ltac:(discriminate))).
Defined.

(** vadd.vv v1, v2, v3 (0x022180d7) becomes vadd.vv v2, v3, v4. *)
Lemma arithmetic_uop_fields_witness :
  advance_raw_word 0 0x022180d7 = 0x02320157.
Proof.
  rewrite (proj1 (arithmetic_uop_fields 0x022180d7 riscv_vmv_v_x_funct3 eq_refl
                    ltac:(vm_compute; discriminate)) eq_refl).
  vm_compute. reflexivity.
Defined.

Lemma commit_line_shows_entry_privilege_witness :
  ∃ rest,
    r_events (execute_insn (processor0 (fun _ => DoNext)) 0x1000
                (script_fetch (fun _ => DoNext) 0x1000))
    = EvHandler 0x1000 0x00000013 (Some 0x1004)
      :: EvPrintf "core%4d: " [AInt 0] :: EvPrintf "%1d " [AInt 3] :: rest.
Proof.
  refine (commit_line_shows_entry_privilege (processor0 (fun _ => DoNext)) 0x1000 0x1004
            (script_fetch (fun _ => DoNext) 0x1000)
            (commit_log_stash_privilege (commit_log_reset (processor0 (fun _ => DoNext))))
            eq_refl _ eq_refl eq_refl _).
  - discriminate.
  - vm_compute. reflexivity.
Defined.

Lemma no_commit_log_no_text_witness :
  Forall (λ e, is_log_text e = false)
    (r_events (execute_insn quiet_log_processor 0x1000
                 (script_fetch trapping_program 0x1000)))
  ∧ r_events (execute_insn quiet_log_processor 0x1008
                (script_fetch trapping_program 0x1008))
    = [EvHandler 0x1008 0x00000013 None].
Proof.
  split.
  - exact (proj1 (no_commit_log_no_text quiet_log_processor 0x1000
                    (script_fetch trapping_program 0x1000) eq_refl)).
  - exact (proj2 (proj2 (proj2 (no_commit_log_no_text quiet_log_processor 0x1008
                                  (script_fetch trapping_program 0x1008) eq_refl))
                    (E_trap load_fault) _ eq_refl)).
Defined.

Lemma quota_never_underflows_witness :
  (b_instret (batch_try 5 (processor0 trapping_program)) ≤ 5)%nat.
Proof.
  exact (proj1 (quota_never_underflows 5 (processor0 trapping_program) ltac:(lia))).
Defined.

Lemma batch_counts_carried_out_witness :
  b_instret (batch_try 5 (processor0 trapping_program))
  = retired_in (b_events (batch_try 5 (processor0 trapping_program))).
Proof.
  exact (proj1 (batch_counts_carried_out 5 (processor0 trapping_program)
                  script_counters_kept eq_refl script_tags_valid ltac:(lia)
                  ltac:(vm_compute; discriminate))).
Defined.

Lemma counters_move_together_witness :
  match ending_proc (step 1 5 (processor0 trapping_program)).1 with
  | Some q =>
      ∃ k, (k ≤ 5)%nat
        ∧ u64 (minstret (state q)) = u64 (0 + Z.of_nat k)
        ∧ u64 (mcycle (state q)) = u64 (0 + Z.of_nat k)
  | None => True
  end.
Proof.
  exact (counters_move_together 1 5 (processor0 trapping_program) script_counters_kept).
Defined.

Lemma batch_runs_in_order_witness :
  ∃ last,
    follow 0x1000 (b_events (batch_try 5 (processor0 trapping_program))) = Some last
    ∧ b_pc (batch_try 5 (processor0 trapping_program)) = last.
Proof.
  assert (b_status (batch_try 5 (processor0 trapping_program)) ≠ Aborted) as Hst
    by (vm_compute; discriminate).
  destruct (batch_runs_in_order 5 (processor0 trapping_program) Hst)
    as (last & Hf & _ & Hth).
  exists last. split; [exact Hf|]. apply (Hth (E_trap load_fault)).
  vm_compute. reflexivity.
Defined.

End LogRuns.

Section AlignedRuns.
#[local] Existing Instance riscv_encoding.
#[local] Existing Instance plain_types.
#[local] Existing Instance aligned_machine.

Lemma aligned_fetch_coherent : fetch_coherent.
Proof.
  split.
  - intros p pc. simpl. exists (pc / 2). done.
  - intros p e. simpl. rewrite (Z.mul_comm 2 e), Z.div_mul by lia.
    rewrite (Z.mul_comm e 2). reflexivity.
  - intros m e. simpl. apply Z.eqb_neq.
    change 1 with (Z.ones 1) at 1. rewrite Z.land_ones by lia.
    rewrite Z.mul_comm, Z.mod_mul by lia. discriminate.
  - intros p pc. reflexivity.
  - intros f i pc p npc q Hcall _. simpl in Hcall. unfold plain_call in Hcall.
    destruct (_ && _); injection Hcall as <- <-; reflexivity.
Qed.

Lemma fast_path_is_slow_path_witness :
  fast_loop 3 None 0 0x1000 plain_processor = slow_loop 3 0 0x1000 plain_processor.
Proof.
  exact (fast_path_is_slow_path 3 0 0x1000 plain_processor aligned_fetch_coherent eq_refl).
Defined.

End AlignedRuns.

Section TriggerRuns.
#[local] Existing Instance riscv_encoding.
#[local] Existing Instance trigger_types.
#[local] Existing Instance trigger_machine.

Lemma trigger_counters_kept : counters_kept.
Proof.
  split; try (intros; split; reflexivity).
  intros f i pc p. simpl. unfold trigger_call.
  destruct (matched_trigger p); split; reflexivity.
Qed.

Lemma trigger_restart_serialize_returns_witness :
  ∃ q',
    (step_loop 1 3 trigger_processor).1 = Returned q'
    ∧ same_counters trigger_processor q'
    ∧ matched_trigger q' = Some watchpoint.
Proof.
  destruct (trigger_restart_serialize_returns 0 3 trigger_processor watchpoint watchpoint
              (@ic_data trigger_types trigger_machine tt tt)
              (b_proc (batch_try 3 trigger_processor)) 5
              trigger_counters_kept ltac:(lia) eq_refl eq_refl eq_refl
              ltac:(vm_compute; reflexivity) eq_refl ltac:(right; reflexivity))
    as (q' & Hrun & Hc & Hm & _).
  exists q'. rewrite Hrun. split_and!; [done|done|].
  rewrite Hm. vm_compute. reflexivity.
Defined.

End TriggerRuns.

Section StepperRuns.
#[local] Existing Instance riscv_encoding.
#[local] Existing Instance stepper_types.
#[local] Existing Instance stepper_machine.





End StepperRuns.
